(** * Track manager: persistent feature tracks across frames

    A shallow embedding of [pyslam/tracking/track_manager.py] and the
    properties of its track life cycle.

    The Python object is a record of five fields; its methods are
    computations in a state-and-exception monad over that record, so a
    method that raises half way leaves behind exactly the mutations it
    had already performed.  Integers are unbounded ([Z]); keypoint
    coordinates are binary64 floats; the [tracks] dictionary is an
    insertion-ordered association list, as a Python [dict] is; the
    [set] difference of the loss detection is a [gset]. *)

From Stdlib Require Import ZArith Lia Floats.
From stdpp Require Import base numbers list gmap strings pretty sorting.

Local Open Scope Z_scope.

(** ** Python containers *)

(** [len(l)] *)
Definition len {A : Type} (l : list A) : Z := Z.of_nat (length l).
Arguments len : simpl never.

(** An insertion-ordered dictionary: assigning to a present key replaces
    the value in place, assigning to an absent key appends the item. *)
Abbreviation dict K V := (list (K * V)).

Fixpoint dict_get {K V : Type} `{EqDecision K} (k : K) (d : dict K V) : option V :=
  match d with
  | [] => None
  | (k', v) :: d' => if decide (k = k') then Some v else dict_get k d'
  end.

Fixpoint dict_set {K V : Type} `{EqDecision K} (k : K) (v : V) (d : dict K V)
    : dict K V :=
  match d with
  | [] => [(k, v)]
  | (k', v') :: d' =>
      if decide (k = k') then (k, v) :: d' else (k', v') :: dict_set k v d'
  end.

(** [k in d] *)
Definition dict_in {K V : Type} `{EqDecision K} (k : K) (d : dict K V) : bool :=
  match dict_get k d with Some _ => true | None => false end.

Definition dict_keys {K V : Type} (d : dict K V) : list K := d.*1.
Definition dict_values {K V : Type} (d : dict K V) : list V := d.*2.

(** The position a Python sequence of length [n] reads for the index
    [i]: negative indices count from the end, anything outside
    [-n .. n-1] is an [IndexError] ([None] here). *)
Definition py_index (n : nat) (i : Z) : option nat :=
  if (0 <=? i) && (i <? Z.of_nat n) then Some (Z.to_nat i)
  else if (- Z.of_nat n <=? i) && (i <? 0) then Some (Z.to_nat (i + Z.of_nat n))
  else None.

(** ** Data model *)

Definition keypoint : Type := float * float.
Definition position : Type := float * float.

Record Track := mkTrack {
  age : Z;
  first_frame : Z;
  last_frame : Z;
  positions : list position;
  is_active : bool
}.

Definition set_age (a : Z) (t : Track) : Track :=
  mkTrack a (first_frame t) (last_frame t) (positions t) (is_active t).
Definition set_last_frame (f : Z) (t : Track) : Track :=
  mkTrack (age t) (first_frame t) f (positions t) (is_active t).
Definition set_positions (l : list position) (t : Track) : Track :=
  mkTrack (age t) (first_frame t) (last_frame t) l (is_active t).
Definition set_is_active (b : bool) (t : Track) : Track :=
  mkTrack (age t) (first_frame t) (last_frame t) (positions t) b.

Record TrackManager := mkTrackManager {
  tracks : dict Z Track;
  next_track_id : Z;
  current_frame : Z;
  active_track_ids : list Z;
  ref_track_ids : list Z
}.

Definition set_tracks (d : dict Z Track) (s : TrackManager) : TrackManager :=
  mkTrackManager d (next_track_id s) (current_frame s)
                 (active_track_ids s) (ref_track_ids s).
Definition set_next_track_id (n : Z) (s : TrackManager) : TrackManager :=
  mkTrackManager (tracks s) n (current_frame s)
                 (active_track_ids s) (ref_track_ids s).
Definition set_current_frame (f : Z) (s : TrackManager) : TrackManager :=
  mkTrackManager (tracks s) (next_track_id s) f
                 (active_track_ids s) (ref_track_ids s).
Definition set_active_track_ids (l : list Z) (s : TrackManager) : TrackManager :=
  mkTrackManager (tracks s) (next_track_id s) (current_frame s)
                 l (ref_track_ids s).
Definition set_ref_track_ids (l : list Z) (s : TrackManager) : TrackManager :=
  mkTrackManager (tracks s) (next_track_id s) (current_frame s)
                 (active_track_ids s) l.

(** [TrackManager.__init__] *)
Definition __init__ : TrackManager :=
  mkTrackManager [] 0 (-1) [] [].

(** ** The method monad *)

Inductive exn := IndexError | KeyError.

Inductive outcome (A : Type) :=
| Ok (a : A)
| Raise (e : exn).
Arguments Ok {A} a.
Arguments Raise {A} e.

Definition M (A : Type) : Type := TrackManager -> outcome A * TrackManager.

Definition ret {A : Type} (a : A) : M A := fun s => (Ok a, s).

Definition bind {A B : Type} (m : M A) (k : A -> M B) : M B :=
  fun s =>
    match m s with
    | (Ok a, s') => k a s'
    | (Raise e, s') => (Raise e, s')
    end.

Definition raise {A : Type} (e : exn) : M A := fun s => (Raise e, s).
Definition gets {A : Type} (f : TrackManager -> A) : M A := fun s => (Ok (f s), s).
Definition modify (f : TrackManager -> TrackManager) : M unit := fun s => (Ok tt, f s).

Notation "'do' x <- m ; k" := (bind m (fun x => k))
  (at level 10, x name, m at level 100, k at level 200).
Notation "m ;; k" := (bind m (fun _ => k))
  (at level 100, k at level 200, right associativity).

(** [l[i]] on a list or an array, raising [IndexError] out of range. *)
Definition getitem {A : Type} (l : list A) (i : Z) : M A :=
  match py_index (length l) i ≫= (l !!.) with
  | Some x => ret x
  | None => raise IndexError
  end.

(** [l[i] = x] on a list, raising [IndexError] out of range. *)
Definition setitem {A : Type} (l : list A) (i : Z) (x : A) : M (list A) :=
  match py_index (length l) i with
  | Some k => ret (<[k := x]> l)
  | None => raise IndexError
  end.

(** [self.tracks[track_id][field] = ...]: the record stored for
    [track_id] is updated in place, and [KeyError] is raised when the
    dictionary has no such key. *)
Definition modify_track (track_id : Z) (f : Track -> Track) : M unit :=
  do trs <- gets tracks;
  match dict_get track_id trs with
  | Some t => modify (set_tracks (dict_set track_id (f t) trs))
  | None => raise KeyError
  end.

(** ** [TrackManager] methods *)

Definition _create_track (kp : keypoint) (frame_id : Z) : M Z :=
  do track_id <- gets next_track_id;
  modify (fun s => set_next_track_id (next_track_id s + 1) s) ;;
  modify (fun s =>
    set_tracks
      (dict_set track_id
         {| age := 1;
            first_frame := frame_id;
            last_frame := frame_id;
            positions := [(kp.1, kp.2)];
            is_active := true |}
         (tracks s)) s) ;;
  ret track_id.

(** The [for kp in kps] loop of [_initialize_tracks]. *)
Fixpoint initialize_loop (kps : list keypoint) (frame_id : Z) : M unit :=
  match kps with
  | [] => ret tt
  | kp :: rest =>
      do track_id <- _create_track kp frame_id;
      modify (fun s => set_ref_track_ids (ref_track_ids s ++ [track_id]) s) ;;
      modify (fun s => set_active_track_ids (active_track_ids s ++ [track_id]) s) ;;
      initialize_loop rest frame_id
  end.

Definition _initialize_tracks (kps : list keypoint) (frame_id : Z) : M unit :=
  modify (set_ref_track_ids []) ;;
  modify (set_active_track_ids []) ;;
  initialize_loop kps frame_id.

(** One iteration of the matching loop of [update] on the pair
    [(idx_ref, idx_cur)]; [new_active_track_ids] is the local list under
    construction. *)
Definition match_body (kps_cur : list keypoint) (frame_id : Z)
    (idx_ref idx_cur : Z) (new_active_track_ids : list Z) : M (list Z) :=
  do ref <- gets ref_track_ids;
  if (idx_ref <? len ref) && (idx_cur <? len kps_cur) then
    do track_id <- getitem ref idx_ref;
    do new_active_track_ids <- setitem new_active_track_ids idx_cur track_id;
    do trs <- gets tracks;
    if dict_in track_id trs then
      modify_track track_id (fun t => set_age (age t + 1) t) ;;
      modify_track track_id (set_last_frame frame_id) ;;
      do kp <- getitem kps_cur idx_cur;
      modify_track track_id
        (fun t => set_positions (positions t ++ [(kp.1, kp.2)]) t) ;;
      ret new_active_track_ids
    else ret new_active_track_ids
  else ret new_active_track_ids.

Fixpoint match_loop (kps_cur : list keypoint) (frame_id : Z)
    (pairs : list (Z * Z)) (new_active_track_ids : list Z) : M (list Z) :=
  match pairs with
  | [] => ret new_active_track_ids
  | (idx_ref, idx_cur) :: rest =>
      do new_active_track_ids <-
        match_body kps_cur frame_id idx_ref idx_cur new_active_track_ids;
      match_loop kps_cur frame_id rest new_active_track_ids
  end.

(** The [for i, track_id in enumerate(new_active_track_ids)] loop: the
    list is read at position [i] when the iteration reaches it. *)
Fixpoint assign_loop (kps_cur : list keypoint) (frame_id : Z)
    (idxs : list nat) (new_active_track_ids : list Z) : M (list Z) :=
  match idxs with
  | [] => ret new_active_track_ids
  | i :: rest =>
      match new_active_track_ids !! i with
      | None => ret new_active_track_ids
      | Some track_id =>
          if track_id =? -1 then
            do kp <- getitem kps_cur (Z.of_nat i);
            do new_track_id <- _create_track kp frame_id;
            assign_loop kps_cur frame_id rest (<[i := new_track_id]> new_active_track_ids)
          else assign_loop kps_cur frame_id rest new_active_track_ids
      end
  end.

(** One iteration of the loop over [lost_track_ids]. *)
Definition retire_body (track_id : Z) : M unit :=
  do trs <- gets tracks;
  if dict_in track_id trs && negb (track_id =? -1) then
    modify_track track_id (set_is_active false)
  else ret tt.

Fixpoint retire_loop (lost : list Z) : M unit :=
  match lost with
  | [] => ret tt
  | track_id :: rest => retire_body track_id ;; retire_loop rest
  end.

(** [set(ref_track_ids) - set(new_active_track_ids)], in the order the
    loop visits it. *)
Definition lost_track_ids (ref new_active_track_ids : list Z) : list Z :=
  elements ((list_to_set ref : gset Z) ∖ list_to_set new_active_track_ids).

(** The part of [update] after the two bootstrap tests. *)
Definition reconcile (idxs_ref idxs_cur : list Z) (kps_cur : list keypoint)
    (frame_id : Z) : M unit :=
  do new_active_track_ids <-
    match_loop kps_cur frame_id (zip idxs_ref idxs_cur)
               (replicate (length kps_cur) (-1));
  do new_active_track_ids <-
    assign_loop kps_cur frame_id (seq 0 (length new_active_track_ids))
                new_active_track_ids;
  do ref <- gets ref_track_ids;
  retire_loop (lost_track_ids ref new_active_track_ids) ;;
  modify (set_ref_track_ids new_active_track_ids) ;;
  modify (set_active_track_ids (filter (λ tid, tid ≠ -1) new_active_track_ids)).

Definition update (idxs_ref idxs_cur : option (list Z))
    (kps_cur : option (list keypoint)) (frame_id : Z) : M unit :=
  modify (set_current_frame frame_id) ;;
  match kps_cur with
  | None => ret tt
  | Some kps =>
      if len kps =? 0 then ret tt
      else
        do ref <- gets ref_track_ids;
        match idxs_ref, idxs_cur with
        | Some ir, Some ic =>
            if len ref =? 0 then _initialize_tracks kps frame_id
            else if (len ir =? 0) || (len ic =? 0) then
              _initialize_tracks kps frame_id
            else reconcile ir ic kps frame_id
        | _, _ => _initialize_tracks kps frame_id
        end
  end.


(** A call of [update], and the state after a history of calls.  A call
    that raises leaves the object as the exception found it. *)
Record call := Call {
  c_idxs_ref : option (list Z);
  c_idxs_cur : option (list Z);
  c_kps_cur : option (list keypoint);
  c_frame_id : Z
}.

Definition do_call (s : TrackManager) (c : call) : TrackManager :=
  (update (c_idxs_ref c) (c_idxs_cur c) (c_kps_cur c) (c_frame_id c) s).2.

Definition replay (cs : list call) (s : TrackManager) : TrackManager :=
  foldl do_call s cs.

(** ** Queries and export *)

(** The three floating-point reductions of numpy the statistics call on
    a list of ages. *)
Class Numpy := {
  np_mean : list Z -> float;
  np_median : list Z -> float;
  np_std : list Z -> float
}.

(** [np.max] and [np.min] of a non-empty list of integers. *)
Definition np_max (l : list Z) : Z := foldr Z.max (default 0 (head l)) l.
Definition np_min (l : list Z) : Z := foldr Z.min (default 0 (head l)) l.

Record Statistics := mkStatistics {
  total_tracks : Z;
  active_tracks : Z;
  mean_track_length : float;
  median_track_length : float;
  std_track_length : float;
  max_track_length : Z;
  min_track_length : Z;
  mean_active_track_length : float
}.

Record TrackSummary := mkTrackSummary {
  x_age : Z;
  x_first_frame : Z;
  x_last_frame : Z;
  num_observations : Z;
  x_is_active : bool
}.

Record Export := mkExport {
  x_tracks : dict string TrackSummary;
  statistics : Statistics;
  total_frames : Z
}.

(** [list.sort(key=...)]: a stable sort, by insertion. *)
Fixpoint insert_by {A : Type} (key : A -> Z) (x : A) (l : list A) : list A :=
  match l with
  | [] => [x]
  | y :: l' => if key x <=? key y then x :: l else y :: insert_by key x l'
  end.

Definition sort_by {A : Type} (key : A -> Z) (l : list A) : list A :=
  foldr (insert_by key) [] l.

Definition get_active_track_count : M Z :=
  do active <- gets active_track_ids;
  ret (len active).

Definition get_total_track_count : M Z :=
  do trs <- gets tracks;
  ret (len trs).

Definition get_track_ages : M (list Z) :=
  do trs <- gets tracks;
  ret (age <$> dict_values trs).

Definition get_active_track_ages : M (list Z) :=
  do active <- gets active_track_ids;
  do trs <- gets tracks;
  ret (omap (fun tid => age <$> dict_get tid trs) active).

Definition get_tracks_for_visualization : M (list (Z * Z * Z * Z)) :=
  do trs <- gets tracks;
  ret (sort_by (fun x => x.1.1.2)
         ((fun kt => (kt.1, first_frame kt.2, last_frame kt.2, age kt.2)) <$> trs)).

Section Queries.
Context `{Numpy}.

Definition get_average_track_length : M float :=
  do ages <- get_track_ages;
  ret (match ages with [] => 0%float | _ => np_mean ages end).

Definition get_track_statistics : M Statistics :=
  do ages <- get_track_ages;
  do active_ages <- get_active_track_ages;
  do trs <- gets tracks;
  do active <- gets active_track_ids;
  ret {| total_tracks := len trs;
         active_tracks := len active;
         mean_track_length := match ages with [] => 0%float | _ => np_mean ages end;
         median_track_length := match ages with [] => 0%float | _ => np_median ages end;
         std_track_length := match ages with [] => 0%float | _ => np_std ages end;
         max_track_length := match ages with [] => 0 | _ => np_max ages end;
         min_track_length := match ages with [] => 0 | _ => np_min ages end;
         mean_active_track_length :=
           match active_ages with [] => 0%float | _ => np_mean active_ages end |}.

Definition export_tracks : M Export :=
  do stats <- get_track_statistics;
  do frame <- gets current_frame;
  do trs <- gets tracks;
  ret {| x_tracks :=
           foldl (fun d kt =>
                    dict_set (pretty kt.1)
                      {| x_age := age kt.2;
                         x_first_frame := first_frame kt.2;
                         x_last_frame := last_frame kt.2;
                         num_observations := len (positions kt.2);
                         x_is_active := is_active kt.2 |} d)
                 [] trs;
         statistics := stats;
         total_frames := frame + 1 |}.

(** The public operations of a [TrackManager], and what they return. *)
Inductive op :=
| Update (c : call)
| GetActiveTrackCount
| GetTotalTrackCount
| GetTrackAges
| GetActiveTrackAges
| GetAverageTrackLength
| GetTrackStatistics
| GetTracksForVisualization
| ExportTracks.

Inductive value :=
| VNone
| VInt (n : Z)
| VFloat (x : float)
| VInts (l : list Z)
| VStatistics (st : Statistics)
| VVisualization (l : list (Z * Z * Z * Z))
| VExport (e : Export).

Definition exec (o : op) : M value :=
  match o with
  | Update c =>
      update (c_idxs_ref c) (c_idxs_cur c) (c_kps_cur c) (c_frame_id c) ;; ret VNone
  | GetActiveTrackCount => do n <- get_active_track_count; ret (VInt n)
  | GetTotalTrackCount => do n <- get_total_track_count; ret (VInt n)
  | GetTrackAges => do l <- get_track_ages; ret (VInts l)
  | GetActiveTrackAges => do l <- get_active_track_ages; ret (VInts l)
  | GetAverageTrackLength => do x <- get_average_track_length; ret (VFloat x)
  | GetTrackStatistics => do st <- get_track_statistics; ret (VStatistics st)
  | GetTracksForVisualization =>
      do l <- get_tracks_for_visualization; ret (VVisualization l)
  | ExportTracks => do e <- export_tracks; ret (VExport e)
  end.

(** The state after a sequence of operations on a fresh object. *)
Definition run (ops : list op) : TrackManager :=
  foldl (fun s o => (exec o s).2) __init__ ops.
End Queries.

(** ** Vocabulary of the properties *)

(** The record [_create_track] stores. *)
Definition new_track (frame_id : Z) (kp : keypoint) : Track :=
  {| age := 1;
     first_frame := frame_id;
     last_frame := frame_id;
     positions := [(kp.1, kp.2)];
     is_active := true |}.

(** A track after one more observation at [kp] in frame [frame_id]:
    the three updates of the matching loop together. *)
Definition continue_track (frame_id : Z) (kp : keypoint) (t : Track) : Track :=
  set_positions (positions t ++ [(kp.1, kp.2)])
    (set_last_frame frame_id (set_age (age t + 1) t)).

(** A track after its retirement. *)
Definition deactivate (t : Track) : Track := set_is_active false t.

(** The ids issued so far are [0 .. next_track_id - 1], in this order. *)
Definition well_numbered (s : TrackManager) : Prop :=
  dict_keys (tracks s) = seqZ 0 (next_track_id s)
  ∧ next_track_id s = len (tracks s).

(** The records the bootstrap path creates for [kps], from id [n0] on. *)
Definition fresh_tracks (n0 frame_id : Z) (kps : list keypoint) : dict Z Track :=
  zip (seqZ n0 (len kps)) (new_track frame_id <$> kps).

(** A track has one position per observation. *)
Definition consistent (t : Track) : Prop := age t = len (positions t).

(** The invariant of the store between operations: ids are numbered in
    order, every id of the reference list names an active track, the
    active list is the reference list without sentinels, and every track
    is consistent. *)
Record Inv (s : TrackManager) : Prop := mkInv {
  inv_numbered : well_numbered s;
  inv_ref :
    Forall (fun tid => ∃ t, dict_get tid (tracks s) = Some t ∧ is_active t = true)
           (ref_track_ids s);
  inv_active :
    active_track_ids s = filter (λ tid, tid ≠ -1) (ref_track_ids s);
  inv_age : Forall (fun kt => consistent kt.2) (tracks s)
}.

(** What one iteration of the matching loop does with a pair, as a
    function of the reference list and the detections: it skips the pair,
    raises, or continues track [tid] in slot [slot] with the detection
    [kp]. *)
Inductive pair_effect :=
| Skipped
| Raises
| Continues (tid : Z) (slot : nat) (kp : keypoint).

Definition pair_effect_of (ref : list Z) (kps : list keypoint) (pc : Z * Z)
    : pair_effect :=
  if (pc.1 <? len ref) && (pc.2 <? len kps) then
    match py_index (length ref) pc.1 ≫= (ref !!.) with
    | None => Raises
    | Some tid =>
        match py_index (length kps) pc.2 with
        | None => Raises
        | Some slot =>
            match kps !! slot with
            | Some kp => Continues tid slot kp
            | None => Raises
            end
        end
    end
  else Skipped.

(** The list under construction after a pair. *)
Definition place (ref : list Z) (kps : list keypoint) (arr : list Z) (pc : Z * Z)
    : list Z :=
  match pair_effect_of ref kps pc with
  | Continues tid slot _ => <[slot := tid]> arr
  | _ => arr
  end.

(** The detections the pairs attach to track [tid], in order. *)
Definition observations (ref : list Z) (kps : list keypoint)
    (pairs : list (Z * Z)) (tid : Z) : list keypoint :=
  omap (fun pc =>
          match pair_effect_of ref kps pc with
          | Continues tid' _ kp => if decide (tid' = tid) then Some kp else None
          | _ => None
          end) pairs.

(** A track continued with a list of detections. *)
Definition observe (frame_id : Z) (t : Track) (obs : list keypoint) : Track :=
  foldl (fun t kp => continue_track frame_id kp t) t obs.

(** What the matching loop may change: it ages tracks of the reference
    list and touches nothing else. *)
Record aged (s s1 : TrackManager) : Prop := mkAged {
  aged_next : next_track_id s1 = next_track_id s;
  aged_frame : current_frame s1 = current_frame s;
  aged_active : active_track_ids s1 = active_track_ids s;
  aged_ref : ref_track_ids s1 = ref_track_ids s;
  aged_keys : dict_keys (tracks s1) = dict_keys (tracks s);
  aged_other :
    ∀ tid, tid ∉ ref_track_ids s → dict_get tid (tracks s1) = dict_get tid (tracks s);
  aged_flag :
    ∀ tid, is_active <$> dict_get tid (tracks s1) = is_active <$> dict_get tid (tracks s);
  aged_consistent :
    Forall (fun kt => consistent kt.2) (tracks s) →
    Forall (fun kt => consistent kt.2) (tracks s1)
}.

(** The store after the tracks [fresh_tracks (next_track_id s) frame_id kps]
    have been created in it. *)
Definition allocate (frame_id : Z) (kps : list keypoint) (s : TrackManager)
    : TrackManager :=
  mkTrackManager (tracks s ++ fresh_tracks (next_track_id s) frame_id kps)
    (next_track_id s + len kps) (current_frame s)
    (active_track_ids s) (ref_track_ids s).

(** What the loop over [lost] changes: the [is_active] flag of the
    tracks it names, and nothing else. *)
Record retired (lost : list Z) (s s' : TrackManager) : Prop := mkRetired {
  retired_next : next_track_id s' = next_track_id s;
  retired_frame : current_frame s' = current_frame s;
  retired_active : active_track_ids s' = active_track_ids s;
  retired_ref : ref_track_ids s' = ref_track_ids s;
  retired_keys : dict_keys (tracks s') = dict_keys (tracks s);
  retired_len : len (tracks s') = len (tracks s);
  retired_get :
    ∀ tid, dict_get tid (tracks s')
           = if decide (tid ∈ lost ∧ tid ≠ -1)
             then deactivate <$> dict_get tid (tracks s)
             else dict_get tid (tracks s);
  retired_consistent :
    Forall (fun kt => consistent kt.2) (tracks s) →
    Forall (fun kt => consistent kt.2) (tracks s')
}.

(** What every call of [update] guarantees, whether it returns or
    raises: the invariant, ids that only grow, a reference list made of
    former reference ids and new ids, and no change to a track that was
    not in the reference list. *)
Record stepped (s s' : TrackManager) : Prop := mkStepped {
  stepped_inv : Inv s';
  stepped_next : next_track_id s ≤ next_track_id s';
  stepped_ref :
    ∀ tid, tid ∈ ref_track_ids s' → tid ∈ ref_track_ids s ∨ next_track_id s ≤ tid;
  stepped_other :
    ∀ tid, tid ∉ ref_track_ids s → tid < next_track_id s →
           dict_get tid (tracks s') = dict_get tid (tracks s)
}.

(** The correspondences a call passes: the pairs of the two index
    arrays, absent when either array is. *)
Definition correspondences (idxs_ref idxs_cur : option (list Z))
    : option (list (Z * Z)) :=
  match idxs_ref, idxs_cur with
  | Some ir, Some ic => Some (zip ir ic)
  | _, _ => None
  end.

(** The bootstrap condition in the words of the specification: the
    correspondences are absent or empty, or the store has no prior
    reference ids. *)
Definition bootstrap_case (idxs_ref idxs_cur : option (list Z))
    (s : TrackManager) : Prop :=
  correspondences idxs_ref idxs_cur = None
  ∨ correspondences idxs_ref idxs_cur = Some []
  ∨ ref_track_ids s = [].

(** The call takes the reconciliation path: detections are present and
    non-empty, and the bootstrap condition does not hold. *)
Definition reconciliation_case (c : call) (s : TrackManager) : Prop :=
  (∃ kps, c_kps_cur c = Some kps ∧ kps ≠ [])
  ∧ ¬ bootstrap_case (c_idxs_ref c) (c_idxs_cur c) s.

(** Example keypoints. *)
Definition kpA : keypoint := (10.5%float, 20%float).
Definition kpB : keypoint := (31%float, 7.25%float).
Definition kpC : keypoint := (12%float, 21.5%float).
Definition kpD : keypoint := (30%float, 8%float).
Definition kpE : keypoint := (55%float, 40%float).

(** The entry the export writes for a track. *)
Definition summarize (t : Track) : TrackSummary :=
  {| x_age := age t;
     x_first_frame := first_frame t;
     x_last_frame := last_frame t;
     num_observations := len (positions t);
     x_is_active := is_active t |}.

(** The [tracks] dictionary of the export, filled from [d0]. *)
Definition export_entries (trs : dict Z Track) (d0 : dict string TrackSummary)
    : dict string TrackSummary :=
  foldl (fun d kt => dict_set (pretty kt.1) (summarize kt.2) d) d0 trs.

(** A binary64 reference for the three reductions, to run examples:
    the mean is the sum divided by the count, the median the middle of
    the sorted list, the standard deviation the root of the mean squared
    deviation.  The sums are taken from left to right; numpy sums
    pairwise, so on longer lists its results can differ from these in
    the last place.  No property depends on the values of this
    instance: the theorems hold for every [Numpy]. *)
Definition float_of_Z (z : Z) : float :=
  if z <? 0 then (- PrimFloat.of_uint63 (Uint63.of_Z (- z)))%float
  else PrimFloat.of_uint63 (Uint63.of_Z z).

Definition float_mean (l : list float) : float :=
  (foldl PrimFloat.add 0 l / float_of_Z (len l))%float.

Definition reference_median (l : list Z) : float :=
  let sorted := sort_by id l in
  let n := length l in
  if Nat.even n then
    float_mean [float_of_Z (default 0 (sorted !! (n / 2 - 1)%nat));
                float_of_Z (default 0 (sorted !! (n / 2)%nat))]
  else float_of_Z (default 0 (sorted !! (n / 2)%nat)).

Definition reference_std (l : list Z) : float :=
  let xs := float_of_Z <$> l in
  let m := float_mean xs in
  PrimFloat.sqrt (float_mean ((fun x => ((x - m) * (x - m))%float) <$> xs)).

Definition reference_numpy : Numpy :=
  {| np_mean := fun l => float_mean (float_of_Z <$> l);
     np_median := reference_median;
     np_std := reference_std |}.

(** What [update] in frame [frame_id] does to the tracks, whether it
    returns or raises: a stored track gains observations and may be
    retired, and a track that appears is a new one of this frame. *)
Record fate (frame_id : Z) (s s' : TrackManager) : Prop := mkFate {
  fate_frame : current_frame s' = frame_id;
  fate_old :
    ∀ tid t, dict_get tid (tracks s) = Some t →
      ∃ obs (b : bool),
        dict_get tid (tracks s')
        = Some (if b then deactivate (observe frame_id t obs)
                else observe frame_id t obs);
  fate_new :
    ∀ tid t', dict_get tid (tracks s) = None →
      dict_get tid (tracks s') = Some t' → ∃ kp, t' = new_track frame_id kp
}.

(** Record [t'] is a later state of record [t]. *)
Definition extends (t t' : Track) : Prop :=
  first_frame t' = first_frame t
  ∧ age t ≤ age t'
  ∧ positions t `prefix_of` positions t'
  ∧ (is_active t = false → is_active t' = false).

(** Frame ids never decrease along the history. *)
Definition frames_ordered (cs : list call) : Prop :=
  ∀ (i j : nat) ci cj,
    (i ≤ j)%nat → cs !! i = Some ci → cs !! j = Some cj →
    c_frame_id ci ≤ c_frame_id cj.

(** The tuple [get_tracks_for_visualization] builds for a track. *)
Definition vis_tuple (kt : Z * Track) : Z * Z * Z * Z :=
  (kt.1, first_frame kt.2, last_frame kt.2, age kt.2).

(** Frame ids strictly increase along the history. *)
Definition frames_increasing (cs : list call) : Prop :=
  ∀ (i j : nat) ci cj,
    (i < j)%nat → cs !! i = Some ci → cs !! j = Some cj →
    c_frame_id ci < c_frame_id cj.

(** The reference indices of a call name each reference keypoint at
    most once, by its position from the start of the list. *)
Definition one_to_one (c : call) : Prop :=
  match c_idxs_ref c with
  | Some ir => NoDup ir ∧ Forall (fun i => 0 ≤ i) ir
  | None => True
  end.

(** The list under construction after the loop that creates tracks:
    the slots still at [-1] receive the ids [n], [n + 1], ... from left
    to right. *)
Fixpoint fill_new (n : Z) (arr : list Z) : list Z :=
  match arr with
  | [] => []
  | x :: arr =>
      if x =? -1 then n :: fill_new (n + 1) arr else x :: fill_new n arr
  end.

(** The detections of the slots still at [-1], from left to right. *)
Fixpoint unmatched (kps : list keypoint) (arr : list Z) {struct arr}
    : list keypoint :=
  match arr, kps with
  | x :: arr, kp :: kps =>
      if x =? -1 then kp :: unmatched kps arr else unmatched kps arr
  | _, _ => []
  end.

(** The number of slots still at [-1]. *)
Definition holes (arr : list Z) : Z := len (filter (λ x, x = -1) arr).

(** * Properties *)

(** ** Dictionaries *)

Section dict_facts.
Context {K V : Type} `{EqDecision K}.
Implicit Types (k : K) (v : V) (d : dict K V).

Lemma dict_get_set_eq k v d : dict_get k (dict_set k v d) = Some v.
Proof.
  induction d as [|[k' v'] d IH]; simpl.
  - by rewrite decide_True.
  - destruct (decide (k = k')) as [->|Hne]; simpl.
    + by rewrite decide_True.
    + by rewrite decide_False.
Qed.

Lemma dict_get_set_ne k k' v d :
  k ≠ k' → dict_get k' (dict_set k v d) = dict_get k' d.
Proof.
  intros Hne. induction d as [|[k0 v0] d IH]; simpl.
  - rewrite decide_False; [done | congruence].
  - destruct (decide (k = k0)) as [->|Hk]; simpl.
    + rewrite !decide_False; [done | congruence | congruence].
    + by rewrite IH.
Qed.

Lemma dict_set_set k v v' d : dict_set k v (dict_set k v' d) = dict_set k v d.
Proof.
  induction d as [|[k0 v0] d IH]; simpl.
  - by rewrite decide_True.
  - destruct (decide (k = k0)) as [->|Hk]; simpl.
    + by rewrite decide_True.
    + rewrite decide_False by done. by rewrite IH.
Qed.

Lemma dict_get_None k d : dict_get k d = None ↔ k ∉ dict_keys d.
Proof.
  unfold dict_keys. induction d as [|[k' v'] d IH]; simpl.
  - split; [intros _; apply not_elem_of_nil | done].
  - rewrite not_elem_of_cons, <- IH.
    destruct (decide (k = k')); [split; [done | by intros [? _]] | tauto].
Qed.

Lemma dict_get_is_Some k d : is_Some (dict_get k d) ↔ k ∈ dict_keys d.
Proof.
  rewrite <- not_eq_None_Some, dict_get_None.
  destruct (decide (k ∈ dict_keys d)); naive_solver.
Qed.

Lemma dict_get_elem k v d : dict_get k d = Some v → (k, v) ∈ d.
Proof.
  induction d as [|[k' v'] d IH]; simpl; [done|].
  rewrite elem_of_cons.
  destruct (decide (k = k')) as [->|]; intros Hg.
  - injection Hg as ->. by left.
  - right; auto.
Qed.

Lemma dict_get_app k d d' :
  dict_get k (d ++ d') = from_option Some (dict_get k d') (dict_get k d).
Proof.
  induction d as [|[k' v'] d IH]; simpl; [done|].
  by destruct (decide (k = k')).
Qed.

Lemma dict_set_absent k v d : dict_get k d = None → dict_set k v d = d ++ [(k, v)].
Proof.
  induction d as [|[k' v'] d IH]; simpl; [done|].
  destruct (decide (k = k')); [done|]. intros Hg. by rewrite IH.
Qed.

Lemma dict_set_keys k v d :
  is_Some (dict_get k d) → dict_keys (dict_set k v d) = dict_keys d.
Proof.
  unfold dict_keys. induction d as [|[k' v'] d IH]; simpl.
  - by intros [? ?].
  - destruct (decide (k = k')) as [->|]; simpl; [done|].
    intros Hs. f_equal. by apply IH.
Qed.

Lemma dict_set_Forall (P : V → Prop) k v d :
  Forall (fun kv => P kv.2) d → P v → Forall (fun kv => P kv.2) (dict_set k v d).
Proof.
  intros Hd Hv. induction Hd as [|[k' v'] d Hkv Hd IH]; simpl.
  - by constructor.
  - destruct (decide (k = k')); constructor; auto.
Qed.

Lemma dict_get_Forall (P : V → Prop) k v d :
  Forall (fun kv => P kv.2) d → dict_get k d = Some v → P v.
Proof.
  intros Hd Hg. apply dict_get_elem in Hg.
  rewrite Forall_forall in Hd. apply (Hd (k, v) Hg).
Qed.
End dict_facts.

(** ** Track creation and the bootstrap path *)

Lemma len_nonneg {A : Type} (l : list A) : 0 ≤ len l.
Proof. unfold len. lia. Qed.

Lemma len_app {A : Type} (l k : list A) : len (l ++ k) = len l + len k.
Proof. unfold len. rewrite length_app. lia. Qed.

Lemma len_cons {A : Type} (x : A) (l : list A) : len (x :: l) = 1 + len l.
Proof. unfold len. simpl. lia. Qed.

Lemma well_numbered_lookup s tid :
  well_numbered s → is_Some (dict_get tid (tracks s)) ↔ 0 ≤ tid < next_track_id s.
Proof.
  intros [Hk _]. rewrite dict_get_is_Some, Hk, elem_of_seqZ. lia.
Qed.

Lemma well_numbered_next s :
  well_numbered s → dict_get (next_track_id s) (tracks s) = None.
Proof.
  intros Hw. apply eq_None_not_Some. rewrite (well_numbered_lookup _ _ Hw). lia.
Qed.

Lemma well_numbered_init : well_numbered __init__.
Proof. by split. Qed.

Lemma modify_track_run track_id f s t :
  dict_get track_id (tracks s) = Some t →
  modify_track track_id f s
  = (Ok tt, set_tracks (dict_set track_id (f t) (tracks s)) s).
Proof. intros Ht. unfold modify_track, bind, gets, modify. by rewrite Ht. Qed.

Lemma create_track_run kp frame_id s :
  well_numbered s →
  _create_track kp frame_id s
  = (Ok (next_track_id s),
     mkTrackManager (tracks s ++ [(next_track_id s, new_track frame_id kp)])
       (next_track_id s + 1) (current_frame s)
       (active_track_ids s) (ref_track_ids s)).
Proof.
  intros Hw. unfold _create_track, bind, gets, modify, ret, set_tracks; simpl.
  by rewrite (dict_set_absent _ _ _ (well_numbered_next s Hw)).
Qed.

Lemma well_numbered_push s t cf act ref :
  well_numbered s →
  well_numbered
    (mkTrackManager (tracks s ++ [(next_track_id s, t)]) (next_track_id s + 1)
       cf act ref).
Proof.
  intros [Hk Hn]. split; simpl.
  - unfold dict_keys in *. rewrite fmap_app, Hk. simpl.
    rewrite Hn. unfold len.
    replace (Z.of_nat (length (tracks s)) + 1)
      with (Z.of_nat (S (length (tracks s)))) by lia.
    by rewrite seqZ_S.
  - rewrite len_app, Hn. unfold len; simpl; lia.
Qed.

Lemma initialize_loop_run kps frame_id :
  ∀ s, well_numbered s →
    initialize_loop kps frame_id s
    = (Ok tt,
       mkTrackManager
         (tracks s ++ fresh_tracks (next_track_id s) frame_id kps)
         (next_track_id s + len kps) (current_frame s)
         (active_track_ids s ++ seqZ (next_track_id s) (len kps))
         (ref_track_ids s ++ seqZ (next_track_id s) (len kps))).
Proof.
  induction kps as [|kp kps IH]; intros s Hw.
  - destruct s. unfold fresh_tracks. simpl.
    by rewrite !app_nil_r, Z.add_0_r.
  - cbn [initialize_loop]. unfold bind at 1. rewrite (create_track_run _ _ _ Hw).
    unfold bind, modify, set_ref_track_ids, set_active_track_ids; simpl.
    rewrite IH by (by apply well_numbered_push). simpl.
    unfold fresh_tracks. rewrite len_cons.
    rewrite (seqZ_cons (next_track_id s)) by (pose proof (len_nonneg kps); lia).
    rewrite <- !app_assoc. simpl.
    replace (Z.pred (1 + len kps)) with (len kps) by lia.
    replace (Z.succ (next_track_id s)) with (next_track_id s + 1) by lia.
    do 2 f_equal. lia.
Qed.

(** ** The invariant of the store *)

Lemma Inv_init : Inv __init__.
Proof. split; [apply well_numbered_init | constructor | done | constructor]. Qed.

Lemma Inv_ref_range s tid :
  Inv s → tid ∈ ref_track_ids s → 0 ≤ tid < next_track_id s.
Proof.
  intros HI Hin. apply (well_numbered_lookup s tid (inv_numbered s HI)).
  pose proof (inv_ref s HI) as Hr. rewrite Forall_forall in Hr.
  destruct (Hr tid Hin) as (t & Ht & _). by exists t.
Qed.

Lemma Inv_ref_active s tid t :
  Inv s → tid ∈ ref_track_ids s → dict_get tid (tracks s) = Some t →
  is_active t = true.
Proof.
  intros HI Hin Hg. pose proof (inv_ref s HI) as Hr. rewrite Forall_forall in Hr.
  destruct (Hr tid Hin) as (t' & Ht' & Ha). congruence.
Qed.

(** ** Python indexing *)

Lemma py_index_lt n i k : py_index n i = Some k → (k < n)%nat.
Proof.
  unfold py_index. intros Hp.
  destruct (0 <=? i) eqn:H0, (i <? Z.of_nat n) eqn:H1; simpl in Hp;
    try (injection Hp as <-; lia);
    destruct (- Z.of_nat n <=? i) eqn:H2, (i <? 0) eqn:H3; simpl in Hp;
    try discriminate; injection Hp as <-; lia.
Qed.

Lemma py_index_in_range n i :
  0 ≤ i < Z.of_nat n → py_index n i = Some (Z.to_nat i).
Proof.
  intros Hi. unfold py_index.
  replace (0 <=? i) with true by lia. by replace (i <? Z.of_nat n) with true by lia.
Qed.

Lemma py_index_wrap n i :
  - Z.of_nat n ≤ i < 0 → py_index n i = Some (Z.to_nat (i + Z.of_nat n)).
Proof.
  intros Hi. unfold py_index.
  replace (0 <=? i) with false by lia. simpl.
  replace (- Z.of_nat n <=? i) with true by lia. by replace (i <? 0) with true by lia.
Qed.

Lemma py_index_below n i : i < - Z.of_nat n → py_index n i = None.
Proof.
  intros Hi. unfold py_index.
  replace (0 <=? i) with false by lia. simpl.
  by replace (- Z.of_nat n <=? i) with false by lia.
Qed.

Lemma list_elem_of_insert_inv {A : Type} (l : list A) (i : nat) (x y : A) :
  x ∈ <[i := y]> l → x = y ∨ x ∈ l.
Proof.
  rewrite list_elem_of_lookup. intros [j Hj].
  apply list_lookup_insert_Some in Hj as [(_ & -> & _)|[_ Hj]]; [by left|].
  right. by apply list_elem_of_lookup_2 in Hj.
Qed.

(** ** The effect of a correspondence pair *)

Lemma pair_effect_in_range ref kps idx_ref idx_cur tid (kp : keypoint) :
  0 ≤ idx_ref → 0 ≤ idx_cur →
  ref !! Z.to_nat idx_ref = Some tid → kps !! Z.to_nat idx_cur = Some kp →
  pair_effect_of ref kps (idx_ref, idx_cur) = Continues tid (Z.to_nat idx_cur) kp.
Proof.
  intros Hp Hc Hr Hk. unfold pair_effect_of. simpl.
  pose proof (lookup_lt_Some _ _ _ Hr). pose proof (lookup_lt_Some _ _ _ Hk).
  replace (idx_ref <? len ref) with true by (unfold len; lia).
  replace (idx_cur <? len kps) with true by (unfold len; lia). simpl.
  rewrite !py_index_in_range by lia. simpl. by rewrite Hr, Hk.
Qed.

Lemma pair_effect_nonneg ref kps idx_ref idx_cur :
  0 ≤ idx_ref → 0 ≤ idx_cur →
  pair_effect_of ref kps (idx_ref, idx_cur) ≠ Raises.
Proof.
  intros Hp Hc. unfold pair_effect_of. simpl.
  destruct (idx_ref <? len ref) eqn:H1; [|done].
  destruct (idx_cur <? len kps) eqn:H2; [|done]. simpl.
  unfold len in *. rewrite !py_index_in_range by lia. simpl.
  destruct (ref !! Z.to_nat idx_ref) eqn:Hr; [|apply lookup_ge_None in Hr; lia].
  destruct (kps !! Z.to_nat idx_cur) eqn:Hk; [done|apply lookup_ge_None in Hk; lia].
Qed.

(** A negative reference index no lower than [-len(ref)] passes the
    bounds test and is read from the end of the list; a lower one passes
    the test as well and raises. *)
Lemma pair_effect_wrap ref kps idx_ref idx_cur tid (kp : keypoint) :
  - len ref ≤ idx_ref < 0 → 0 ≤ idx_cur →
  ref !! Z.to_nat (idx_ref + len ref) = Some tid →
  kps !! Z.to_nat idx_cur = Some kp →
  pair_effect_of ref kps (idx_ref, idx_cur) = Continues tid (Z.to_nat idx_cur) kp.
Proof.
  intros Hp Hc Hr Hk. unfold pair_effect_of. simpl.
  pose proof (lookup_lt_Some _ _ _ Hk). unfold len in *.
  replace (idx_ref <? Z.of_nat (length ref)) with true by lia.
  replace (idx_cur <? Z.of_nat (length kps)) with true by lia. simpl.
  rewrite py_index_wrap by lia. rewrite py_index_in_range by lia.
  simpl. by rewrite Hr, Hk.
Qed.

Lemma pair_effect_below ref kps idx_ref idx_cur :
  idx_ref < - len ref → idx_cur < len kps →
  pair_effect_of ref kps (idx_ref, idx_cur) = Raises.
Proof.
  intros Hp Hc. unfold pair_effect_of. simpl. unfold len in *.
  replace (idx_ref <? Z.of_nat (length ref)) with true by lia.
  replace (idx_cur <? Z.of_nat (length kps)) with true by lia. simpl.
  by rewrite py_index_below by lia.
Qed.

Lemma pair_effect_continues ref kps pc tid slot kp :
  pair_effect_of ref kps pc = Continues tid slot kp →
  tid ∈ ref ∧ kps !! slot = Some kp.
Proof.
  unfold pair_effect_of.
  destruct ((pc.1 <? len ref) && (pc.2 <? len kps)); [|done].
  destruct (py_index (length ref) pc.1) as [p|]; [|done]. simpl.
  destruct (ref !! p) as [tid'|] eqn:Hp; [|done].
  destruct (py_index (length kps) pc.2) as [slot'|]; [|done].
  destruct (kps !! slot') as [kp'|] eqn:Hk; [|done].
  intros [= <- <- <-]. split; [|done]. by eapply list_elem_of_lookup_2.
Qed.

Lemma match_body_effect kps frame_id idx_ref idx_cur arr s :
  length arr = length kps →
  match_body kps frame_id idx_ref idx_cur arr s
  = match pair_effect_of (ref_track_ids s) kps (idx_ref, idx_cur) with
    | Skipped => (Ok arr, s)
    | Raises => (Raise IndexError, s)
    | Continues tid slot kp =>
        (Ok (<[slot := tid]> arr),
         match dict_get tid (tracks s) with
         | Some t =>
             set_tracks (dict_set tid (continue_track frame_id kp t) (tracks s)) s
         | None => s
         end)
    end.
Proof.
  intros Hlen. unfold match_body, pair_effect_of, getitem, setitem.
  unfold bind at 1, gets at 1. cbn [fst snd].
  destruct ((idx_ref <? len (ref_track_ids s)) && (idx_cur <? len kps)); [|done].
  destruct (py_index (length (ref_track_ids s)) idx_ref ≫= _) as [tid|]; [|done].
  unfold bind at 1, ret at 1. rewrite Hlen.
  destruct (py_index (length kps) idx_cur) as [slot|] eqn:Hslot; [|done].
  unfold bind at 1, ret at 1. unfold bind at 1, gets at 1.
  cbn [mbind option_bind].
  destruct (kps !! slot) as [kp|] eqn:Hkp.
  2:{ apply py_index_lt in Hslot. apply lookup_ge_None in Hkp. lia. }
  unfold dict_in. destruct (dict_get tid (tracks s)) as [t|] eqn:Ht; [|done].
  unfold bind at 1. rewrite (modify_track_run _ _ _ _ Ht).
  unfold bind at 1. erewrite modify_track_run by apply dict_get_set_eq.
  unfold bind at 1, ret at 1.
  unfold bind at 1. erewrite modify_track_run by apply dict_get_set_eq.
  unfold ret. cbn [set_tracks tracks next_track_id current_frame
                   active_track_ids ref_track_ids].
  by rewrite !dict_set_set.
Qed.

Lemma place_effect ref kps arr pc :
  place ref kps arr pc
  = match pair_effect_of ref kps pc with
    | Continues tid slot _ => <[slot := tid]> arr
    | _ => arr
    end.
Proof. done. Qed.

Lemma observations_cons ref kps pc pairs tid :
  observations ref kps (pc :: pairs) tid
  = match pair_effect_of ref kps pc with
    | Continues tid' _ kp =>
        if decide (tid' = tid) then kp :: observations ref kps pairs tid
        else observations ref kps pairs tid
    | _ => observations ref kps pairs tid
    end.
Proof.
  unfold observations. simpl.
  destruct (pair_effect_of ref kps pc) as [| |tid' slot kp]; [done | done |].
  by destruct (decide (tid' = tid)).
Qed.

Lemma match_loop_effect kps frame_id pairs :
  ∀ arr s arr1 s1,
    length arr = length kps →
    match_loop kps frame_id pairs arr s = (Ok arr1, s1) →
    arr1 = foldl (place (ref_track_ids s) kps) arr pairs
    ∧ ∀ tid,
        dict_get tid (tracks s1)
        = (fun t => observe frame_id t (observations (ref_track_ids s) kps pairs tid))
            <$> dict_get tid (tracks s).
Proof.
  induction pairs as [|[idx_ref idx_cur] pairs IH]; intros arr s arr1 s1 Hlen.
  - simpl. unfold ret. intros [= <- <-]. split; [done|].
    intros tid. by destruct (dict_get tid (tracks s)).
  - cbn [match_loop foldl]. unfold bind at 1.
    rewrite (match_body_effect _ _ _ _ _ _ Hlen), place_effect.
    destruct (pair_effect_of (ref_track_ids s) kps (idx_ref, idx_cur))
      as [| |tid0 slot kp] eqn:Heff.
    + intros Hrest. apply IH in Hrest as [-> Hget]; [|done]. split; [done|].
      intros tid. by rewrite observations_cons, Heff.
    + done.
    + intros Hrest. apply IH in Hrest as [-> Hget]; [|by rewrite length_insert].
      assert (ref_track_ids
                match dict_get tid0 (tracks s) with
                | Some t => set_tracks
                    (dict_set tid0 (continue_track frame_id kp t) (tracks s)) s
                | None => s
                end = ref_track_ids s) as Href
        by (by destruct (dict_get tid0 (tracks s))).
      rewrite Href in *. split; [done|].
      intros tid. rewrite Hget, observations_cons, Heff.
      destruct (decide (tid0 = tid)) as [<-|Hne].
      * destruct (dict_get tid0 (tracks s)) as [t|] eqn:Ht; simpl.
        -- by rewrite dict_get_set_eq.
        -- by rewrite Ht.
      * destruct (dict_get tid0 (tracks s)) as [t|] eqn:Ht; simpl; [|done].
        by rewrite dict_get_set_ne.
Qed.

Lemma match_loop_returns kps frame_id pairs :
  ∀ arr s,
    length arr = length kps →
    Forall (fun pc => pair_effect_of (ref_track_ids s) kps pc ≠ Raises) pairs →
    ∃ arr1 s1, match_loop kps frame_id pairs arr s = (Ok arr1, s1).
Proof.
  induction pairs as [|[idx_ref idx_cur] pairs IH]; intros arr s Hlen Hok.
  - by exists arr, s.
  - apply Forall_cons in Hok as [Hpc Hok].
    cbn [match_loop]. unfold bind at 1. rewrite (match_body_effect _ _ _ _ _ _ Hlen).
    destruct (pair_effect_of (ref_track_ids s) kps (idx_ref, idx_cur))
      as [| |tid0 slot kp] eqn:Heff; [by apply IH | done |].
    apply IH; [by rewrite length_insert|].
    by destruct (dict_get tid0 (tracks s)).
Qed.

Lemma observe_age frame_id obs :
  ∀ t, age (observe frame_id t obs) = age t + len obs.
Proof.
  induction obs as [|kp obs IH]; intros t; simpl.
  - unfold len. simpl. lia.
  - rewrite IH, len_cons. simpl. lia.
Qed.

Lemma observe_positions frame_id obs :
  ∀ t, positions (observe frame_id t obs)
       = positions t ++ ((fun kp : keypoint => (kp.1, kp.2)) <$> obs).
Proof.
  induction obs as [|kp obs IH]; intros t; simpl.
  - by rewrite app_nil_r.
  - rewrite IH. simpl. by rewrite <- app_assoc.
Qed.

Lemma observe_first_frame frame_id obs :
  ∀ t, first_frame (observe frame_id t obs) = first_frame t.
Proof. induction obs as [|kp obs IH]; intros t; simpl; [done|]. by rewrite IH. Qed.

Lemma observe_is_active frame_id obs :
  ∀ t, is_active (observe frame_id t obs) = is_active t.
Proof. induction obs as [|kp obs IH]; intros t; simpl; [done|]. by rewrite IH. Qed.

Lemma observe_last_frame frame_id obs :
  ∀ t, last_frame (observe frame_id t obs)
       = match obs with [] => last_frame t | _ => frame_id end.
Proof.
  induction obs as [|kp obs IH]; intros t; simpl; [done|].
  rewrite IH. by destruct obs.
Qed.

(** ** The matching loop *)

Lemma aged_refl s : aged s s.
Proof. by split. Qed.

Lemma aged_trans s1 s2 s3 : aged s1 s2 → aged s2 s3 → aged s1 s3.
Proof.
  intros [] []. split; try congruence; auto.
  - intros tid Hn. rewrite aged_other1 by congruence. auto.
Qed.

Lemma consistent_continue frame_id kp t :
  consistent t → consistent (continue_track frame_id kp t).
Proof. unfold consistent. simpl. rewrite len_app. intros ->. by unfold len. Qed.

Lemma aged_continue s tid t frame_id kp :
  tid ∈ ref_track_ids s → dict_get tid (tracks s) = Some t →
  aged s (set_tracks (dict_set tid (continue_track frame_id kp t) (tracks s)) s).
Proof.
  intros Hin Hg. split; simpl; try done.
  - by apply dict_set_keys.
  - intros tid' Hn. apply dict_get_set_ne. intros ->. done.
  - intros tid'. destruct (decide (tid = tid')) as [<-|Hne].
    + by rewrite dict_get_set_eq, Hg.
    + by rewrite dict_get_set_ne.
  - intros Hc. apply (dict_set_Forall consistent); [done|].
    apply consistent_continue. by apply (dict_get_Forall consistent tid t (tracks s)).
Qed.

Lemma match_body_aged kps frame_id idx_ref idx_cur arr s o s1 :
  length arr = length kps →
  match_body kps frame_id idx_ref idx_cur arr s = (o, s1) →
  aged s s1
  ∧ ∀ arr1, o = Ok arr1 →
      length arr1 = length arr ∧ ∀ x, x ∈ arr1 → x ∈ arr ∨ x ∈ ref_track_ids s.
Proof.
  intros Hlen. rewrite (match_body_effect _ _ _ _ _ _ Hlen).
  destruct (pair_effect_of (ref_track_ids s) kps (idx_ref, idx_cur))
    as [| |tid slot kp] eqn:Heff.
  - intros [= <- <-]. split; [apply aged_refl|]. intros ? [= <-]. auto.
  - intros [= <- <-]. split; [apply aged_refl|]. done.
  - apply pair_effect_continues in Heff as [Hin _].
    intros [= <- <-]. split.
    + destruct (dict_get tid (tracks s)) as [t|] eqn:Ht;
        [by apply aged_continue | apply aged_refl].
    + intros ? [= <-]. split; [by rewrite length_insert|].
      intros x Hx. apply list_elem_of_insert_inv in Hx as [->|]; auto.
Qed.

Lemma match_loop_aged kps frame_id pairs :
  ∀ arr s o s1,
    length arr = length kps →
    match_loop kps frame_id pairs arr s = (o, s1) →
    aged s s1
    ∧ ∀ arr1, o = Ok arr1 →
        length arr1 = length arr ∧ ∀ x, x ∈ arr1 → x ∈ arr ∨ x ∈ ref_track_ids s.
Proof.
  induction pairs as [|[idx_ref idx_cur] pairs IH]; intros arr s o s1 Hlen; simpl.
  - unfold ret. intros [= <- <-]. split; [apply aged_refl|]. intros ? [= <-]. auto.
  - unfold bind at 1.
    destruct (match_body kps frame_id idx_ref idx_cur arr s) as [[arr0|e] s0] eqn:Hb;
      apply (match_body_aged _ _ _ _ _ _ _ _ Hlen) in Hb as [Ha Hb].
    + destruct (Hb arr0 eq_refl) as [Hl0 Hs0].
      intros Hrest. apply IH in Hrest as [Ha' Hr]; [|congruence].
      split; [by eapply aged_trans|].
      intros arr1 ->. destruct (Hr arr1 eq_refl) as [Hl1 Hs1].
      split; [congruence|]. intros x Hx.
      destruct (Hs1 x Hx) as [Hx0|Hx0]; [auto|].
      right. by rewrite <- (aged_ref _ _ Ha).
    + intros [= <- <-]. split; [done|]. done.
Qed.

(** ** Allocation of new tracks *)

Lemma fresh_tracks_cons n0 frame_id kp kps :
  fresh_tracks n0 frame_id (kp :: kps)
  = (n0, new_track frame_id kp) :: fresh_tracks (n0 + 1) frame_id kps.
Proof.
  unfold fresh_tracks. rewrite len_cons.
  rewrite seqZ_cons by (pose proof (len_nonneg kps); lia). simpl.
  replace (Z.pred (1 + len kps)) with (len kps) by lia.
  by replace (Z.succ n0) with (n0 + 1) by lia.
Qed.

Lemma fresh_tracks_keys n0 frame_id kps :
  dict_keys (fresh_tracks n0 frame_id kps) = seqZ n0 (len kps).
Proof.
  unfold dict_keys, fresh_tracks. apply fst_zip.
  rewrite length_seqZ, length_fmap. unfold len. lia.
Qed.

Lemma fresh_tracks_length n0 frame_id kps :
  length (fresh_tracks n0 frame_id kps) = length kps.
Proof.
  revert n0. induction kps as [|kp kps IH]; intros n0; [done|].
  rewrite fresh_tracks_cons. simpl. by rewrite IH.
Qed.

Lemma fresh_tracks_len n0 frame_id kps :
  len (fresh_tracks n0 frame_id kps) = len kps.
Proof. unfold len. by rewrite fresh_tracks_length. Qed.

Lemma fresh_tracks_get n0 frame_id kps (i : nat) :
  dict_get (n0 + Z.of_nat i) (fresh_tracks n0 frame_id kps)
  = new_track frame_id <$> kps !! i.
Proof.
  revert n0 i. induction kps as [|kp kps IH]; intros n0 i; [done|].
  rewrite fresh_tracks_cons. cbn [dict_get]. destruct i as [|i].
  - rewrite decide_True by lia. done.
  - rewrite decide_False by lia.
    change ((kp :: kps) !! S i) with (kps !! i).
    rewrite <- (IH (n0 + 1) i). f_equal. lia.
Qed.

Lemma fresh_tracks_Forall (P : Track → Prop) n0 frame_id kps :
  (∀ kp, P (new_track frame_id kp)) →
  Forall (fun kt => P kt.2) (fresh_tracks n0 frame_id kps).
Proof.
  intros HP. revert n0. induction kps as [|kp kps IH]; intros n0.
  - constructor.
  - rewrite fresh_tracks_cons. constructor; [apply HP | apply IH].
Qed.

Lemma well_numbered_allocate frame_id kps s :
  well_numbered s → well_numbered (allocate frame_id kps s).
Proof.
  intros [Hk Hn]. split; simpl.
  - unfold dict_keys in *. rewrite fmap_app, Hk.
    fold (dict_keys (fresh_tracks (next_track_id s) frame_id kps)).
    rewrite fresh_tracks_keys.
    rewrite (seqZ_app 0 (next_track_id s) (len kps));
      [done | rewrite Hn; apply len_nonneg | apply len_nonneg].
  - rewrite len_app, Hn. unfold len. by rewrite fresh_tracks_length.
Qed.

Lemma allocate_nil frame_id s : allocate frame_id [] s = s.
Proof.
  destruct s. unfold allocate, fresh_tracks. simpl.
  by rewrite app_nil_r, Z.add_0_r.
Qed.

Lemma allocate_cons frame_id kp kps s :
  allocate frame_id (kp :: kps) s
  = allocate frame_id kps
      (mkTrackManager (tracks s ++ [(next_track_id s, new_track frame_id kp)])
         (next_track_id s + 1) (current_frame s)
         (active_track_ids s) (ref_track_ids s)).
Proof.
  unfold allocate. simpl. rewrite fresh_tracks_cons, <- app_assoc, len_cons. simpl.
  f_equal. lia.
Qed.

(** Tracks already present are found unchanged after an allocation. *)
Lemma allocate_get_old frame_id kps s tid :
  well_numbered s → tid < next_track_id s →
  dict_get tid (tracks (allocate frame_id kps s)) = dict_get tid (tracks s).
Proof.
  intros Hw Hlt. simpl. rewrite dict_get_app.
  destruct (dict_get tid (tracks s)) as [t|] eqn:Ht; [done|]. simpl.
  apply dict_get_None. rewrite fresh_tracks_keys, elem_of_seqZ. lia.
Qed.

(** A newly allocated id holds a new track. *)
Lemma allocate_get_new frame_id kps s tid :
  well_numbered s → next_track_id s ≤ tid < next_track_id s + len kps →
  ∃ kp, dict_get tid (tracks (allocate frame_id kps s)) = Some (new_track frame_id kp).
Proof.
  intros Hw Hr. simpl. rewrite dict_get_app.
  assert (dict_get tid (tracks s) = None) as ->.
  { apply eq_None_not_Some. rewrite (well_numbered_lookup _ _ Hw). lia. }
  simpl. replace tid with (next_track_id s + Z.of_nat (Z.to_nat (tid - next_track_id s))) by lia.
  rewrite fresh_tracks_get.
  destruct (kps !! Z.to_nat (tid - next_track_id s)) as [kp|] eqn:Hkp; [by exists kp|].
  apply lookup_ge_None in Hkp. unfold len in Hr. lia.
Qed.

Lemma assign_loop_run kps frame_id idxs :
  ∀ arr s,
    well_numbered s → length arr = length kps →
    Forall (fun i => (i < length arr)%nat) idxs →
    ∃ arr' news,
      assign_loop kps frame_id idxs arr s = (Ok arr', allocate frame_id news s)
      ∧ length arr' = length arr
      ∧ (∀ j x, arr !! j = Some x → x ≠ -1 → arr' !! j = Some x)
      ∧ (∀ j x, arr' !! j = Some x →
           arr !! j = Some x
           ∨ next_track_id s ≤ x < next_track_id s + len news)
      ∧ (∀ j, j ∈ idxs → arr' !! j ≠ Some (-1)).
Proof.
  induction idxs as [|i idxs IH]; intros arr s Hw Hlen Hidx.
  - exists arr, []. rewrite allocate_nil. simpl. repeat split; auto.
    intros j Hj. by apply elem_of_nil in Hj.
  - apply Forall_cons in Hidx as [Hi Hidx]. simpl.
    destruct (arr !! i) as [x|] eqn:Hx; [|apply lookup_ge_None in Hx; lia].
    destruct (decide (x = -1)) as [->|Hne].
    + simpl. unfold bind at 1, getitem.
      rewrite py_index_in_range by lia. rewrite Nat2Z.id. simpl.
      destruct (kps !! i) as [kp|] eqn:Hkp; [|apply lookup_ge_None in Hkp; lia].
      unfold ret at 1. unfold bind at 1. rewrite (create_track_run _ _ _ Hw).
      set (s1 := mkTrackManager _ _ _ _ _).
      destruct (IH (<[i:=next_track_id s]> arr) s1) as (arr' & news & Hrun & Hl & Hkeep & Hsrc & Hdone).
      { by apply well_numbered_push. }
      { by rewrite length_insert. }
      { by rewrite length_insert. }
      exists arr', (kp :: news). rewrite allocate_cons. fold s1.
      pose proof (proj2 Hw) as Hn. pose proof (len_nonneg (tracks s)) as Hpos.
      split; [done|]. split; [by rewrite Hl, length_insert|].
      split; [|split].
      * intros j y Hj Hy. apply Hkeep; [|done].
        rewrite list_lookup_insert_ne; [done|]. intros ->. congruence.
      * intros j y Hj. rewrite len_cons. pose proof (len_nonneg news).
        destruct (Hsrc j y Hj) as [Hins|Hnew]; [|simpl in Hnew; right; lia].
        apply list_lookup_insert_Some in Hins as [(_ & <- & _)|[_ Hj0]];
          [right; lia | by left].
      * intros j Hj. apply elem_of_cons in Hj as [->|Hj]; [|by apply Hdone].
        rewrite (Hkeep i (next_track_id s)); [intros [=]; lia | | lia].
        by apply list_lookup_insert_eq.
    + replace (x =? -1) with false by lia.
      destruct (IH arr s Hw Hlen Hidx) as (arr' & news & Hrun & Hl & Hkeep & Hsrc & Hdone).
      exists arr', news. repeat split; auto.
      intros j Hj. apply elem_of_cons in Hj as [->|Hj]; [|by apply Hdone].
      rewrite (Hkeep i x Hx Hne). congruence.
Qed.

(** ** Loss detection *)

Lemma dict_keys_len {V : Type} (d d' : dict Z V) :
  dict_keys d = dict_keys d' → len d = len d'.
Proof.
  unfold dict_keys, len. intros Hk.
  by rewrite <- (length_fmap fst d), Hk, length_fmap.
Qed.

Lemma retire_body_run track_id s :
  ∃ s', retire_body track_id s = (Ok tt, s') ∧ retired [track_id] s s'.
Proof.
  unfold retire_body, bind at 1, gets at 1, dict_in.
  assert (∀ tid, tid ∈ [track_id] ∧ tid ≠ -1 ↔ tid = track_id ∧ track_id ≠ -1) as Hone.
  { intros tid. rewrite list_elem_of_singleton.
    split; intros [Ht Hm]; subst; by split. }
  destruct (dict_get track_id (tracks s)) as [t|] eqn:Ht.
  - destruct (decide (track_id = -1)) as [->|Hne].
    + simpl. exists s. split; [done|]. split; try done.
      intros tid. rewrite decide_False; [done|]. rewrite Hone. by intros [_ ?].
    + replace (track_id =? -1) with false by lia. cbn [negb andb].
      rewrite (modify_track_run _ _ _ _ Ht).
      eexists. split; [done|].
      assert (dict_keys (dict_set track_id (deactivate t) (tracks s))
              = dict_keys (tracks s)) as Hk by (by apply dict_set_keys).
      split; simpl; try done.
      * by apply dict_keys_len.
      * intros tid. destruct (decide (tid = track_id)) as [->|Hd].
        -- rewrite decide_True by (by apply Hone). by rewrite dict_get_set_eq, Ht.
        -- rewrite decide_False by (rewrite Hone; tauto).
           by rewrite dict_get_set_ne.
      * intros Hc. apply (dict_set_Forall consistent); [done|].
        apply (dict_get_Forall consistent _ _ _ Hc Ht).
  - simpl. exists s. split; [done|]. split; try done.
    intros tid. case_decide as Hd; [|done].
    apply Hone in Hd as [-> _]. by rewrite Ht.
Qed.

Lemma retire_loop_run lost :
  ∀ s, ∃ s', retire_loop lost s = (Ok tt, s') ∧ retired lost s s'.
Proof.
  induction lost as [|x lost IH]; intros s.
  - exists s. by split.
  - destruct (retire_body_run x s) as (s0 & Hb & [H1 H2 H3 H4 H5 H6 H7 H8]).
    destruct (IH s0) as (s' & Hl & [G1 G2 G3 G4 G5 G6 G7 G8]).
    exists s'. simpl. unfold bind. rewrite Hb. split; [done|].
    split; try congruence; auto.
    intros tid. rewrite G7, H7.
    destruct (decide (tid = -1)) as [->|Hne].
    { rewrite !decide_False; [done | tauto | tauto | tauto]. }
    destruct (decide (tid ∈ lost)) as [Hin|Hnin], (decide (tid = x)) as [->|Hx].
    + rewrite !decide_True; [|split; [apply elem_of_cons; auto|done]
                           |split; [apply list_elem_of_singleton; auto|done]|done].
      by destruct (dict_get x (tracks s)).
    + rewrite (decide_True _ _ (conj Hin Hne)).
      rewrite decide_False by (rewrite list_elem_of_singleton; tauto).
      rewrite decide_True; [done|]. split; [apply elem_of_cons; auto|done].
    + rewrite (decide_False (P := x ∈ lost ∧ _)) by tauto.
      rewrite !decide_True; [done | split; [apply elem_of_cons; auto|done]
                             | split; [by apply list_elem_of_singleton|done]].
    + rewrite !decide_False; [done | | | tauto].
      * rewrite elem_of_cons. tauto.
      * rewrite list_elem_of_singleton. tauto.
Qed.

Lemma lost_track_ids_spec ref new tid :
  tid ∈ lost_track_ids ref new ↔ tid ∈ ref ∧ tid ∉ new.
Proof.
  unfold lost_track_ids.
  by rewrite elem_of_elements, elem_of_difference, !elem_of_list_to_set.
Qed.

Lemma lost_track_ids_NoDup ref new : NoDup (lost_track_ids ref new).
Proof. apply NoDup_elements. Qed.

(** ** One call of [update] *)

Lemma well_numbered_same s s' :
  next_track_id s' = next_track_id s →
  dict_keys (tracks s') = dict_keys (tracks s) →
  well_numbered s → well_numbered s'.
Proof.
  intros Hn Hk [Hw1 Hw2]. split; [congruence|].
  rewrite Hn, Hw2. symmetry. by apply dict_keys_len.
Qed.

Lemma Inv_aged s s' : Inv s → aged s s' → Inv s'.
Proof.
  intros [Hw Hr Ha Hc] Hag. split.
  - apply (well_numbered_same s); [apply Hag | apply Hag | done].
  - rewrite (aged_ref _ _ Hag). rewrite Forall_forall in *. intros tid Hin.
    destruct (Hr tid Hin) as (t & Ht & Hact).
    pose proof (aged_flag _ _ Hag tid) as Hf. rewrite Ht in Hf. simpl in Hf.
    destruct (dict_get tid (tracks s')) as [t'|]; [|done].
    exists t'. split; [done|]. simpl in Hf. congruence.
  - by rewrite (aged_ref _ _ Hag), (aged_active _ _ Hag).
  - by apply (aged_consistent _ _ Hag).
Qed.

Lemma Inv_set_current_frame frame_id s : Inv s → Inv (set_current_frame frame_id s).
Proof. by intros []. Qed.

Lemma consistent_new frame_id kp : consistent (new_track frame_id kp).
Proof. done. Qed.

(** The result of the three loops of the reconciliation path, when the
    matching loop raises and when it does not. *)
Lemma reconcile_run idxs_ref idxs_cur kps frame_id s o s' :
  Inv s →
  reconcile idxs_ref idxs_cur kps frame_id s = (o, s') →
  (∃ e, o = Raise e
     ∧ match_loop kps frame_id (zip idxs_ref idxs_cur)
                  (replicate (length kps) (-1)) s = (Raise e, s')
     ∧ aged s s')
  ∨ (o = Ok tt ∧ ∃ s1 arr1 arr2 news s3,
       match_loop kps frame_id (zip idxs_ref idxs_cur)
                  (replicate (length kps) (-1)) s = (Ok arr1, s1)
       ∧ aged s s1
       ∧ assign_loop kps frame_id (seq 0 (length arr1)) arr1 s1
         = (Ok arr2, allocate frame_id news s1)
       ∧ length arr2 = length kps
       ∧ (∀ x, x ∈ arr2 →
            (x ∈ ref_track_ids s ∧ x ∈ arr1)
            ∨ next_track_id s ≤ x < next_track_id s + len news)
       ∧ (∀ j x, arr1 !! j = Some x → x ≠ -1 → arr2 !! j = Some x)
       ∧ (∀ j x, arr2 !! j = Some x →
            arr1 !! j = Some x
            ∨ next_track_id s ≤ x < next_track_id s + len news)
       ∧ ((-1 : Z) ∉ arr2)
       ∧ retired (lost_track_ids (ref_track_ids s) arr2) (allocate frame_id news s1) s3
       ∧ s' = set_active_track_ids (filter (λ tid, tid ≠ -1) arr2)
                (set_ref_track_ids arr2 s3)).
Proof.
  intros HI. unfold reconcile. unfold bind at 1.
  destruct (match_loop kps frame_id (zip idxs_ref idxs_cur)
              (replicate (length kps) (-1)) s) as [[arr1|e] s1] eqn:Hm.
  2:{ intros [= <- <-]. left. exists e. split; [done|]. split; [done|].
      eapply match_loop_aged; [|exact Hm]. by rewrite length_replicate. }
  destruct (match_loop_aged _ _ _ _ _ _ _ (length_replicate _ _) Hm) as [Hag Harr].
  destruct (Harr arr1 eq_refl) as [Hl1 Hsrc1]. rewrite length_replicate in Hl1.
  assert (well_numbered s1) as Hw1.
  { apply (well_numbered_same s); [apply Hag | apply Hag | apply HI]. }
  destruct (assign_loop_run kps frame_id (seq 0 (length arr1)) arr1 s1 Hw1 Hl1)
    as (arr2 & news & Has & Hl2 & Hkeep & Hsrc2 & Hdone).
  { apply Forall_forall. intros i Hi. apply elem_of_seq in Hi. lia. }
  unfold bind at 1. rewrite Has. unfold bind at 1, gets at 1.
  cbn [allocate ref_track_ids]. rewrite (aged_ref _ _ Hag).
  destruct (retire_loop_run (lost_track_ids (ref_track_ids s) arr2)
              (allocate frame_id news s1)) as (s3 & Hr & Hret).
  unfold bind at 1. fold (allocate frame_id news s1). rewrite Hr.
  unfold bind, modify. intros [= <- <-]. right. split; [done|].
  exists s1, arr1, arr2, news, s3.
  assert (∀ j, (j < length arr1)%nat → arr2 !! j ≠ Some (-1)) as Hfull.
  { intros j Hj. apply Hdone, elem_of_seq. lia. }
  split_and!; try done.
  - congruence.
  - intros x Hx. apply list_elem_of_lookup in Hx as [j Hj].
    destruct (Hsrc2 j x Hj) as [Hold|Hnew].
    + left. assert (x ∈ arr1) as Hx1 by (by eapply list_elem_of_lookup_2).
      split; [|done]. destruct (Hsrc1 x Hx1) as [Hrep|]; [|done].
      apply elem_of_replicate_inv in Hrep as ->.
      exfalso. apply (Hfull j); [by eapply lookup_lt_Some|done].
    + right. by rewrite <- (aged_next _ _ Hag).
  - intros j x Hj. rewrite <- (aged_next _ _ Hag). by apply Hsrc2.
  - intros Hin. apply list_elem_of_lookup in Hin as [j Hj].
    apply (Hfull j); [|done]. rewrite <- Hl2. by eapply lookup_lt_Some.
Qed.

Lemma stepped_aged s s' : Inv s → aged s s' → stepped s s'.
Proof.
  intros HI Hag. split.
  - by apply (Inv_aged s).
  - rewrite (aged_next _ _ Hag). lia.
  - intros tid. rewrite (aged_ref _ _ Hag). auto.
  - intros tid Hn _. by apply (aged_other _ _ Hag).
Qed.

Lemma Inv_reconciled frame_id s s1 (arr1 arr2 : list Z) news s3 :
  Inv s → aged s s1 →
  (∀ x, x ∈ arr2 →
     (x ∈ ref_track_ids s ∧ x ∈ arr1)
     ∨ next_track_id s ≤ x < next_track_id s + len news) →
  retired (lost_track_ids (ref_track_ids s) arr2) (allocate frame_id news s1) s3 →
  Inv (set_active_track_ids (filter (λ tid, tid ≠ -1) arr2)
         (set_ref_track_ids arr2 s3)).
Proof.
  intros HI Hag Hsrc Hret.
  pose proof (Inv_aged _ _ HI Hag) as HI1.
  pose proof (inv_numbered _ HI1) as Hw1.
  pose proof (aged_next _ _ Hag) as Hn1.
  split; simpl.
  - apply (well_numbered_same (allocate frame_id news s1));
      [apply Hret | apply Hret | by apply well_numbered_allocate].
  - apply Forall_forall. intros x Hx.
    rewrite (retired_get _ _ _ Hret).
    rewrite decide_False by (rewrite lost_track_ids_spec; tauto).
    destruct (Hsrc x Hx) as [[Hold _]|Hnew].
    + pose proof (Inv_ref_range _ _ HI Hold) as Hrange.
      rewrite allocate_get_old by (done || lia).
      pose proof (inv_ref _ HI1) as Hr. rewrite Forall_forall in Hr.
      apply Hr. by rewrite (aged_ref _ _ Hag).
    + destruct (allocate_get_new frame_id news s1 x Hw1) as [kp Hkp]; [lia|].
      exists (new_track frame_id kp). by split.
  - done.
  - apply (retired_consistent _ _ _ Hret). simpl. apply Forall_app. split.
    + apply (inv_age _ HI1).
    + apply (fresh_tracks_Forall consistent). apply consistent_new.
Qed.

Lemma reconcile_stepped idxs_ref idxs_cur kps frame_id s o s' :
  Inv s → reconcile idxs_ref idxs_cur kps frame_id s = (o, s') → stepped s s'.
Proof.
  intros HI Hrun.
  destruct (reconcile_run _ _ _ _ _ _ _ HI Hrun)
    as [(e & -> & _ & Hag)
       |(-> & s1 & arr1 & arr2 & news & s3 & Hm & Hag & Has & Hl & Hsrc & Hkeep & _ & Hfull & Hret & ->)].
  { by apply stepped_aged. }
  pose proof (inv_numbered _ (Inv_aged _ _ HI Hag)) as Hw1.
  pose proof (aged_next _ _ Hag) as Hn1.
  split.
  - by eapply Inv_reconciled.
  - simpl. rewrite (retired_next _ _ _ Hret). simpl.
    pose proof (len_nonneg news). lia.
  - simpl. intros tid Hin. destruct (Hsrc tid Hin) as [[? _]|?]; [by left | right; lia].
  - simpl. intros tid Hnr Hlt. rewrite (retired_get _ _ _ Hret).
    rewrite decide_False by (rewrite lost_track_ids_spec; tauto).
    rewrite allocate_get_old by (done || lia).
    by apply (aged_other _ _ Hag).
Qed.

(** A track that leaves the reference list on the reconciliation path
    is in the lost set, and its flag is off when the call returns. *)
Lemma reconcile_retires idxs_ref idxs_cur kps frame_id s s' tid :
  Inv s → reconcile idxs_ref idxs_cur kps frame_id s = (Ok tt, s') →
  tid ∈ ref_track_ids s → tid ∉ ref_track_ids s' →
  tid ∈ lost_track_ids (ref_track_ids s) (ref_track_ids s')
  ∧ ∃ t, dict_get tid (tracks s') = Some t ∧ is_active t = false.
Proof.
  intros HI Hrun Hin Hout.
  destruct (reconcile_run _ _ _ _ _ _ _ HI Hrun)
    as [(e & [=] & _)
       |(_ & s1 & arr1 & arr2 & news & s3 & Hm & Hag & Has & Hl & Hsrc & Hkeep & _ & Hfull & Hret & ->)].
  simpl in *.
  assert (tid ∈ lost_track_ids (ref_track_ids s) arr2) as Hlost
    by (by apply lost_track_ids_spec).
  split; [done|].
  pose proof (Inv_ref_range _ _ HI Hin) as Hrange.
  pose proof (inv_numbered _ (Inv_aged _ _ HI Hag)) as Hw1.
  pose proof (aged_next _ _ Hag) as Hn1.
  rewrite (retired_get _ _ _ Hret).
  rewrite decide_True by (split; [done | lia]).
  rewrite allocate_get_old by (done || lia).
  destruct (proj2 (well_numbered_lookup s1 tid Hw1)) as [t Ht]; [lia|].
  rewrite Ht. by exists (deactivate t).
Qed.

Lemma initialize_tracks_run kps frame_id s :
  well_numbered s →
  _initialize_tracks kps frame_id s
  = (Ok tt,
     mkTrackManager
       (tracks s ++ fresh_tracks (next_track_id s) frame_id kps)
       (next_track_id s + len kps) (current_frame s)
       (seqZ (next_track_id s) (len kps))
       (seqZ (next_track_id s) (len kps))).
Proof.
  intros Hw. unfold _initialize_tracks, bind, modify. simpl.
  rewrite initialize_loop_run by done. done.
Qed.

Lemma filter_sentinel_free (l : list Z) :
  (-1 : Z) ∉ l → filter (λ tid, tid ≠ -1) l = l.
Proof.
  induction l as [|x l IH]; [done|]. rewrite not_elem_of_cons. intros [Hx Hl].
  rewrite filter_cons_True by congruence. by rewrite IH.
Qed.

Lemma initialize_tracks_stepped kps frame_id s :
  Inv s → stepped s (_initialize_tracks kps frame_id s).2.
Proof.
  intros HI. pose proof (inv_numbered _ HI) as Hw.
  rewrite (initialize_tracks_run _ _ _ Hw). simpl.
  pose proof (len_nonneg kps) as Hk.
  assert (0 ≤ next_track_id s) as H0.
  { rewrite (proj2 Hw). apply len_nonneg. }
  split; simpl.
  - split; simpl.
    + apply (well_numbered_allocate frame_id kps s Hw).
    + apply Forall_forall. intros x Hx. apply elem_of_seqZ in Hx.
      destruct (allocate_get_new frame_id kps s x Hw Hx) as [kp Hkp].
      exists (new_track frame_id kp). by split.
    + symmetry. apply filter_sentinel_free. rewrite elem_of_seqZ. lia.
    + apply Forall_app. split; [apply (inv_age _ HI)|].
      apply (fresh_tracks_Forall consistent). apply consistent_new.
  - lia.
  - intros tid Hin. apply elem_of_seqZ in Hin. right. lia.
  - intros tid _ Hlt. by apply (allocate_get_old frame_id kps s tid Hw).
Qed.

Lemma stepped_set_current_frame frame_id s s' :
  stepped (set_current_frame frame_id s) s' → stepped s s'.
Proof. by intros []. Qed.

Lemma stepped_refl s : Inv s → stepped s s.
Proof. intros HI. split; auto. lia. Qed.

Lemma update_stepped idxs_ref idxs_cur kps_cur frame_id s :
  Inv s → stepped s (update idxs_ref idxs_cur kps_cur frame_id s).2.
Proof.
  intros HI. apply (stepped_set_current_frame frame_id).
  apply (Inv_set_current_frame frame_id) in HI.
  unfold update, bind at 1, modify at 1.
  set (s0 := set_current_frame frame_id s) in *.
  destruct kps_cur as [kps|]; [|by apply stepped_refl].
  destruct (len kps =? 0); [by apply stepped_refl|].
  unfold bind at 1, gets at 1.
  destruct idxs_ref as [ir|]; [|by apply initialize_tracks_stepped].
  destruct idxs_cur as [ic|]; [|by apply initialize_tracks_stepped].
  destruct (len (ref_track_ids s0) =? 0); [by apply initialize_tracks_stepped|].
  destruct ((len ir =? 0) || (len ic =? 0)); [by apply initialize_tracks_stepped|].
  destruct (reconcile ir ic kps frame_id s0) as [o s'] eqn:Hrun.
  by apply (reconcile_stepped _ _ _ _ _ _ _ HI Hrun).
Qed.

Lemma Inv_replay cs : ∀ s, Inv s → Inv (replay cs s).
Proof.
  induction cs as [|c cs IH]; intros s HI; [done|].
  simpl. apply IH. apply update_stepped, HI.
Qed.

(** ** Which path a call takes *)

Lemma len_zero {A : Type} (l : list A) : (len l =? 0) = true ↔ l = [].
Proof.
  unfold len. destruct l; simpl; [done|].
  split; [lia | done].
Qed.

Lemma zip_nil_inv {A B : Type} (l : list A) (k : list B) :
  zip l k = [] ↔ l = [] ∨ k = [].
Proof. destruct l, k; simpl; split; try done; auto; intros [?|?]; done. Qed.

Lemma update_bootstrap idxs_ref idxs_cur kps frame_id s :
  kps ≠ [] → bootstrap_case idxs_ref idxs_cur s →
  update idxs_ref idxs_cur (Some kps) frame_id s
  = _initialize_tracks kps frame_id (set_current_frame frame_id s).
Proof.
  intros Hk Hb. unfold update, bind at 1, modify at 1.
  destruct (len kps =? 0) eqn:Hz; [by apply len_zero in Hz|].
  unfold bind at 1, gets at 1.
  destruct idxs_ref as [ir|]; [|done]. destruct idxs_cur as [ic|]; [|done].
  cbn [set_current_frame ref_track_ids].
  destruct (len (ref_track_ids s) =? 0) eqn:Hr; [done|].
  destruct ((len ir =? 0) || (len ic =? 0)) eqn:Hi; [done|].
  exfalso. apply orb_false_iff in Hi as [Hir Hic].
  destruct Hb as [Hb|[Hb|Hb]]; simpl in Hb.
  - done.
  - injection Hb as Hb. apply zip_nil_inv in Hb as [->| ->]; done.
  - apply len_zero in Hb. congruence.
Qed.

Lemma update_reconcile idxs_ref idxs_cur kps frame_id s :
  kps ≠ [] → ¬ bootstrap_case idxs_ref idxs_cur s →
  ∃ ir ic, idxs_ref = Some ir ∧ idxs_cur = Some ic
    ∧ update idxs_ref idxs_cur (Some kps) frame_id s
      = reconcile ir ic kps frame_id (set_current_frame frame_id s).
Proof.
  intros Hk Hb. unfold bootstrap_case in Hb.
  destruct idxs_ref as [ir|]; [|by destruct Hb; left].
  destruct idxs_cur as [ic|]; [|by destruct Hb; left].
  exists ir, ic. split; [done|]. split; [done|].
  unfold update, bind at 1, modify at 1.
  destruct (len kps =? 0) eqn:Hz; [by apply len_zero in Hz|].
  unfold bind at 1, gets at 1. cbn [set_current_frame ref_track_ids].
  destruct (len (ref_track_ids s) =? 0) eqn:Hr.
  { apply len_zero in Hr. destruct Hb. by right; right. }
  destruct (len ir =? 0) eqn:Hir.
  { apply len_zero in Hir as ->. destruct Hb. by right; left. }
  destruct (len ic =? 0) eqn:Hic; [|done].
  apply len_zero in Hic as ->. destruct Hb. right; left. simpl.
  f_equal. apply zip_nil_inv. by right.
Qed.

Lemma bootstrap_case_or_not idxs_ref idxs_cur s :
  bootstrap_case idxs_ref idxs_cur s ∨ ¬ bootstrap_case idxs_ref idxs_cur s.
Proof.
  unfold bootstrap_case.
  destruct (ref_track_ids s) as [|x r]; [by left; right; right|].
  destruct idxs_ref as [ir|]; [|by left; left].
  destruct idxs_cur as [ic|]; [|by left; left].
  simpl. destruct (zip ir ic) as [|pc l]; [by left; right; left|].
  right. by intros [|[|]].
Qed.

(** ** Histories *)

Lemma do_call_stepped s c : Inv s → stepped s (do_call s c).
Proof. apply update_stepped. Qed.

Lemma Inv_history cs : Inv (replay cs __init__).
Proof. apply Inv_replay, Inv_init. Qed.

(** A track outside the reference list stays outside it, and is never
    written again. *)
Lemma absent_forever tid cs :
  ∀ s, Inv s → tid ∉ ref_track_ids s → tid < next_track_id s →
    (tid ∉ ref_track_ids (replay cs s))
    ∧ dict_get tid (tracks (replay cs s)) = dict_get tid (tracks s).
Proof.
  induction cs as [|c cs IH]; intros s HI Hout Hlt; [done|].
  destruct (do_call_stepped s c HI) as [HI' Hnext Href Hother].
  simpl. destruct (IH (do_call s c) HI') as [Hout' Hget'].
  - intros Hin. destruct (Href tid Hin); [done | lia].
  - lia.
  - split; [done|]. rewrite Hget'. by apply Hother.
Qed.

Lemma count_NoDup (l : list Z) (x : Z) :
  NoDup l → x ∈ l → length (filter (λ y, y = x) l) = 1%nat.
Proof.
  induction 1 as [|y l Hy Hl IH]; intros Hin; [by apply elem_of_nil in Hin|].
  apply elem_of_cons in Hin as [<-|Hin].
  - rewrite filter_cons_True by done. simpl. f_equal.
    apply length_zero_iff_nil, elem_of_nil_inv. intros z Hz.
    apply list_elem_of_filter in Hz as [-> Hz]. done.
  - rewrite filter_cons_False; [by apply IH|]. intros ->. done.
Qed.

(** A frame without detections keeps the reference list of the frame
    before it, so the call after it takes the bootstrap path only if it
    would have taken it before. *)
Lemma empty_frame_keeps_reference idxs_ref idxs_cur frame_id s ir ic :
  bootstrap_case ir ic (update idxs_ref idxs_cur (Some []) frame_id s).2
  ↔ bootstrap_case ir ic s.
Proof. done. Qed.

(** C7: with an empty (or absent) detections sequence, [update] only
    records [frame_id] as [current_frame]: it returns normally, and the
    tracks, the id counter and both id lists are the ones before the call. *)
Theorem update_empty_detections :
  forall (idxs_ref idxs_cur : option (list Z)) (frame_id : Z) (s : TrackManager),
    update idxs_ref idxs_cur (Some []) frame_id s
      = (Ok tt, set_current_frame frame_id s)
    /\ update idxs_ref idxs_cur None frame_id s
      = (Ok tt, set_current_frame frame_id s)
    /\ tracks (set_current_frame frame_id s) = tracks s
    /\ next_track_id (set_current_frame frame_id s) = next_track_id s
    /\ ref_track_ids (set_current_frame frame_id s) = ref_track_ids s
    /\ active_track_ids (set_current_frame frame_id s) = active_track_ids s
    /\ current_frame (set_current_frame frame_id s) = frame_id.
Proof. intros. repeat split. Qed.

(** C10: a track whose [is_active] flag is off after some history of
    calls has exactly the same record ([age], [first_frame], [last_frame],
    [positions], [is_active]) after any further calls of [update],
    whatever their arguments and whether they return or raise. *)
Theorem retired_track_frozen (cs cs' : list call) (tid : Z) (t : Track) :
  dict_get tid (tracks (replay cs __init__)) = Some t →
  is_active t = false →
  dict_get tid (tracks (replay cs' (replay cs __init__))) = Some t.
Proof.
  intros Hget Hoff. pose proof (Inv_history cs) as HI.
  rewrite <- Hget. apply absent_forever; [done | |].
  - intros Hin. pose proof (Inv_ref_active _ _ _ HI Hin Hget). congruence.
  - apply (well_numbered_lookup _ _ (inv_numbered _ HI)). by exists t.
Qed.

Lemma retired_track_frozen_witness :
  dict_get 1
    (tracks (replay [Call (Some [5; -1]) (Some [0; 1]) (Some [kpE; kpA]) 2;
                     Call None None (Some [kpB]) 3]
               (replay [Call None None (Some [kpA; kpB]) 0;
                        Call (Some [0]) (Some [0]) (Some [kpC]) 1] __init__)))
  = Some {| age := 1; first_frame := 0; last_frame := 0;
            positions := [(31%float, 7.25%float)]; is_active := false |}.
Proof.
  apply (retired_track_frozen
           [Call None None (Some [kpA; kpB]) 0;
            Call (Some [0]) (Some [0]) (Some [kpC]) 1]
           [Call (Some [5; -1]) (Some [0; 1]) (Some [kpE; kpA]) 2;
            Call None None (Some [kpB]) 3]
           1).
  - vm_compute. reflexivity.
  - reflexivity.
Defined.

(** C1, as stated, fails: a call on the bootstrap path replaces the
    reference list and leaves the flag of the tracks that were in it on. *)
Lemma bootstrap_leaves_flag_on :
  let s := replay [Call None None (Some [kpA; kpB]) 0] __init__ in
  let s' := do_call s (Call None None (Some [kpC]) 1) in
  ¬ (∀ tid, tid ∈ ref_track_ids s → tid ∉ ref_track_ids s' →
       ∃ t, dict_get tid (tracks s') = Some t ∧ is_active t = false).
Proof.
  intros s s' Hclaim. destruct (Hclaim 0) as (t & Ht & Hoff).
  - vm_compute. apply elem_of_cons. by left.
  - vm_compute. intros Hin. apply list_elem_of_singleton in Hin. discriminate.
  - vm_compute in Ht. injection Ht as <-. discriminate.
Qed.

(** C1, amended: when a call of [update] takes the reconciliation path,
    every track id that is in the reference list before the call and not
    after it occurs exactly once in the lost set the retirement loop goes
    through, and its [is_active] flag is off when the call returns; when
    the call takes the bootstrap path the record of such a track is left
    as it was; and whichever path the call takes, such an id is in the
    reference list after no later call. *)
Theorem departed_track_retired (cs : list call) (c : call) (tid : Z) :
  let s := replay cs __init__ in
  let s' := do_call s c in
  tid ∈ ref_track_ids s → tid ∉ ref_track_ids s' →
  (∀ cs', tid ∉ ref_track_ids (replay cs' s'))
  ∧ (reconciliation_case c s →
       (∃ t, dict_get tid (tracks s') = Some t ∧ is_active t = false)
       ∧ length (filter (λ x, x = tid)
                   (lost_track_ids (ref_track_ids s) (ref_track_ids s'))) = 1%nat)
  ∧ (∀ kps, c_kps_cur c = Some kps → kps ≠ [] →
       bootstrap_case (c_idxs_ref c) (c_idxs_cur c) s →
       dict_get tid (tracks s') = dict_get tid (tracks s)).
Proof.
  intros s s' Hin Hout. pose proof (Inv_history cs) as HI. fold s in HI.
  destruct (do_call_stepped s c HI) as [HI' Hnext Href Hother]. fold s' in HI', Hnext, Href.
  pose proof (Inv_ref_range _ _ HI Hin) as Hrange.
  split; [|split].
  - intros cs'. apply absent_forever; [done | done | lia].
  - intros [(kps & Hkps & Hne) Hnb].
    destruct (update_reconcile _ _ kps (c_frame_id c) s Hne Hnb)
      as (ir & ic & Hir & Hic & Hupd).
    subst s'. unfold do_call in *. rewrite Hkps, Hupd in *.
    destruct (reconcile ir ic kps (c_frame_id c) (set_current_frame (c_frame_id c) s))
      as [[[]|e] s1] eqn:Hrun; simpl in *.
    + destruct (reconcile_retires _ _ _ _ _ _ tid
                  (Inv_set_current_frame (c_frame_id c) s HI) Hrun Hin Hout)
        as [Hlost Hflag].
      split; [done|]. apply count_NoDup; [apply lost_track_ids_NoDup | done].
    + destruct (reconcile_run _ _ _ _ _ _ _
                  (Inv_set_current_frame (c_frame_id c) s HI) Hrun)
        as [(e' & _ & _ & Hag)|([=] & _)].
      rewrite (aged_ref _ _ Hag) in Hout. done.
  - intros kps Hkps Hne Hb. subst s'. unfold do_call.
    rewrite Hkps, (update_bootstrap _ _ _ _ _ Hne Hb).
    rewrite initialize_tracks_run by apply (inv_numbered _ HI).
    apply (allocate_get_old (c_frame_id c) kps s tid (inv_numbered _ HI)). lia.
Qed.

Lemma departed_track_retired_witness :
  let s := replay [Call None None (Some [kpA; kpB]) 0] __init__ in
  let s' := do_call s (Call (Some [0]) (Some [0]) (Some [kpC]) 1) in
  (∀ cs', 1 ∉ ref_track_ids (replay cs' s'))
  ∧ (∃ t, dict_get 1 (tracks s') = Some t ∧ is_active t = false)
  ∧ length (filter (λ x, x = 1)
              (lost_track_ids (ref_track_ids s) (ref_track_ids s'))) = 1%nat.
Proof.
  intros s s'.
  destruct (departed_track_retired
              [Call None None (Some [kpA; kpB]) 0]
              (Call (Some [0]) (Some [0]) (Some [kpC]) 1) 1)
    as (Hnever & Hretired & _).
  - vm_compute. apply elem_of_cons. right. apply elem_of_cons. by left.
  - vm_compute. intros Hin. apply list_elem_of_singleton in Hin. discriminate.
  - split; [exact Hnever|]. apply Hretired. split.
    + exists [kpC]. by split.
    + intros [Hb|[Hb|Hb]]; vm_compute in Hb; discriminate.
Defined.

(** The reference list is empty after a call exactly when it was empty
    before it and the call brought no detections. *)
Lemma do_call_reference_empty s c :
  Inv s →
  ref_track_ids (do_call s c) = []
  ↔ ref_track_ids s = [] ∧ (c_kps_cur c = None ∨ c_kps_cur c = Some []).
Proof.
  intros HI. destruct c as [idxs_ref idxs_cur kps_cur frame_id]. unfold do_call.
  cbn [c_idxs_ref c_idxs_cur c_kps_cur c_frame_id].
  destruct kps_cur as [[|kp kps]|].
  - split; [intros Hr; split; [exact Hr | by right] | by intros [Hr _]].
  - assert (len (kp :: kps) ≠ 0) as Hlen
      by (rewrite len_cons; pose proof (len_nonneg kps); lia).
    assert (kp :: kps ≠ []) as Hne by done.
    split; [|by intros [_ [?|?]]]. intros Hr. exfalso.
    destruct (bootstrap_case_or_not idxs_ref idxs_cur s) as [Hb|Hnb].
    + rewrite (update_bootstrap _ _ _ frame_id _ Hne Hb) in Hr.
      rewrite initialize_tracks_run in Hr by apply (inv_numbered _ HI).
      cbn [snd ref_track_ids] in Hr. apply (f_equal length) in Hr.
      rewrite length_seqZ in Hr. unfold len in Hr, Hlen.
      cbn [length] in Hr, Hlen. lia.
    + destruct (update_reconcile _ _ (kp :: kps) frame_id s Hne Hnb)
        as (ir & ic & -> & -> & Heq).
      rewrite Heq in Hr. clear Heq.
      destruct (reconcile ir ic (kp :: kps) frame_id (set_current_frame frame_id s))
        as [o s'] eqn:Hrun.
      destruct (reconcile_run _ _ _ _ _ _ _ (Inv_set_current_frame frame_id s HI) Hrun)
        as [(e & _ & _ & Hag)
           |(_ & s1 & arr1 & arr2 & news & s3 & _ & _ & _ & Hl & _ & _ & _ & _ & _ & ->)].
      * cbn [snd] in Hr. rewrite (aged_ref _ _ Hag) in Hr.
        apply Hnb. by right; right.
      * cbn [snd set_active_track_ids set_ref_track_ids ref_track_ids] in Hr.
        rewrite Hr in Hl. done.
  - split; [intros Hr; split; [exact Hr | by left] | by intros [Hr _]].
Qed.

(** The store has no reference ids exactly as long as no frame with
    detections has been processed. *)
Lemma reference_empty_iff cs :
  ref_track_ids (replay cs __init__) = []
  ↔ Forall (fun c => c_kps_cur c = None ∨ c_kps_cur c = Some []) cs.
Proof.
  induction cs as [|c cs IH] using rev_ind; [done|].
  unfold replay. rewrite foldl_app. cbn [foldl]. fold (replay cs __init__).
  rewrite (do_call_reference_empty _ c (Inv_history cs)), IH, Forall_app.
  split.
  - intros [Hcs Hc]. split; [done|]. by constructor.
  - intros [Hcs Hc]. split; [done|]. by apply Forall_cons in Hc as [Hc _].
Qed.

(** C2, as stated, fails: after a frame with zero detections the store
    still has the reference ids of the frame before it, so a call with
    correspondences does not take the bootstrap path.  Here the
    detection continues track 0 instead of becoming a new track, and
    track 1 is retired. *)
Lemma empty_frame_then_reconciles :
  let s := replay [Call None None (Some [kpA; kpB]) 0;
                   Call (Some [0]) (Some [0]) (Some []) 1] __init__ in
  let s' := do_call s (Call (Some [0]) (Some [0]) (Some [kpC]) 2) in
  ref_track_ids s = [0; 1]
  ∧ update (Some [0]) (Some [0]) (Some [kpC]) 2 s = (Ok tt, s')
  ∧ next_track_id s' = next_track_id s
  ∧ ref_track_ids s' = [0]
  ∧ dict_get 0 (tracks s')
    = Some {| age := 2; first_frame := 0; last_frame := 2;
              positions := [(10.5%float, 20%float); (12%float, 21.5%float)];
              is_active := true |}
  ∧ dict_get 1 (tracks s')
    = Some {| age := 1; first_frame := 0; last_frame := 0;
              positions := [(31%float, 7.25%float)]; is_active := false |}.
Proof. vm_compute. split_and!; reflexivity. Qed.

(** C2, amended: on a non-empty detections sequence, [update] takes the
    bootstrap path exactly when the correspondences are absent or empty
    or the store has no prior reference ids.  The bootstrap path returns
    normally; detection [i] becomes the track with the unused id
    [next_track_id + i], with [age = 1], [is_active = true] and
    [first_frame = last_frame = frame_id]; both id lists become these ids
    in detection order; and every track already in the store keeps its
    record, so none is retired.  Otherwise the call runs the
    reconciliation.  A fresh object has no reference ids, so its first
    frame is a bootstrap; and the store has no prior reference ids
    exactly when no frame processed so far had detections: a frame with
    zero detections keeps the reference ids of the frames before it. *)
Theorem bootstrap_creates_tracks (cs : list call)
    (idxs_ref idxs_cur : option (list Z)) (kps : list keypoint) (frame_id : Z) :
  let s := replay cs __init__ in
  let n := next_track_id s in
  kps ≠ [] →
  (bootstrap_case idxs_ref idxs_cur s →
     ∃ s', update idxs_ref idxs_cur (Some kps) frame_id s = (Ok tt, s')
       ∧ ref_track_ids s' = seqZ n (len kps)
       ∧ active_track_ids s' = seqZ n (len kps)
       ∧ next_track_id s' = n + len kps
       ∧ current_frame s' = frame_id
       ∧ len (tracks s') = len (tracks s) + len kps
       ∧ (∀ (i : nat) (kp : keypoint), kps !! i = Some kp →
            dict_get (n + Z.of_nat i) (tracks s) = None
            ∧ dict_get (n + Z.of_nat i) (tracks s')
              = Some {| age := 1;
                        first_frame := frame_id;
                        last_frame := frame_id;
                        positions := [(kp.1, kp.2)];
                        is_active := true |})
       ∧ (∀ tid t, dict_get tid (tracks s) = Some t →
                   dict_get tid (tracks s') = Some t))
  ∧ (¬ bootstrap_case idxs_ref idxs_cur s →
     ∃ ir ic, idxs_ref = Some ir ∧ idxs_cur = Some ic
       ∧ update idxs_ref idxs_cur (Some kps) frame_id s
         = reconcile ir ic kps frame_id (set_current_frame frame_id s))
  ∧ bootstrap_case idxs_ref idxs_cur __init__
  ∧ (ref_track_ids s = []
     ↔ Forall (fun c => c_kps_cur c = None ∨ c_kps_cur c = Some []) cs)
  ∧ (∀ ir ic f,
       ref_track_ids (update ir ic (Some []) f s).2 = ref_track_ids s
       ∧ ref_track_ids (update ir ic None f s).2 = ref_track_ids s).
Proof.
  intros s n Hk. pose proof (Inv_history cs) as HI. fold s in HI.
  pose proof (inv_numbered _ HI) as Hw.
  split; [|split; [by apply update_reconcile
                  |split; [by right; right
                          |split; [apply reference_empty_iff | done]]]].
  intros Hb. rewrite (update_bootstrap _ _ _ _ _ Hk Hb).
  rewrite initialize_tracks_run by done.
  eexists. split; [reflexivity|]. cbn [ref_track_ids active_track_ids
    next_track_id current_frame tracks set_current_frame]. fold n.
  split_and!; try done.
  - by rewrite len_app, fresh_tracks_len.
  - intros i kp Hi. rewrite dict_get_app.
    assert (dict_get (n + Z.of_nat i) (tracks s) = None) as ->.
    { apply eq_None_not_Some. rewrite (well_numbered_lookup _ _ Hw). fold n. lia. }
    split; [done|]. simpl. by rewrite fresh_tracks_get, Hi.
  - intros tid t Ht. by rewrite dict_get_app, Ht.
Qed.

Lemma bootstrap_creates_tracks_witness :
  let s := replay [Call None None (Some [kpA; kpB]) 0] __init__ in
  ∃ s', update (Some []) (Some [0]) (Some [kpC; kpD]) 1 s = (Ok tt, s')
    ∧ ref_track_ids s' = [2; 3]
    ∧ dict_get 3 (tracks s')
      = Some {| age := 1; first_frame := 1; last_frame := 1;
                positions := [(30%float, 8%float)]; is_active := true |}
    ∧ dict_get 1 (tracks s')
      = Some {| age := 1; first_frame := 0; last_frame := 0;
                positions := [(31%float, 7.25%float)]; is_active := true |}.
Proof.
  intros s.
  destruct (bootstrap_creates_tracks [Call None None (Some [kpA; kpB]) 0]
              (Some []) (Some [0]) [kpC; kpD] 1) as (Hboot & _ & _); [done|].
  destruct Hboot as (s' & Hrun & Href & _ & _ & _ & _ & Hnew & Hold).
  { right. left. reflexivity. }
  exists s'. split; [exact Hrun|]. split; [exact Href|]. split.
  - apply (Hnew 1%nat kpD). reflexivity.
  - apply Hold. vm_compute. reflexivity.
Defined.

(** A pair with an index at or above the length it points into is
    skipped: the list under construction and the store are unchanged. *)
Lemma match_body_out_of_range kps frame_id idx_ref idx_cur arr s :
  len (ref_track_ids s) ≤ idx_ref ∨ len kps ≤ idx_cur →
  match_body kps frame_id idx_ref idx_cur arr s = (Ok arr, s).
Proof.
  intros Hout. unfold match_body, bind, gets; simpl.
  replace ((idx_ref <? len (ref_track_ids s)) && (idx_cur <? len kps))
    with false; [done|].
  symmetry. apply andb_false_iff. lia.
Qed.

(** C3: the bounds test of the matching loop checks the upper bound
    only.  On a store with reference ids [0; 1] and one detection:
    the pair [(2, 0)] is skipped and the detection becomes the new track
    [2]; but the pair [(-1, 0)] is taken as [(1, 0)], so that track [1] is
    continued and no track is created, and so is [(0, -1)] as [(0, 0)];
    and the pairs [(-3, 0)] and [(0, -2)] make the call raise
    [IndexError]. *)
Theorem negative_index_not_skipped :
  let s := replay [Call None None (Some [kpA; kpB]) 0] __init__ in
  let t0 := {| age := 1; first_frame := 0; last_frame := 0;
               positions := [(10.5%float, 20%float)]; is_active := true |} in
  let t1 := {| age := 1; first_frame := 0; last_frame := 0;
               positions := [(31%float, 7.25%float)]; is_active := true |} in
  s = mkTrackManager [(0, t0); (1, t1)] 2 0 [0; 1] [0; 1]
  ∧ update (Some [2]) (Some [0]) (Some [kpC]) 1 s
    = (Ok tt,
       mkTrackManager
         [(0, deactivate t0); (1, deactivate t1); (2, new_track 1 kpC)]
         3 1 [2] [2])
  ∧ update (Some [-1]) (Some [0]) (Some [kpC]) 1 s
    = (Ok tt,
       mkTrackManager
         [(0, deactivate t0); (1, continue_track 1 kpC t1)]
         2 1 [1] [1])
  ∧ update (Some [0]) (Some [-1]) (Some [kpC]) 1 s
    = (Ok tt,
       mkTrackManager
         [(0, continue_track 1 kpC t0); (1, deactivate t1)]
         2 1 [0] [0])
  ∧ update (Some [-3]) (Some [0]) (Some [kpC]) 1 s
    = (Raise IndexError, set_current_frame 1 s)
  ∧ update (Some [0]) (Some [-2]) (Some [kpC]) 1 s
    = (Raise IndexError, set_current_frame 1 s).
Proof. vm_compute. repeat split. Qed.

(** The store after a reconciliation that returns, in terms of the
    effects of the pairs. *)
Lemma reconcile_effect idxs_ref idxs_cur kps frame_id s s' :
  Inv s →
  reconcile idxs_ref idxs_cur kps frame_id s = (Ok tt, s') →
  let pairs := zip idxs_ref idxs_cur in
  let arr1 := foldl (place (ref_track_ids s) kps) (replicate (length kps) (-1)) pairs in
  length (ref_track_ids s') = length kps
  ∧ (∀ j x, arr1 !! j = Some x → x ≠ -1 → ref_track_ids s' !! j = Some x)
  ∧ (∀ j, arr1 !! j = Some (-1) →
       ∃ x kp, ref_track_ids s' !! j = Some x
         ∧ next_track_id s ≤ x < next_track_id s'
         ∧ dict_get x (tracks s') = Some (new_track frame_id kp))
  ∧ active_track_ids s' = filter (λ tid, tid ≠ -1) (ref_track_ids s')
  ∧ (∀ tid t, dict_get tid (tracks s) = Some t →
       dict_get tid (tracks s')
       = Some (let t1 := observe frame_id t
                           (observations (ref_track_ids s) kps pairs tid) in
               if decide (tid ∈ ref_track_ids s ∧ tid ∉ ref_track_ids s')
               then deactivate t1 else t1)).
Proof.
  intros HI Hrun pairs arr1.
  destruct (reconcile_run _ _ _ _ _ _ _ HI Hrun)
    as [(e & [=] & _)
       |(_ & s1 & arr1' & arr2 & news & s3 & Hm & Hag & Has & Hl & Hsrc & Hkeep
           & Hsrc2 & Hfull & Hret & ->)].
  destruct (match_loop_effect _ _ _ _ _ _ _ (length_replicate _ _) Hm) as [-> Hget1].
  fold pairs in Hget1, Hm, Has, Hkeep, Hsrc, Hsrc2. fold arr1 in Hm, Has, Hkeep, Hsrc, Hsrc2.
  pose proof (inv_numbered _ (Inv_aged _ _ HI Hag)) as Hw1.
  pose proof (aged_next _ _ Hag) as Hn1.
  cbn [set_active_track_ids set_ref_track_ids ref_track_ids active_track_ids
       tracks next_track_id].
  split_and!; try done.
  - intros j Hj.
    destruct (arr2 !! j) as [x|] eqn:Hx.
    2:{ apply lookup_ge_None in Hx. apply lookup_lt_Some in Hj.
        assert (length arr1 = length kps) as Hl1.
        { destruct (match_loop_aged _ _ _ _ _ _ _ (length_replicate _ _) Hm) as [_ Hlen].
          destruct (Hlen arr1 eq_refl) as [-> _]. apply length_replicate. }
        lia. }
    assert (next_track_id s ≤ x < next_track_id s + len news) as Hnew.
    { destruct (Hsrc2 j x Hx) as [Hold|]; [|done].
      rewrite Hj in Hold. injection Hold as <-.
      destruct Hfull. by eapply list_elem_of_lookup_2. }
    destruct (allocate_get_new frame_id news s1 x Hw1) as [kp Hkp]; [lia|].
    exists x, kp. split; [done|]. rewrite (retired_next _ _ _ Hret). simpl.
    split; [lia|]. rewrite (retired_get _ _ _ Hret).
    rewrite decide_False; [done|]. rewrite lost_track_ids_spec.
    intros [[_ Hnot] _]. apply Hnot. by eapply list_elem_of_lookup_2.
  - intros tid t Ht.
    assert (0 ≤ tid < next_track_id s) as Hrange.
    { apply (well_numbered_lookup _ _ (inv_numbered _ HI)). by exists t. }
    rewrite (retired_get _ _ _ Hret).
    rewrite allocate_get_old by (done || lia). rewrite Hget1, Ht. simpl.
    destruct (decide (tid ∈ ref_track_ids s ∧ tid ∉ arr2)) as [Hd|Hd].
    + rewrite decide_True; [done|]. rewrite lost_track_ids_spec. split; [done|lia].
    + rewrite decide_False; [done|]. rewrite lost_track_ids_spec. tauto.
Qed.

(** A call whose indices are all non-negative returns. *)
Lemma update_returns ir ic kps_cur frame_id s :
  Inv s → Forall (fun i => 0 ≤ i) ir → Forall (fun i => 0 ≤ i) ic →
  ∃ s', update (Some ir) (Some ic) kps_cur frame_id s = (Ok tt, s').
Proof.
  intros HI Hir Hic. unfold update, bind at 1, modify at 1.
  destruct kps_cur as [kps|]; [|by eexists].
  destruct (len kps =? 0); [by eexists|].
  unfold bind at 1, gets at 1.
  pose proof (inv_numbered _ (Inv_set_current_frame frame_id s HI)) as Hw.
  destruct (len (ref_track_ids (set_current_frame frame_id s)) =? 0).
  { rewrite initialize_tracks_run by done. by eexists. }
  destruct ((len ir =? 0) || (len ic =? 0)).
  { rewrite initialize_tracks_run by done. by eexists. }
  destruct (reconcile ir ic kps frame_id (set_current_frame frame_id s))
    as [o s'] eqn:Hrun.
  destruct (reconcile_run _ _ _ _ _ _ _ (Inv_set_current_frame frame_id s HI) Hrun)
    as [(e & -> & Hm & _)|(-> & _)]; [|by eexists].
  destruct (match_loop_returns kps frame_id (zip ir ic)
              (replicate (length kps) (-1)) (set_current_frame frame_id s))
    as (arr1 & s1 & Hok); [apply length_replicate | | congruence].
  apply Forall_forall. intros [p c] Hin.
  apply elem_of_zip_l in Hin as Hp. apply elem_of_zip_r in Hin as Hc.
  rewrite Forall_forall in Hir, Hic. apply pair_effect_nonneg; auto.
Qed.

(** C4: in the reconciliation case of [update], (1) the iteration of the
    matching loop on an in-range pair [(idx_ref, idx_cur)] writes
    [ref_track_ids[idx_ref]] into slot [idx_cur] of the list under
    construction, adds 1 to that track's [age], sets its [last_frame] to
    [frame_id] and appends the detection's position to its [positions];
    (2) when the call returns, each track has gained one observation per
    pair that continued it, the slots the pairs filled hold those ids in
    the new reference list, and [active_track_ids] is the reference list
    without sentinel entries, in the same order; (3) a call whose indices
    are non-negative returns; (4) with reference ids [5; 7], two
    detections, the pairs [(0, 1)] and [(1, 0)] and frame 10, both id
    lists become [7; 5], and both tracks have their age incremented by 1
    and [last_frame = 10]. *)
Theorem reconciliation_continues_tracks (cs : list call) :
  let s := replay cs __init__ in
  (∀ (kps : list keypoint) frame_id idx_ref idx_cur (arr : list Z) s0 tid t
     (kp : keypoint),
     length arr = length kps →
     0 ≤ idx_ref → 0 ≤ idx_cur →
     ref_track_ids s0 !! Z.to_nat idx_ref = Some tid →
     kps !! Z.to_nat idx_cur = Some kp →
     dict_get tid (tracks s0) = Some t →
     match_body kps frame_id idx_ref idx_cur arr s0
     = (Ok (<[Z.to_nat idx_cur := tid]> arr),
        set_tracks
          (dict_set tid
             {| age := age t + 1;
                first_frame := first_frame t;
                last_frame := frame_id;
                positions := positions t ++ [(kp.1, kp.2)];
                is_active := is_active t |}
             (tracks s0)) s0))
  ∧ (∀ ir ic (kps : list keypoint) frame_id s',
       kps ≠ [] → ¬ bootstrap_case (Some ir) (Some ic) s →
       update (Some ir) (Some ic) (Some kps) frame_id s = (Ok tt, s') →
       let pairs := zip ir ic in
       let arr := foldl (place (ref_track_ids s) kps)
                        (replicate (length kps) (-1)) pairs in
       length (ref_track_ids s') = length kps
       ∧ (∀ j x, arr !! j = Some x → x ≠ -1 → ref_track_ids s' !! j = Some x)
       ∧ active_track_ids s' = filter (λ tid, tid ≠ -1) (ref_track_ids s')
       ∧ (∀ tid t, dict_get tid (tracks s) = Some t →
            let obs := observations (ref_track_ids s) kps pairs tid in
            ∃ t', dict_get tid (tracks s') = Some t'
              ∧ age t' = age t + len obs
              ∧ positions t'
                = positions t ++ ((fun kp : keypoint => (kp.1, kp.2)) <$> obs)
              ∧ first_frame t' = first_frame t
              ∧ last_frame t'
                = match obs with [] => last_frame t | _ => frame_id end))
  ∧ (∀ ir ic kps_cur frame_id,
       Forall (fun i => 0 ≤ i) ir → Forall (fun i => 0 ≤ i) ic →
       ∃ s', update (Some ir) (Some ic) kps_cur frame_id s = (Ok tt, s'))
  ∧ (ref_track_ids s = [5; 7] →
     ∀ k0 k1 : keypoint,
       ∃ s', update (Some [0; 1]) (Some [1; 0]) (Some [k0; k1]) 10 s = (Ok tt, s')
         ∧ ref_track_ids s' = [7; 5]
         ∧ active_track_ids s' = [7; 5]
         ∧ ∀ tid, tid = 5 ∨ tid = 7 →
             ∃ t t', dict_get tid (tracks s) = Some t
               ∧ dict_get tid (tracks s') = Some t'
               ∧ age t' = age t + 1
               ∧ last_frame t' = 10).
Proof.
  intros s. pose proof (Inv_history cs) as HI. fold s in HI.
  assert (∀ ir ic (kps : list keypoint) frame_id s',
            kps ≠ [] → ¬ bootstrap_case (Some ir) (Some ic) s →
            update (Some ir) (Some ic) (Some kps) frame_id s = (Ok tt, s') →
            reconcile ir ic kps frame_id (set_current_frame frame_id s) = (Ok tt, s'))
    as Hpath.
  { intros ir ic kps frame_id s' Hk Hnb Hupd.
    destruct (update_reconcile _ _ kps frame_id s Hk Hnb)
      as (ir' & ic' & [= <-] & [= <-] & Heq). congruence. }
  split_and!.
  - intros kps frame_id idx_ref idx_cur arr s0 tid t kp Hlen Hp Hc Hr Hk Ht.
    rewrite (match_body_effect _ _ _ _ _ _ Hlen).
    by rewrite (pair_effect_in_range _ _ _ _ _ _ Hp Hc Hr Hk), Ht.
  - intros ir ic kps frame_id s' Hk Hnb Hupd pairs arr.
    apply Hpath in Hupd; [|done|done].
    destruct (reconcile_effect _ _ _ _ _ _
                (Inv_set_current_frame frame_id s HI) Hupd)
      as (Hlen & Hslots & _ & Hact & Htracks).
    split_and!; try done.
    intros tid t Ht obs. simpl in Htracks. rewrite (Htracks tid t Ht).
    fold pairs. fold obs. eexists. split; [reflexivity|].
    destruct (decide _); simpl;
      by rewrite observe_age, observe_positions, observe_first_frame,
                 observe_last_frame.
  - intros ir ic kps_cur frame_id Hir Hic. by apply update_returns.
  - intros Href k0 k1.
    destruct (update_returns [0; 1] [1; 0] (Some [k0; k1]) 10 s HI)
      as [s' Hupd]; [repeat constructor; lia | repeat constructor; lia |].
    exists s'. split; [done|].
    assert (¬ bootstrap_case (Some [0; 1]) (Some [1; 0]) s) as Hnb.
    { intros [Hb|[Hb|Hb]]; [done | done | congruence]. }
    apply Hpath in Hupd; [|done|done].
    destruct (reconcile_effect _ _ _ _ _ _
                (Inv_set_current_frame 10 s HI) Hupd)
      as (Hlen & Hslots & _ & Hact & Htracks).
    simpl in Hlen, Hslots, Hact, Htracks. rewrite Href in Hslots, Htracks.
    assert (ref_track_ids s' = [7; 5]) as Href'.
    { pose proof (Hslots 0%nat 7 eq_refl ltac:(lia)) as H0.
      pose proof (Hslots 1%nat 5 eq_refl ltac:(lia)) as H1.
      destruct (ref_track_ids s') as [|a [|b [|c l]]]; simpl in Hlen; try lia.
      simpl in H0, H1. congruence. }
    split; [done|]. split; [by rewrite Hact, Href'|].
    pose proof (inv_ref _ HI) as Hr. rewrite Href in Hr.
    apply Forall_cons in Hr as [(t5 & Ht5 & _) Hr].
    apply Forall_cons in Hr as [(t7 & Ht7 & _) _].
    intros tid [-> | ->].
    + exists t5. eexists. split; [done|]. split; [by apply Htracks|].
      split; by destruct (decide _).
    + exists t7. eexists. split; [done|]. split; [by apply Htracks|].
      split; by destruct (decide _).
Qed.

Lemma reconciliation_continues_tracks_witness :
  let s := replay [Call None None (Some [kpA; kpB; kpC; kpD; kpE]) 0;
                   Call None None (Some [kpA; kpB; kpC]) 1;
                   Call (Some [0; 2]) (Some [0; 1]) (Some [kpA; kpC]) 2] __init__ in
  ∃ s', update (Some [0; 1]) (Some [1; 0]) (Some [kpD; kpE]) 10 s = (Ok tt, s')
    ∧ ref_track_ids s' = [7; 5]
    ∧ active_track_ids s' = [7; 5]
    ∧ ∀ tid, tid = 5 ∨ tid = 7 →
        ∃ t t', dict_get tid (tracks s) = Some t
          ∧ dict_get tid (tracks s') = Some t'
          ∧ age t' = age t + 1
          ∧ last_frame t' = 10.
Proof.
  intros s.
  destruct (reconciliation_continues_tracks
              [Call None None (Some [kpA; kpB; kpC; kpD; kpE]) 0;
               Call None None (Some [kpA; kpB; kpC]) 1;
               Call (Some [0; 2]) (Some [0; 1]) (Some [kpA; kpC]) 2])
    as (_ & _ & _ & Hexample).
  apply Hexample. vm_compute. reflexivity.
Defined.

(** ** Queries *)

Lemma export_entries_Forall (P : TrackSummary → Prop) trs :
  ∀ d0, Forall (fun kx => P kx.2) d0 →
        Forall (fun kt => P (summarize kt.2)) trs →
        Forall (fun kx => P kx.2) (export_entries trs d0).
Proof.
  induction trs as [|[k t] trs IH]; intros d0 Hd Ht; [done|].
  apply Forall_cons in Ht as [Hkt Ht]. simpl.
  apply IH; [|done]. by apply (dict_set_Forall P).
Qed.

Lemma export_entries_get trs tid :
  ∀ d0, NoDup (dict_keys trs) →
    dict_get (pretty tid) (export_entries trs d0)
    = from_option (fun t => Some (summarize t))
                  (dict_get (pretty tid) d0) (dict_get tid trs).
Proof.
  induction trs as [|[k t] trs IH]; intros d0 Hnd; [done|].
  unfold dict_keys in Hnd. simpl in Hnd. apply NoDup_cons in Hnd as [Hk Hnd].
  simpl. rewrite (IH _ Hnd).
  destruct (decide (tid = k)) as [->|Hne].
  - apply dict_get_None in Hk. by rewrite Hk, dict_get_set_eq.
  - rewrite dict_get_set_ne; [done|]. intros Heq. by apply (inj pretty) in Heq.
Qed.

Section query_facts.
Context `{Numpy}.

Lemma export_tracks_run s :
  ∃ st, get_track_statistics s = (Ok st, s)
    ∧ export_tracks s
      = (Ok {| x_tracks := export_entries (tracks s) [];
               statistics := st;
               total_frames := current_frame s + 1 |}, s).
Proof. eexists. split; reflexivity. Qed.

(** The operations other than [update] leave the object as it is. *)
Lemma exec_query_state o s : (∀ c, o ≠ Update c) → (exec o s).2 = s.
Proof. intros Hq. destruct o; try done. by destruct (Hq c). Qed.

Lemma exec_stepped o s : Inv s → stepped s (exec o s).2.
Proof.
  intros HI. destruct o as [c| | | | | | | |];
    try (rewrite exec_query_state by done; by apply stepped_refl).
  replace (exec (Update c) s).2 with (do_call s c); [by apply do_call_stepped|].
  unfold do_call. simpl. unfold bind.
  by destruct (update (c_idxs_ref c) (c_idxs_cur c) (c_kps_cur c) (c_frame_id c) s)
    as [[[]|e] s'].
Qed.

Lemma Inv_run_from ops : ∀ s, Inv s → Inv (foldl (fun s o => (exec o s).2) s ops).
Proof.
  induction ops as [|o ops IH]; intros s HI; [done|].
  simpl. apply IH. by apply exec_stepped.
Qed.

Lemma Inv_run ops : Inv (run ops).
Proof. apply Inv_run_from, Inv_init. Qed.

End query_facts.

(** C5: after every sequence of operations on a fresh object, the ids
    of the tracks, in the order they were issued, are [0, 1, ...,
    next_track_id - 1]: distinct, increasing from 0, none skipped;
    [next_track_id] is the number of tracks created; every id in the two
    id lists is below it; the counter never decreases; and the next
    track created gets the id [next_track_id], which no track has. *)
Theorem track_ids_monotonic `{Numpy} (ops : list op) :
  let s := run ops in
  dict_keys (tracks s) = seqZ 0 (next_track_id s)
  ∧ NoDup (dict_keys (tracks s))
  ∧ next_track_id s = len (tracks s)
  ∧ Forall (fun tid => 0 ≤ tid < next_track_id s)
           (ref_track_ids s ++ active_track_ids s)
  ∧ (∀ o, next_track_id s ≤ next_track_id (exec o s).2)
  ∧ (∀ kp frame_id,
       ∃ s', _create_track kp frame_id s = (Ok (next_track_id s), s')
         ∧ dict_get (next_track_id s) (tracks s) = None
         ∧ next_track_id s' = next_track_id s + 1
         ∧ dict_keys (tracks s') = dict_keys (tracks s) ++ [next_track_id s]).
Proof.
  intros s. pose proof (Inv_run ops) as HI. fold s in HI.
  pose proof (inv_numbered _ HI) as Hw. destruct Hw as [Hkeys Hnext].
  split_and!; try done.
  - rewrite Hkeys. apply NoDup_seqZ.
  - apply Forall_app. rewrite (inv_active _ HI).
    assert (Forall (fun tid => 0 ≤ tid < next_track_id s) (ref_track_ids s)) as Hr.
    { apply Forall_forall. intros tid. by apply Inv_ref_range. }
    split; [done|]. rewrite Forall_forall in *. intros tid Hin.
    apply list_elem_of_filter in Hin as [_ Hin]. auto.
  - intros o. by apply exec_stepped.
  - intros kp frame_id. rewrite create_track_run by (by split).
    eexists. split; [reflexivity|]. split; [by apply well_numbered_next|].
    split; [done|]. simpl. unfold dict_keys. by rewrite fmap_app.
Qed.

(** C6: after every sequence of operations, every track has
    [age = len(positions)]; [export_tracks] returns, and every entry it
    writes has [num_observations] equal to its [age], which is the age
    of the track it is written for. *)
Theorem age_counts_positions `{Numpy} (ops : list op) :
  let s := run ops in
  Forall (fun kt => age kt.2 = len (positions kt.2)) (tracks s)
  ∧ ∃ e, export_tracks s = (Ok e, s)
      ∧ Forall (fun kx => num_observations kx.2 = x_age kx.2) (x_tracks e)
      ∧ ∀ tid t, dict_get tid (tracks s) = Some t →
          ∃ x, dict_get (pretty tid) (x_tracks e) = Some x
            ∧ x_age x = age t
            ∧ num_observations x = age t.
Proof.
  intros s. pose proof (Inv_run ops) as HI. fold s in HI.
  pose proof (inv_age _ HI) as Hage.
  split; [exact Hage|].
  destruct (export_tracks_run s) as (st & _ & ->).
  eexists. split; [reflexivity|]. simpl. split.
  - apply (export_entries_Forall (fun x => num_observations x = x_age x));
      [constructor|].
    apply (Forall_impl _ _ _ Hage). intros [k t] Hc. simpl in *.
    unfold consistent in Hc. by rewrite Hc.
  - intros tid t Ht. rewrite export_entries_get, Ht.
    + exists (summarize t). split; [done|]. split; [done|]. simpl.
      symmetry. apply (dict_get_Forall consistent _ _ _ Hage Ht).
    + rewrite (proj1 (inv_numbered _ HI)). apply NoDup_seqZ.
Qed.

(** C8: when the store holds no track, after any sequence of
    operations, the statistics are the zero defaults ([0.0] for the mean,
    median, standard deviation and active mean, [0] for the maximum,
    minimum, total and active counts), the other queries return zero or
    the empty list, and none raises or changes the object. *)
Theorem statistics_empty_store `{Numpy} (ops : list op) :
  let s := run ops in
  tracks s = [] →
  get_track_statistics s
  = (Ok {| total_tracks := 0;
           active_tracks := 0;
           mean_track_length := 0%float;
           median_track_length := 0%float;
           std_track_length := 0%float;
           max_track_length := 0;
           min_track_length := 0;
           mean_active_track_length := 0%float |}, s)
  ∧ get_average_track_length s = (Ok 0%float, s)
  ∧ get_track_ages s = (Ok [], s)
  ∧ get_active_track_ages s = (Ok [], s)
  ∧ get_total_track_count s = (Ok 0, s)
  ∧ get_active_track_count s = (Ok 0, s).
Proof.
  intros s Hempty. pose proof (Inv_run ops) as HI. fold s in HI.
  assert (ref_track_ids s = []) as Href.
  { pose proof (inv_ref _ HI) as Hr. rewrite Hempty in Hr.
    destruct (ref_track_ids s) as [|tid l]; [done|].
    apply Forall_cons in Hr as [(t & Ht & _) _]. done. }
  assert (active_track_ids s = []) as Hact.
  { by rewrite (inv_active _ HI), Href. }
  unfold get_track_statistics, get_average_track_length, get_track_ages,
    get_active_track_ages, get_total_track_count, get_active_track_count,
    bind, gets, ret.
  cbn beta iota. rewrite Hempty, Hact. done.
Qed.

Lemma statistics_empty_store_witness :
  let s := @run reference_numpy
             [GetTrackStatistics; Update (Call None None (Some []) 4);
              ExportTracks; Update (Call (Some [0]) (Some [0]) None 5)] in
  @get_track_statistics reference_numpy s
  = (Ok {| total_tracks := 0;
           active_tracks := 0;
           mean_track_length := 0%float;
           median_track_length := 0%float;
           std_track_length := 0%float;
           max_track_length := 0;
           min_track_length := 0;
           mean_active_track_length := 0%float |}, s).
Proof.
  intros s.
  apply (@statistics_empty_store reference_numpy
           [GetTrackStatistics; Update (Call None None (Some []) 4);
            ExportTracks; Update (Call (Some [0]) (Some [0]) None 5)]).
  reflexivity.
Defined.

(** C9: [export_tracks] (and [get_track_statistics] inside it) returns
    and leaves the object exactly as it was, so a second export, also
    after any number of other queries, returns the same value. *)
Theorem export_read_only `{Numpy} (s : TrackManager) :
  ∃ e, export_tracks s = (Ok e, s)
    ∧ export_tracks (export_tracks s).2 = (Ok e, s)
    ∧ (∃ st, get_track_statistics s = (Ok st, s) ∧ statistics e = st)
    ∧ ∀ queries,
        Forall (fun o => ∀ c, o ≠ Update c) queries →
        export_tracks (foldl (fun s o => (exec o s).2) s (ExportTracks :: queries))
        = (Ok e, s).
Proof.
  destruct (export_tracks_run s) as (st & Hst & He).
  eexists. split; [exact He|]. split; [by rewrite He|].
  split; [by exists st|].
  intros queries Hq.
  assert (foldl (fun s o => (exec o s).2) s (ExportTracks :: queries) = s) as ->;
    [|exact He].
  assert (Forall (fun o => ∀ c, o ≠ Update c) (ExportTracks :: queries)) as Hall
    by (by constructor).
  induction Hall as [|o qs Ho Hqs IH]; [done|].
  cbn [foldl]. by rewrite (exec_query_state o s Ho).
Qed.

(** * Further properties of the track manager *)

(** ** The id lists *)

Lemma Inv_no_sentinel s : Inv s → (-1 : Z) ∉ ref_track_ids s.
Proof. intros HI Hin. pose proof (Inv_ref_range _ _ HI Hin). lia. Qed.

Lemma Inv_active_ref s : Inv s → active_track_ids s = ref_track_ids s.
Proof.
  intros HI. rewrite (inv_active _ HI).
  by apply filter_sentinel_free, Inv_no_sentinel.
Qed.

(** X1: after any sequence of operations, [active_track_ids] is the
    same list as [ref_track_ids], the sentinel [-1] is not in it, and
    every id in it names a stored track whose [is_active] flag is on. *)
Theorem reference_ids_active `{Numpy} (ops : list op) :
  let s := run ops in
  active_track_ids s = ref_track_ids s
  ∧ ((-1 : Z) ∉ ref_track_ids s)
  ∧ Forall (fun tid => ∃ t, dict_get tid (tracks s) = Some t ∧ is_active t = true)
           (ref_track_ids s).
Proof.
  intros s. pose proof (Inv_run ops) as HI. fold s in HI.
  split; [by apply Inv_active_ref|]. split; [by apply Inv_no_sentinel|].
  apply (inv_ref _ HI).
Qed.

(** X2: when a call of [update] with a non-empty detections sequence
    returns, the reference list has one id per detection, whichever path
    the call took, and [get_active_track_count] returns that number. *)
Theorem reference_length_detections (cs : list call)
    (idxs_ref idxs_cur : option (list Z)) (kps : list keypoint) (frame_id : Z)
    (s' : TrackManager) :
  let s := replay cs __init__ in
  kps ≠ [] →
  update idxs_ref idxs_cur (Some kps) frame_id s = (Ok tt, s') →
  length (ref_track_ids s') = length kps
  ∧ get_active_track_count s' = (Ok (len kps), s').
Proof.
  intros s Hk Hupd. pose proof (Inv_history cs) as HI. fold s in HI.
  assert (length (ref_track_ids s') = length kps) as Hlen.
  { destruct (bootstrap_case_or_not idxs_ref idxs_cur s) as [Hb|Hnb].
    - rewrite (update_bootstrap _ _ _ _ _ Hk Hb) in Hupd.
      rewrite initialize_tracks_run in Hupd by apply (inv_numbered _ HI).
      injection Hupd as <-. simpl. rewrite length_seqZ. unfold len. lia.
    - destruct (update_reconcile _ _ kps frame_id s Hk Hnb)
        as (ir & ic & -> & -> & Heq).
      rewrite Heq in Hupd.
      by destruct (reconcile_effect _ _ _ _ _ _
                     (Inv_set_current_frame frame_id s HI) Hupd) as [Hl _]. }
  split; [done|].
  assert (Inv s') as HI'.
  { pose proof (update_stepped idxs_ref idxs_cur (Some kps) frame_id s HI) as Hs.
    rewrite Hupd in Hs. apply Hs. }
  unfold get_active_track_count, bind, gets, ret.
  rewrite (Inv_active_ref _ HI'). unfold len. by rewrite Hlen.
Qed.

Lemma reference_length_detections_witness :
  let s := replay [Call None None (Some [kpA; kpB]) 0] __init__ in
  ∃ s', update (Some [1; 7]) (Some [2; 0]) (Some [kpC; kpD; kpE]) 1 s = (Ok tt, s')
    ∧ length (ref_track_ids s') = 3%nat
    ∧ get_active_track_count s' = (Ok 3, s').
Proof.
  intros s. eexists. split; [vm_compute; reflexivity|].
  apply (reference_length_detections [Call None None (Some [kpA; kpB]) 0]
           (Some [1; 7]) (Some [2; 0]) [kpC; kpD; kpE] 1); [done|].
  vm_compute. reflexivity.
Defined.

(** ** What a call does to each track *)

Lemma match_loop_observes kps frame_id pairs :
  ∀ arr s o s1,
    length arr = length kps →
    match_loop kps frame_id pairs arr s = (o, s1) →
    ∀ tid, ∃ obs,
      dict_get tid (tracks s1)
      = (fun t => observe frame_id t obs) <$> dict_get tid (tracks s).
Proof.
  induction pairs as [|[idx_ref idx_cur] pairs IH]; intros arr s o s1 Hlen.
  - simpl. unfold ret. intros [= <- <-] tid. exists [].
    by destruct (dict_get tid (tracks s)).
  - cbn [match_loop]. unfold bind at 1.
    rewrite (match_body_effect _ _ _ _ _ _ Hlen).
    destruct (pair_effect_of (ref_track_ids s) kps (idx_ref, idx_cur))
      as [| |tid0 slot kp] eqn:Heff.
    + intros Hrest tid. by apply (IH _ _ _ _ Hlen Hrest tid).
    + intros [= <- <-] tid. exists []. by destruct (dict_get tid (tracks s)).
    + intros Hrest tid.
      destruct (IH _ _ _ _ (eq_trans (length_insert _ _ _) Hlen) Hrest tid)
        as [obs Hobs].
      destruct (dict_get tid0 (tracks s)) as [t0|] eqn:Ht0; [|by exists obs].
      simpl in Hobs. destruct (decide (tid0 = tid)) as [<-|Hne].
      * exists (kp :: obs). by rewrite Hobs, dict_get_set_eq, Ht0.
      * exists obs. by rewrite Hobs, dict_get_set_ne.
Qed.

Lemma fate_set_current_frame frame_id s s' :
  fate frame_id (set_current_frame frame_id s) s' → fate frame_id s s'.
Proof. by intros []. Qed.

Lemma fate_idle frame_id s : fate frame_id s (set_current_frame frame_id s).
Proof.
  split; [done | |].
  - intros tid t Ht. by exists [], false.
  - simpl. intros tid t' Hn Ht. congruence.
Qed.

Lemma initialize_tracks_fate kps frame_id s :
  Inv s → current_frame s = frame_id →
  fate frame_id s (_initialize_tracks kps frame_id s).2.
Proof.
  intros HI Hf. pose proof (inv_numbered _ HI) as Hw.
  rewrite (initialize_tracks_run _ _ _ Hw). simpl. split; simpl.
  - done.
  - intros tid t Ht. exists [], false. by rewrite dict_get_app, Ht.
  - intros tid t' Hn. rewrite dict_get_app, Hn. simpl. intros Ht'.
    apply (dict_get_Forall (fun t => ∃ kp, t = new_track frame_id kp) _ _ _
             (fresh_tracks_Forall _ _ _ _ (fun kp => ex_intro _ kp eq_refl)) Ht').
Qed.

Lemma reconcile_fate idxs_ref idxs_cur kps frame_id s o s' :
  Inv s → current_frame s = frame_id →
  reconcile idxs_ref idxs_cur kps frame_id s = (o, s') →
  fate frame_id s s'.
Proof.
  intros HI Hf Hrun.
  destruct (reconcile_run _ _ _ _ _ _ _ HI Hrun)
    as [(e & -> & Hm & Hag)
       |(-> & s1 & arr1 & arr2 & news & s3 & Hm & Hag & Has & Hl & Hsrc & Hkeep
           & Hsrc2 & Hfull & Hret & Hs')].
  - split.
    + by rewrite (aged_frame _ _ Hag).
    + intros tid t Ht.
      destruct (match_loop_observes _ _ _ _ _ _ _ (length_replicate _ _) Hm tid)
        as [obs Hobs].
      exists obs, false. by rewrite Hobs, Ht.
    + intros tid t' Hn Ht'. exfalso.
      assert (is_Some (dict_get tid (tracks s'))) as Hsome by (by exists t').
      apply dict_get_is_Some in Hsome. rewrite (aged_keys _ _ Hag) in Hsome.
      apply dict_get_is_Some in Hsome as [t Ht]. congruence.
  - split.
    + rewrite Hs'. simpl. rewrite (retired_frame _ _ _ Hret). simpl.
      by rewrite (aged_frame _ _ Hag).
    + intros tid t Ht.
      destruct (reconcile_effect _ _ _ _ _ _ HI Hrun) as (_ & _ & _ & _ & Hold).
      rewrite (Hold tid t Ht). simpl.
      eexists _, (bool_decide (tid ∈ ref_track_ids s ∧ tid ∉ ref_track_ids s')).
      by destruct (decide _) as [Hd|Hd];
        [rewrite bool_decide_eq_true_2 | rewrite bool_decide_eq_false_2].
    + intros tid t' Hn. rewrite Hs'. simpl.
      rewrite (retired_get _ _ _ Hret).
      assert (dict_get tid (tracks s1) = None) as Hn1.
      { apply dict_get_None. rewrite (aged_keys _ _ Hag). by apply dict_get_None. }
      rewrite decide_False.
      2:{ rewrite lost_track_ids_spec. intros [[Hin _] _].
          pose proof (inv_ref _ HI) as Hr. rewrite Forall_forall in Hr.
          destruct (Hr tid Hin) as (t & Ht & _). congruence. }
      simpl. rewrite dict_get_app, Hn1. simpl. intros Ht'.
      apply (dict_get_Forall (fun t => ∃ kp, t = new_track frame_id kp) _ _ _
               (fresh_tracks_Forall _ _ _ _ (fun kp => ex_intro _ kp eq_refl)) Ht').
Qed.

Lemma update_fate idxs_ref idxs_cur kps_cur frame_id s :
  Inv s → fate frame_id s (update idxs_ref idxs_cur kps_cur frame_id s).2.
Proof.
  intros HI. apply fate_set_current_frame.
  apply (Inv_set_current_frame frame_id) in HI.
  unfold update, bind at 1, modify at 1.
  set (s0 := set_current_frame frame_id s) in *.
  assert (current_frame s0 = frame_id) as Hf by done.
  assert (fate frame_id s0 s0) as Hidle.
  { split; [done | |].
    - intros tid t Ht. by exists [], false.
    - intros tid t' Hn Ht. congruence. }
  destruct kps_cur as [kps|]; [|done].
  destruct (len kps =? 0); [done|].
  unfold bind at 1, gets at 1.
  destruct idxs_ref as [ir|]; [|by apply initialize_tracks_fate].
  destruct idxs_cur as [ic|]; [|by apply initialize_tracks_fate].
  destruct (len (ref_track_ids s0) =? 0); [by apply initialize_tracks_fate|].
  destruct ((len ir =? 0) || (len ic =? 0)); [by apply initialize_tracks_fate|].
  destruct (reconcile ir ic kps frame_id s0) as [o s'] eqn:Hrun.
  by apply (reconcile_fate _ _ _ _ _ _ _ HI Hf Hrun).
Qed.

(** ** Tracks over a history *)

Lemma extends_refl t : extends t t.
Proof. unfold extends. split_and!; done || lia. Qed.

Lemma extends_trans t1 t2 t3 : extends t1 t2 → extends t2 t3 → extends t1 t3.
Proof.
  intros (H1 & H2 & H3 & H4) (G1 & G2 & G3 & G4). unfold extends.
  split_and!; [congruence | lia | by etrans | auto].
Qed.

Lemma extends_observe frame_id t obs : extends t (observe frame_id t obs).
Proof.
  unfold extends.
  rewrite observe_first_frame, observe_age, observe_positions, observe_is_active.
  pose proof (len_nonneg obs).
  split_and!; [done | lia | by apply prefix_app_r | done].
Qed.

Lemma extends_deactivate t : extends t (deactivate t).
Proof. unfold extends. simpl. split_and!; done || lia. Qed.

Lemma fate_extends frame_id s s' tid t :
  fate frame_id s s' → dict_get tid (tracks s) = Some t →
  ∃ t', dict_get tid (tracks s') = Some t' ∧ extends t t'.
Proof.
  intros Hfate Ht. destruct (fate_old _ _ _ Hfate tid t Ht) as (obs & b & Ht').
  eexists. split; [exact Ht'|]. destruct b.
  - eapply extends_trans; [apply extends_observe | apply extends_deactivate].
  - apply extends_observe.
Qed.

Lemma replay_extends cs :
  ∀ s tid t, Inv s → dict_get tid (tracks s) = Some t →
    ∃ t', dict_get tid (tracks (replay cs s)) = Some t' ∧ extends t t'.
Proof.
  induction cs as [|c cs IH]; intros s tid t HI Ht.
  - exists t. split; [done | apply extends_refl].
  - destruct (fate_extends _ _ _ tid t
                (update_fate (c_idxs_ref c) (c_idxs_cur c) (c_kps_cur c)
                   (c_frame_id c) s HI) Ht) as (t1 & Ht1 & He1).
    destruct (IH (do_call s c) tid t1) as (t' & Ht' & He').
    { apply (do_call_stepped s c HI). }
    { exact Ht1. }
    exists t'. split; [exact Ht'|]. by eapply extends_trans.
Qed.

(** X3: tracks are never deleted or rewritten: a track stored after a
    history of calls is still stored after any further calls, with the
    same [first_frame], an [age] that is not smaller, the old [positions]
    as a prefix of the new ones, and an [is_active] flag that, once off,
    stays off. *)
Theorem track_history_append_only (cs cs' : list call) (tid : Z) (t : Track) :
  dict_get tid (tracks (replay cs __init__)) = Some t →
  ∃ t', dict_get tid (tracks (replay cs' (replay cs __init__))) = Some t'
    ∧ first_frame t' = first_frame t
    ∧ age t ≤ age t'
    ∧ positions t `prefix_of` positions t'
    ∧ (is_active t = false → is_active t' = false).
Proof.
  intros Ht. apply replay_extends; [apply Inv_history | done].
Qed.

Lemma track_history_append_only_witness :
  ∃ t', dict_get 0
          (tracks (replay [Call (Some [0; 1]) (Some [1; 0]) (Some [kpC; kpD]) 1;
                           Call (Some [1]) (Some [0]) (Some [kpE]) 2]
                     (replay [Call None None (Some [kpA; kpB]) 0] __init__)))
        = Some t'
    ∧ first_frame t' = 0
    ∧ 1 ≤ age t'
    ∧ [(10.5%float, 20%float)] `prefix_of` positions t'
    ∧ (true = false → is_active t' = false).
Proof.
  apply (track_history_append_only
           [Call None None (Some [kpA; kpB]) 0]
           [Call (Some [0; 1]) (Some [1; 0]) (Some [kpC; kpD]) 1;
            Call (Some [1]) (Some [0]) (Some [kpE]) 2]
           0 (new_track 0 kpA)).
  vm_compute. reflexivity.
Defined.

(** ** Invariants of the stored tracks *)

Lemma dict_Forall_lookup {V : Type} (P : V → Prop) (d : dict Z V) :
  NoDup (dict_keys d) →
  (∀ k v, dict_get k d = Some v → P v) →
  Forall (fun kv => P kv.2) d.
Proof.
  unfold dict_keys. induction d as [|[k v] d IH]; intros Hnd Hall; [constructor|].
  simpl in Hnd. apply NoDup_cons in Hnd as [Hk Hnd]. constructor.
  - apply (Hall k). simpl. by rewrite decide_True.
  - apply IH; [done|]. intros k' v' Hget. apply (Hall k'). simpl.
    rewrite decide_False; [done|]. intros ->.
    apply Hk. apply dict_get_is_Some. by exists v'.
Qed.

Lemma observe_preserves (P : Track → Prop) frame_id obs :
  (∀ kp t, P t → P (continue_track frame_id kp t)) →
  ∀ t, P t → P (observe frame_id t obs).
Proof.
  intros Hc. induction obs as [|kp obs IH]; intros t Ht; [done|].
  simpl. apply IH. by apply Hc.
Qed.

Lemma fate_preserves (P : Track → Prop) frame_id s s' :
  (∀ kp, P (new_track frame_id kp)) →
  (∀ kp t, P t → P (continue_track frame_id kp t)) →
  (∀ t, P t → P (deactivate t)) →
  fate frame_id s s' →
  (∀ tid t, dict_get tid (tracks s) = Some t → P t) →
  ∀ tid t, dict_get tid (tracks s') = Some t → P t.
Proof.
  intros Hnew Hcont Hde Hfate Hs tid t' Ht'.
  destruct (dict_get tid (tracks s)) as [t|] eqn:Ht.
  - destruct (fate_old _ _ _ Hfate tid t Ht) as (obs & b & Hget).
    rewrite Hget in Ht'. injection Ht' as <-.
    pose proof (observe_preserves P frame_id obs Hcont t (Hs tid t Ht)) as Ho.
    destruct b; auto.
  - destruct (fate_new _ _ _ Hfate tid t' Ht Ht') as [kp ->]. apply Hnew.
Qed.

Lemma foldr_max_spec (d : Z) (l : list Z) :
  d ≤ foldr Z.max d l
  ∧ (∀ x, x ∈ l → x ≤ foldr Z.max d l)
  ∧ (foldr Z.max d l = d ∨ foldr Z.max d l ∈ l).
Proof.
  induction l as [|a l (IH1 & IH2 & IH3)]; simpl.
  - split; [lia|]. split; [|by left]. intros x Hx. by apply elem_of_nil in Hx.
  - split; [lia|]. split.
    + intros x Hx. apply elem_of_cons in Hx as [->|Hx]; [lia|].
      specialize (IH2 x Hx). lia.
    + destruct (Z.max_spec a (foldr Z.max d l)) as [[_ ->]|[_ ->]].
      * destruct IH3 as [->|Hin]; [by left|]. right. apply elem_of_cons. by right.
      * right. apply elem_of_cons. by left.
Qed.

Lemma foldr_min_spec (d : Z) (l : list Z) :
  foldr Z.min d l ≤ d
  ∧ (∀ x, x ∈ l → foldr Z.min d l ≤ x)
  ∧ (foldr Z.min d l = d ∨ foldr Z.min d l ∈ l).
Proof.
  induction l as [|a l (IH1 & IH2 & IH3)]; simpl.
  - split; [lia|]. split; [|by left]. intros x Hx. by apply elem_of_nil in Hx.
  - split; [lia|]. split.
    + intros x Hx. apply elem_of_cons in Hx as [->|Hx]; [lia|].
      specialize (IH2 x Hx). lia.
    + destruct (Z.min_spec a (foldr Z.min d l)) as [[_ ->]|[_ ->]].
      * right. apply elem_of_cons. by left.
      * destruct IH3 as [->|Hin]; [by left|]. right. apply elem_of_cons. by right.
Qed.

Lemma np_max_spec (l : list Z) :
  l ≠ [] → np_max l ∈ l ∧ ∀ x, x ∈ l → x ≤ np_max l.
Proof.
  intros Hl. destruct l as [|a l]; [done|]. unfold np_max.
  change (default 0 (head (a :: l))) with a.
  destruct (foldr_max_spec a (a :: l)) as (_ & Hub & [Heq|Hin]).
  - split; [|done]. rewrite Heq. apply elem_of_cons. by left.
  - by split.
Qed.

Lemma np_min_spec (l : list Z) :
  l ≠ [] → np_min l ∈ l ∧ ∀ x, x ∈ l → np_min l ≤ x.
Proof.
  intros Hl. destruct l as [|a l]; [done|]. unfold np_min.
  change (default 0 (head (a :: l))) with a.
  destruct (foldr_min_spec a (a :: l)) as (_ & Hlb & [Heq|Hin]).
  - split; [|done]. rewrite Heq. apply elem_of_cons. by left.
  - by split.
Qed.

Lemma omap_total {A B : Type} (f : A → option B) (Q : A → B → Prop) (l : list A) :
  Forall (fun x => ∃ y, f x = Some y ∧ Q x y) l →
  Forall2 Q l (omap f l).
Proof.
  induction 1 as [|x l (y & Hy & HQ) Hl IH]; simpl; [constructor|].
  rewrite Hy. by constructor.
Qed.

Section invariant_facts.
Context `{Numpy}.

Lemma exec_update_state c s : (exec (Update c) s).2 = do_call s c.
Proof.
  unfold do_call. simpl. unfold bind.
  by destruct (update (c_idxs_ref c) (c_idxs_cur c) (c_kps_cur c) (c_frame_id c) s)
    as [[[]|e] s'].
Qed.

(** A property of track records that creation, continuation and
    retirement keep holds of every stored track. *)
Lemma track_invariant_run (P : Track → Prop) ops :
  (∀ frame_id kp, P (new_track frame_id kp)) →
  (∀ frame_id kp t, P t → P (continue_track frame_id kp t)) →
  (∀ t, P t → P (deactivate t)) →
  ∀ tid t, dict_get tid (tracks (run ops)) = Some t → P t.
Proof.
  intros Hnew Hcont Hde. unfold run.
  assert (∀ s, Inv s → (∀ tid t, dict_get tid (tracks s) = Some t → P t) →
            ∀ tid t,
              dict_get tid (tracks (foldl (fun s o => (exec o s).2) s ops)) = Some t →
              P t) as Hgen.
  { induction ops as [|o ops IH]; intros s HI Hs; [done|].
    simpl. apply IH; [by apply exec_stepped|].
    destruct o as [c| | | | | | | |];
      try (rewrite exec_query_state by done; exact Hs).
    rewrite exec_update_state.
    apply (fate_preserves P (c_frame_id c) s); auto.
    by apply update_fate. }
  apply Hgen; [apply Inv_init | done].
Qed.

End invariant_facts.

(** X4: after any sequence of operations every track has an [age] of
    at least 1 and at least one position; [get_track_statistics] returns
    with [total_tracks = next_track_id] and [active_tracks] the length of
    the reference list; and when the store is not empty,
    [min_track_length] and [max_track_length] are the ages of stored
    tracks that bound every age, with
    [1 <= min_track_length <= max_track_length]. *)
Theorem track_lengths_positive `{Numpy} (ops : list op) :
  let s := run ops in
  Forall (fun kt => 1 ≤ age kt.2 ∧ positions kt.2 ≠ []) (tracks s)
  ∧ ∃ st, get_track_statistics s = (Ok st, s)
      ∧ total_tracks st = next_track_id s
      ∧ active_tracks st = len (ref_track_ids s)
      ∧ (tracks s ≠ [] →
           1 ≤ min_track_length st
           ∧ min_track_length st ≤ max_track_length st
           ∧ Forall (fun kt => min_track_length st ≤ age kt.2 ≤ max_track_length st)
                    (tracks s)
           ∧ (∃ kt, kt ∈ tracks s ∧ age kt.2 = min_track_length st)
           ∧ (∃ kt, kt ∈ tracks s ∧ age kt.2 = max_track_length st)).
Proof.
  intros s. pose proof (Inv_run ops) as HI. fold s in HI.
  pose proof (inv_numbered _ HI) as [Hkeys Hnext].
  assert (NoDup (dict_keys (tracks s))) as Hnd by (rewrite Hkeys; apply NoDup_seqZ).
  assert (Forall (fun kt => 1 ≤ age kt.2) (tracks s)) as Hpos.
  { apply (dict_Forall_lookup (fun t => 1 ≤ age t)); [done|].
    apply (track_invariant_run (fun t => 1 ≤ age t) ops); simpl; intros; lia. }
  split.
  { pose proof (inv_age _ HI) as Hage. rewrite Forall_forall in *.
    intros kt Hin. split; [by apply Hpos|].
    specialize (Hage kt Hin). specialize (Hpos kt Hin). unfold consistent in Hage.
    intros Hnil. rewrite Hnil in Hage. unfold len in Hage. simpl in Hage. lia. }
  eexists. split; [reflexivity|]. cbn [total_tracks active_tracks
    min_track_length max_track_length].
  split; [done|]. split; [by rewrite (Inv_active_ref _ HI)|].
  intros Hne.
  set (ages := age <$> dict_values (tracks s)).
  assert (ages ≠ []) as Hages.
  { unfold ages, dict_values. destruct (tracks s); [done|]. done. }
  assert (∀ a, a ∈ ages ↔ ∃ kt, kt ∈ tracks s ∧ age kt.2 = a) as Hmem.
  { intros a. unfold ages, dict_values. rewrite list_elem_of_fmap. split.
    - intros (t & -> & Ht). apply list_elem_of_fmap in Ht as (kt & -> & Hkt).
      by exists kt.
    - intros (kt & Hkt & <-). exists kt.2. split; [done|].
      apply list_elem_of_fmap. by exists kt. }
  destruct (np_max_spec ages Hages) as [Hmax_in Hmax].
  destruct (np_min_spec ages Hages) as [Hmin_in Hmin].
  unfold get_track_ages, bind, gets, ret. cbn [fst snd]. fold ages.
  destruct ages as [|a0 ages0] eqn:Hshape; [done|]. rewrite <- Hshape in *.
  split_and!.
  - apply Hmem in Hmin_in as (kt & Hkt & <-).
    rewrite Forall_forall in Hpos. by apply Hpos.
  - by apply Hmin.
  - apply Forall_forall. intros kt Hkt.
    assert (age kt.2 ∈ ages) as Hin by (apply Hmem; by exists kt).
    split; [by apply Hmin | by apply Hmax].
  - by apply Hmem.
  - by apply Hmem.
Qed.

(** X5: after any sequence of operations, [get_active_track_ages]
    returns one age per id of [active_track_ids], in the same order: the
    membership test of the comprehension never drops an id; each is the
    age of a track whose [is_active] flag is on, and is at least 1. *)
Theorem active_ages_complete `{Numpy} (ops : list op) :
  let s := run ops in
  ∃ ages, get_active_track_ages s = (Ok ages, s)
    ∧ length ages = length (active_track_ids s)
    ∧ Forall2 (fun tid a =>
                 ∃ t, dict_get tid (tracks s) = Some t
                   ∧ age t = a ∧ is_active t = true ∧ 1 ≤ a)
              (active_track_ids s) ages.
Proof.
  intros s. pose proof (Inv_run ops) as HI. fold s in HI.
  eexists. split; [reflexivity|].
  assert (Forall2 (fun tid a =>
                     ∃ t, dict_get tid (tracks s) = Some t
                       ∧ age t = a ∧ is_active t = true ∧ 1 ≤ a)
                  (active_track_ids s)
                  (omap (fun tid => age <$> dict_get tid (tracks s))
                        (active_track_ids s))) as H2.
  { apply omap_total. rewrite (Inv_active_ref _ HI).
    pose proof (inv_ref _ HI) as Hr.
    apply (Forall_impl _ _ _ Hr). intros tid (t & Ht & Hact).
    exists (age t). rewrite Ht. split; [done|].
    exists t. split_and!; try done.
    apply (track_invariant_run (fun t => 1 ≤ age t) ops) with (tid := tid);
      simpl; intros; done || lia. }
  split; [symmetry; by eapply Forall2_length | exact H2].
Qed.

(** ** Frames in order *)

Lemma replay_snoc cs c s : replay (cs ++ [c]) s = do_call (replay cs s) c.
Proof. unfold replay. by rewrite foldl_app. Qed.

Lemma frames_ordered_snoc cs c :
  frames_ordered (cs ++ [c]) →
  frames_ordered cs ∧ ∀ c0, c0 ∈ cs → c_frame_id c0 ≤ c_frame_id c.
Proof.
  intros Hord. split.
  - intros i j ci cj Hij Hi Hj.
    apply (Hord i j ci cj Hij); by apply lookup_app_l_Some.
  - intros c0 Hin. apply list_elem_of_lookup in Hin as [i Hi].
    apply (Hord i (length cs) c0 c).
    + apply lookup_lt_Some in Hi. lia.
    + by apply lookup_app_l_Some.
    + by rewrite lookup_app_r, Nat.sub_diag.
Qed.

Lemma current_frame_do_call s c : Inv s → current_frame (do_call s c) = c_frame_id c.
Proof. intros HI. apply (fate_frame _ _ _ (update_fate _ _ _ _ s HI)). Qed.

(** The state of the frame fields along a history with ordered frames:
    the current frame is at or above the frame of every call, and every
    track lies between its first and its last frame, at or below the
    current one. *)
Lemma frames_ordered_history cs :
  frames_ordered cs →
  let s := replay cs __init__ in
  (∀ c0, c0 ∈ cs → c_frame_id c0 ≤ current_frame s)
  ∧ (cs = [] → tracks s = [])
  ∧ ∀ tid t, dict_get tid (tracks s) = Some t →
      first_frame t ≤ last_frame t ≤ current_frame s.
Proof.
  induction cs as [|c cs IH] using rev_ind; intros Hord s.
  - split; [|split; [done|]].
    + intros c0 Hin. by apply elem_of_nil in Hin.
    + intros tid t Ht. done.
  - apply frames_ordered_snoc in Hord as [Hord Hle].
    destruct (IH Hord) as (Hcur & Hempty & Htr).
    subst s. rewrite replay_snoc.
    pose proof (Inv_history cs) as HI.
    set (s := replay cs __init__) in *.
    pose proof (update_fate (c_idxs_ref c) (c_idxs_cur c) (c_kps_cur c)
                  (c_frame_id c) s HI) as Hfate.
    fold (do_call s c) in Hfate.
    pose proof (fate_frame _ _ _ Hfate) as Hf.
    split; [|split].
    + intros c0 Hin. rewrite Hf. apply elem_of_app in Hin as [Hin|Hin]; [auto|].
      apply list_elem_of_singleton in Hin as ->. lia.
    + intros Hnil. by destruct cs.
    + intros tid t' Ht'. rewrite Hf.
      destruct (dict_get tid (tracks s)) as [t|] eqn:Ht.
      * assert (current_frame s ≤ c_frame_id c) as Hmono.
        { destruct cs as [|c1 cs1] using rev_ind.
          - rewrite Hempty in Ht; done.
          - clear IHcs1. subst s. rewrite replay_snoc.
            rewrite current_frame_do_call by apply Inv_history.
            apply Hle. apply elem_of_app. right. by apply list_elem_of_singleton. }
        specialize (Htr tid t Ht).
        destruct (fate_old _ _ _ Hfate tid t Ht) as (obs & b & Hget).
        rewrite Hget in Ht'. injection Ht' as <-.
        assert (first_frame (observe (c_frame_id c) t obs)
                ≤ last_frame (observe (c_frame_id c) t obs) ≤ c_frame_id c) as Hobs.
        { rewrite observe_first_frame, observe_last_frame. destruct obs; lia. }
        by destruct b.
      * destruct (fate_new _ _ _ Hfate tid t' Ht Ht') as [kp ->]. simpl. lia.
Qed.

(** X6: when the frame ids of a history of calls never decrease, every
    stored track has [first_frame <= last_frame <= current_frame]. *)
Theorem track_frames_ordered (cs : list call) (tid : Z) (t : Track) :
  frames_ordered cs →
  dict_get tid (tracks (replay cs __init__)) = Some t →
  first_frame t ≤ last_frame t ≤ current_frame (replay cs __init__).
Proof.
  intros Hord Ht. destruct (frames_ordered_history cs Hord) as (_ & _ & Htr).
  exact (Htr tid t Ht).
Qed.

Lemma track_frames_ordered_witness :
  let t := {| age := 2; first_frame := 3; last_frame := 5;
              positions := [(10.5%float, 20%float); (12%float, 21.5%float)];
              is_active := true |} in
  first_frame t ≤ last_frame t
  ≤ current_frame (replay [Call None None (Some [kpA; kpB]) 3;
                           Call (Some [0]) (Some [0]) (Some [kpC]) 5;
                           Call None None None 5] __init__).
Proof.
  intros t.
  apply (track_frames_ordered
           [Call None None (Some [kpA; kpB]) 3;
            Call (Some [0]) (Some [0]) (Some [kpC]) 5;
            Call None None None 5] 0 t).
  - intros i j ci cj Hij Hi Hj.
    destruct i as [|[|[|i]]], j as [|[|[|j]]]; simpl in Hi, Hj;
      try discriminate; try lia;
      injection Hi as <-; injection Hj as <-; simpl; lia.
  - vm_compute. reflexivity.
Defined.

(** ** Visualization data *)

Section sort_facts.
Context {A : Type} (key : A → Z).

Lemma insert_by_perm x l : insert_by key x l ≡ₚ x :: l.
Proof.
  induction l as [|y l IH]; simpl; [done|].
  destruct (key x <=? key y); [done|]. rewrite IH. apply Permutation_swap.
Qed.

Lemma sort_by_perm l : sort_by key l ≡ₚ l.
Proof.
  induction l as [|x l IH]; simpl; [done|].
  fold (sort_by key l). by rewrite insert_by_perm, IH.
Qed.

Lemma insert_by_sorted x l :
  StronglySorted (fun a b => key a ≤ key b) l →
  StronglySorted (fun a b => key a ≤ key b) (insert_by key x l).
Proof.
  induction 1 as [|y l Hl IH Hy]; simpl.
  - repeat constructor.
  - destruct (key x <=? key y) eqn:Hc.
    + constructor; [by constructor|]. constructor; [lia|].
      apply (Forall_impl _ _ _ Hy). intros z Hz. simpl in *. lia.
    + constructor; [done|].
      rewrite (insert_by_perm x l). constructor; [lia | done].
Qed.

Lemma sort_by_sorted l : StronglySorted (fun a b => key a ≤ key b) (sort_by key l).
Proof.
  induction l as [|x l IH]; simpl; [constructor|]. by apply insert_by_sorted.
Qed.

(** A list already in order is left as it is. *)
Lemma sort_by_id l :
  StronglySorted (fun a b => key a ≤ key b) l → sort_by key l = l.
Proof.
  induction 1 as [|x l Hl IH Hx]; [done|].
  simpl. fold (sort_by key l). rewrite IH.
  destruct l as [|y l']; [done|]. simpl.
  apply Forall_cons in Hx as [Hxy _].
  by replace (key x <=? key y) with true by lia.
Qed.

End sort_facts.

Lemma dict_get_of_elem {V : Type} (d : dict Z V) k v :
  NoDup (dict_keys d) → (k, v) ∈ d → dict_get k d = Some v.
Proof.
  unfold dict_keys. induction d as [|[k0 v0] d IH]; intros Hnd Hin.
  - by apply elem_of_nil in Hin.
  - simpl in Hnd. apply NoDup_cons in Hnd as [Hk Hnd].
    apply elem_of_cons in Hin as [[= -> ->]|Hin]; simpl.
    + by rewrite decide_True.
    + rewrite decide_False; [by apply IH|]. intros ->.
      apply Hk. apply list_elem_of_fmap. by exists (k0, v).
Qed.

(** A dictionary whose keys are consecutive, in order, is sorted by any
    relation that holds between the values of increasing keys. *)
Lemma dict_sorted_by_key {V : Type} (R : V → V → Prop) (d : dict Z V) n0 n :
  dict_keys d = seqZ n0 n →
  (∀ k1 k2 v1 v2, k1 ≤ k2 →
     dict_get k1 d = Some v1 → dict_get k2 d = Some v2 → R v1 v2) →
  StronglySorted (fun kv1 kv2 => R kv1.2 kv2.2) d.
Proof.
  revert n0 n. induction d as [|[k v] d IH]; intros n0 n Hkeys HR; [constructor|].
  assert (NoDup (dict_keys ((k, v) :: d))) as Hnd
    by (rewrite Hkeys; apply NoDup_seqZ).
  unfold dict_keys in Hkeys. simpl in Hkeys.
  assert (0 < n) as Hn.
  { destruct (decide (0 < n)); [done|]. rewrite seqZ_nil in Hkeys by lia. done. }
  rewrite seqZ_cons in Hkeys by done. injection Hkeys as -> Hkeys.
  assert (∀ k' v', (k', v') ∈ d → n0 < k' ∧ dict_get k' ((n0, v) :: d) = Some v')
    as Htail.
  { intros k' v' Hin. split.
    - assert (k' ∈ seqZ (Z.succ n0) (Z.pred n)) as Hk'.
      { rewrite <- Hkeys. apply (list_elem_of_fmap_2 fst _ (k', v') Hin). }
      apply elem_of_seqZ in Hk'. lia.
    - apply dict_get_of_elem; [done|]. apply elem_of_cons. by right. }
  constructor.
  - apply (IH (Z.succ n0) (Z.pred n)); [done|].
    intros k1 k2 v1 v2 Hle H1 H2. apply dict_get_elem in H1, H2.
    apply (HR k1 k2); [done | by apply Htail | by apply Htail].
  - apply Forall_forall. intros [k' v'] Hin. simpl.
    destruct (Htail k' v' Hin) as [Hlt Hget].
    apply (HR n0 k'); [lia | | done]. simpl. by rewrite decide_True.
Qed.

Lemma visualization_run s :
  get_tracks_for_visualization s
  = (Ok (sort_by (fun x => x.1.1.2) (vis_tuple <$> tracks s)), s).
Proof. done. Qed.

(** X7: [get_tracks_for_visualization] returns, leaves the object as
    it is, and its result holds exactly the tuples [(track_id,
    first_frame, last_frame, age)] of the stored tracks, one per track,
    in non-decreasing order of [first_frame]. *)
Theorem visualization_sorted (s : TrackManager) :
  ∃ l, get_tracks_for_visualization s = (Ok l, s)
    ∧ l ≡ₚ (fun kt => (kt.1, first_frame kt.2, last_frame kt.2, age kt.2)) <$> tracks s
    ∧ length l = length (tracks s)
    ∧ StronglySorted (fun x y => x.1.1.2 ≤ y.1.1.2) l.
Proof.
  eexists. split; [apply visualization_run|].
  split; [apply sort_by_perm|]. split.
  - rewrite sort_by_perm. apply length_fmap.
  - apply (sort_by_sorted (fun x : Z * Z * Z * Z => x.1.1.2)).
Qed.

Lemma current_frame_history cs :
  cs = [] ∨ ∃ c0, c0 ∈ cs ∧ current_frame (replay cs __init__) = c_frame_id c0.
Proof.
  destruct cs as [|c cs _] using rev_ind; [by left|]. right.
  exists c. split.
  - apply elem_of_app. right. by apply list_elem_of_singleton.
  - rewrite replay_snoc. apply current_frame_do_call, Inv_history.
Qed.

(** Along a history with ordered frames, tracks with larger ids do not
    start earlier. *)
Lemma first_frames_by_id cs :
  frames_ordered cs →
  ∀ tid1 tid2 t1 t2, tid1 ≤ tid2 →
    dict_get tid1 (tracks (replay cs __init__)) = Some t1 →
    dict_get tid2 (tracks (replay cs __init__)) = Some t2 →
    first_frame t1 ≤ first_frame t2.
Proof.
  induction cs as [|c cs IH] using rev_ind; intros Hord tid1 tid2 t1' t2' Hle.
  - done.
  - pose proof Hord as Hord'.
    apply frames_ordered_snoc in Hord' as [Hcs Hlast].
    specialize (IH Hcs).
    destruct (frames_ordered_history cs Hcs) as (_ & Hempty & Hbound).
    rewrite replay_snoc.
    pose proof (Inv_history cs) as HI.
    pose proof (Inv_history (cs ++ [c])) as HI'. rewrite replay_snoc in HI'.
    set (s := replay cs __init__) in *.
    pose proof (update_fate (c_idxs_ref c) (c_idxs_cur c) (c_kps_cur c)
                  (c_frame_id c) s HI) as Hfate.
    fold (do_call s c) in Hfate.
    assert (∀ tid t, dict_get tid (tracks s) = Some t →
              first_frame t ≤ c_frame_id c) as Hold.
    { intros tid t Ht. specialize (Hbound tid t Ht).
      destruct (current_frame_history cs) as [->|(c0 & Hin & Hcur)].
      - subst s. simpl in Ht. done.
      - fold s in Hcur. specialize (Hlast c0 Hin). lia. }
    intros H1 H2.
    destruct (dict_get tid1 (tracks s)) as [t1|] eqn:Ht1,
             (dict_get tid2 (tracks s)) as [t2|] eqn:Ht2.
    + destruct (fate_extends _ _ _ _ _ Hfate Ht1) as (u1 & Hu1 & (E1 & _)).
      destruct (fate_extends _ _ _ _ _ Hfate Ht2) as (u2 & Hu2 & (E2 & _)).
      rewrite Hu1 in H1. rewrite Hu2 in H2.
      injection H1 as <-. injection H2 as <-.
      rewrite E1, E2. by apply (IH tid1 tid2).
    + destruct (fate_extends _ _ _ _ _ Hfate Ht1) as (u1 & Hu1 & (E1 & _)).
      rewrite Hu1 in H1. injection H1 as <-.
      destruct (fate_new _ _ _ Hfate tid2 t2' Ht2 H2) as [kp ->].
      rewrite E1. simpl. by apply (Hold tid1).
    + exfalso.
      assert (0 ≤ tid1) as Hpos.
      { apply (well_numbered_lookup _ tid1 (inv_numbered _ HI')). by exists t1'. }
      assert (tid2 < next_track_id s) as Hlt.
      { apply (well_numbered_lookup _ tid2 (inv_numbered _ HI)). by exists t2. }
      apply eq_None_not_Some in Ht1. apply Ht1.
      apply (well_numbered_lookup _ tid1 (inv_numbered _ HI)). lia.
    + destruct (fate_new _ _ _ Hfate tid1 t1' Ht1 H1) as [kp1 ->].
      destruct (fate_new _ _ _ Hfate tid2 t2' Ht2 H2) as [kp2 ->]. done.
Qed.

(** X8: when the frame ids of the history never decrease, the sort of
    [get_tracks_for_visualization] changes nothing: the tuples come out
    in the order of creation of the tracks, ids increasing from 0. *)
Theorem visualization_in_creation_order (cs : list call) :
  frames_ordered cs →
  let s := replay cs __init__ in
  get_tracks_for_visualization s
  = (Ok ((fun kt => (kt.1, first_frame kt.2, last_frame kt.2, age kt.2))
           <$> tracks s), s)
  ∧ fst <$> tracks s = seqZ 0 (next_track_id s).
Proof.
  intros Hord s. pose proof (Inv_history cs) as HI. fold s in HI.
  destruct (inv_numbered _ HI) as [Hkeys _].
  split; [|exact Hkeys].
  rewrite visualization_run. f_equal. f_equal.
  apply (sort_by_id (fun x : Z * Z * Z * Z => x.1.1.2)).
  apply (StronglySorted_fmap vis_tuple
           (fun kt1 kt2 : Z * Track => first_frame kt1.2 ≤ first_frame kt2.2)
           (fun x y : Z * Z * Z * Z => x.1.1.2 ≤ y.1.1.2)).
  { intros kt1 kt2 Hle. exact Hle. }
  apply (dict_sorted_by_key (fun t1 t2 => first_frame t1 ≤ first_frame t2)
           _ 0 (next_track_id s) Hkeys).
  by apply first_frames_by_id.
Qed.

Lemma visualization_in_creation_order_witness :
  let s := replay [Call None None (Some [kpA; kpB]) 3;
                   Call (Some [0]) (Some [1]) (Some [kpC; kpD]) 5] __init__ in
  get_tracks_for_visualization s
  = (Ok [(0, 3, 5, 2); (1, 3, 3, 1); (2, 5, 5, 1)], s)
  ∧ fst <$> tracks s = [0; 1; 2].
Proof.
  intros s.
  apply (visualization_in_creation_order
           [Call None None (Some [kpA; kpB]) 3;
            Call (Some [0]) (Some [1]) (Some [kpC; kpD]) 5]).
  intros i j ci cj Hij Hi Hj.
  destruct i as [|[|i]], j as [|[|j]]; simpl in Hi, Hj;
    try discriminate; try lia;
    injection Hi as <-; injection Hj as <-; simpl; lia.
Defined.

(** ** The exported document *)

Lemma export_entries_fmap trs :
  ∀ d0, NoDup (dict_keys trs) →
    (∀ k, k ∈ dict_keys trs → pretty k ∉ dict_keys d0) →
    export_entries trs d0
    = d0 ++ ((fun kt => (pretty kt.1, summarize kt.2)) <$> trs).
Proof.
  induction trs as [|[k t] trs IH]; intros d0 Hnd Hfresh.
  - simpl. by rewrite app_nil_r.
  - unfold dict_keys in Hnd. simpl in Hnd. apply NoDup_cons in Hnd as [Hk Hnd].
    simpl. fold (export_entries trs (dict_set (pretty k) (summarize t) d0)).
    rewrite dict_set_absent.
    2:{ apply dict_get_None. apply Hfresh. apply elem_of_cons. by left. }
    rewrite IH; [by rewrite <- app_assoc | done |].
    intros k' Hk'. unfold dict_keys. rewrite fmap_app. simpl.
    apply not_elem_of_app. split.
    + apply Hfresh. apply elem_of_cons. by right.
    + rewrite list_elem_of_singleton. intros Heq. apply (inj pretty) in Heq.
      subst k'. done.
Qed.

(** X9: after any sequence of operations, [export_tracks] returns a
    document whose [tracks] has exactly one entry per stored track, in
    the order of creation, keyed by the decimal string of the track id and
    holding the track's [age], [first_frame], [last_frame], number of
    positions and [is_active]; its [statistics] are those of
    [get_track_statistics]; and [total_frames] is [current_frame + 1],
    which after a call of [update], returning or raising, is that call's
    [frame_id + 1]. *)
Theorem export_one_entry_per_track `{Numpy} (ops : list op) :
  let s := run ops in
  ∃ e, export_tracks s = (Ok e, s)
    ∧ x_tracks e
      = (fun kt =>
           (pretty kt.1,
            {| x_age := age kt.2;
               x_first_frame := first_frame kt.2;
               x_last_frame := last_frame kt.2;
               num_observations := len (positions kt.2);
               x_is_active := is_active kt.2 |})) <$> tracks s
    ∧ fst <$> x_tracks e = pretty <$> seqZ 0 (next_track_id s)
    ∧ get_track_statistics s = (Ok (statistics e), s)
    ∧ total_frames e = current_frame s + 1
    ∧ ∀ c e',
        export_tracks (exec (Update c) s).2 = (Ok e', (exec (Update c) s).2) →
        total_frames e' = c_frame_id c + 1.
Proof.
  intros s. pose proof (Inv_run ops) as HI. fold s in HI.
  destruct (inv_numbered _ HI) as [Hkeys _].
  destruct (export_tracks_run s) as (st & Hst & He).
  eexists. split; [exact He|]. cbn [x_tracks statistics total_frames].
  assert (export_entries (tracks s) []
          = (fun kt => (pretty kt.1, summarize kt.2)) <$> tracks s) as Hent.
  { rewrite export_entries_fmap; [done | |].
    - rewrite Hkeys. apply NoDup_seqZ.
    - intros k _. apply not_elem_of_nil. }
  split_and!; try done.
  - rewrite Hent, <- Hkeys. unfold dict_keys.
    rewrite <- !list_fmap_compose. done.
  - intros c e' He'. rewrite exec_update_state in He'.
    destruct (export_tracks_run (do_call s c)) as (st' & _ & He2).
    rewrite He2 in He'. injection He' as <-. cbn [total_frames].
    by rewrite current_frame_do_call.
Qed.

(** ** When [update] raises *)

Lemma py_index_None n i :
  py_index n i = None ↔ i < - Z.of_nat n ∨ Z.of_nat n ≤ i.
Proof.
  split.
  - intros Hn. destruct (decide (0 ≤ i < Z.of_nat n)) as [Hr|Hr].
    { rewrite py_index_in_range in Hn by done. done. }
    destruct (decide (- Z.of_nat n ≤ i < 0)) as [Hw|Hw].
    { rewrite py_index_wrap in Hn by done. done. }
    lia.
  - intros [Hlo|Hhi]; [by apply py_index_below|].
    unfold py_index. replace (i <? Z.of_nat n) with false by lia.
    rewrite andb_false_r. by replace (i <? 0) with false by lia;
      rewrite andb_false_r.
Qed.

Lemma pair_effect_raises ref (kps : list keypoint) pc :
  pair_effect_of ref kps pc = Raises
  ↔ pc.1 < len ref ∧ pc.2 < len kps
    ∧ (pc.1 < - len ref ∨ pc.2 < - len kps).
Proof.
  unfold pair_effect_of, len.
  destruct (pc.1 <? Z.of_nat (length ref)) eqn:H1; simpl.
  2:{ split; [done | lia]. }
  destruct (pc.2 <? Z.of_nat (length kps)) eqn:H2; simpl.
  2:{ split; [done | lia]. }
  destruct (py_index (length ref) pc.1) as [p|] eqn:Hp; simpl.
  2:{ apply py_index_None in Hp. split; [lia | done]. }
  destruct (ref !! p) as [tid|] eqn:Htid.
  2:{ apply py_index_lt in Hp. apply lookup_ge_None in Htid. lia. }
  assert (¬ pc.1 < - Z.of_nat (length ref)) as Hp'.
  { intros Hlo. rewrite py_index_below in Hp by done. done. }
  destruct (py_index (length kps) pc.2) as [slot|] eqn:Hslot.
  2:{ apply py_index_None in Hslot. split; [lia | done]. }
  assert (¬ pc.2 < - Z.of_nat (length kps)) as Hc'.
  { intros Hlo. rewrite py_index_below in Hslot by done. done. }
  destruct (kps !! slot) as [kp|] eqn:Hkp.
  - split; [done | lia].
  - apply py_index_lt in Hslot. apply lookup_ge_None in Hkp. lia.
Qed.

Lemma match_loop_outcome kps frame_id pairs :
  ∀ arr s o s1,
    length arr = length kps →
    match_loop kps frame_id pairs arr s = (o, s1) →
    (o = Raise IndexError
     ∧ Exists (fun pc => pair_effect_of (ref_track_ids s) kps pc = Raises) pairs)
    ∨ ((∃ arr1, o = Ok arr1)
       ∧ Forall (fun pc => pair_effect_of (ref_track_ids s) kps pc ≠ Raises) pairs).
Proof.
  induction pairs as [|[idx_ref idx_cur] pairs IH]; intros arr s o s1 Hlen.
  - simpl. unfold ret. intros [= <- <-]. right. split; [by eexists | constructor].
  - cbn [match_loop]. unfold bind at 1.
    rewrite (match_body_effect _ _ _ _ _ _ Hlen).
    destruct (pair_effect_of (ref_track_ids s) kps (idx_ref, idx_cur))
      as [| |tid0 slot kp] eqn:Heff.
    + intros Hrest. destruct (IH _ _ _ _ Hlen Hrest) as [[-> Hex]|[Hok Hall]].
      * left. split; [done|]. by apply Exists_cons_tl.
      * right. split; [done|]. constructor; [by rewrite Heff | done].
    + intros [= <- <-]. left. split; [done|]. by apply Exists_cons_hd.
    + intros Hrest.
      assert (ref_track_ids
                match dict_get tid0 (tracks s) with
                | Some t => set_tracks
                    (dict_set tid0 (continue_track frame_id kp t) (tracks s)) s
                | None => s
                end = ref_track_ids s) as Href
        by (by destruct (dict_get tid0 (tracks s))).
      destruct (IH _ _ _ _ (eq_trans (length_insert _ _ _) Hlen) Hrest)
        as [[-> Hex]|[Hok Hall]]; rewrite Href in *.
      * left. split; [done|]. by apply Exists_cons_tl.
      * right. split; [done|]. constructor; [by rewrite Heff | done].
Qed.

(** X10: on a store reached by calls of [update], a call raises
    exactly when detections are non-empty, both index arrays are given,
    the reference list is non-empty and some pair passes the bounds test
    with an index below minus the length it points into.  The exception
    is an [IndexError]; the call has recorded [frame_id], created no
    track and left [next_track_id] and both id lists as they were. *)
Theorem update_raises_iff (cs : list call)
    (idxs_ref idxs_cur : option (list Z)) (kps_cur : option (list keypoint))
    (frame_id : Z) :
  let s := replay cs __init__ in
  ((∃ e s', update idxs_ref idxs_cur kps_cur frame_id s = (Raise e, s'))
   ↔ ∃ ir ic kps,
       idxs_ref = Some ir ∧ idxs_cur = Some ic ∧ kps_cur = Some kps
       ∧ kps ≠ [] ∧ ref_track_ids s ≠ []
       ∧ Exists (fun pc : Z * Z =>
                   pc.1 < len (ref_track_ids s) ∧ pc.2 < len kps
                   ∧ (pc.1 < - len (ref_track_ids s) ∨ pc.2 < - len kps))
                (zip ir ic))
  ∧ ∀ e s', update idxs_ref idxs_cur kps_cur frame_id s = (Raise e, s') →
      e = IndexError
      ∧ current_frame s' = frame_id
      ∧ next_track_id s' = next_track_id s
      ∧ ref_track_ids s' = ref_track_ids s
      ∧ active_track_ids s' = active_track_ids s
      ∧ fst <$> tracks s' = fst <$> tracks s.
Proof.
  intros s. pose proof (Inv_history cs) as HI. fold s in HI.
  pose proof (Inv_set_current_frame frame_id s HI) as HI0.
  pose proof (inv_numbered _ HI0) as Hw0.
  assert (∀ e s', update idxs_ref idxs_cur kps_cur frame_id s = (Raise e, s') →
            ∃ ir ic kps,
              idxs_ref = Some ir ∧ idxs_cur = Some ic ∧ kps_cur = Some kps
              ∧ kps ≠ [] ∧ ref_track_ids s ≠ []
              ∧ match_loop kps frame_id (zip ir ic) (replicate (length kps) (-1))
                  (set_current_frame frame_id s) = (Raise e, s')
              ∧ aged (set_current_frame frame_id s) s') as Hwhy.
  { intros e s'. unfold update, bind at 1, modify at 1.
    destruct kps_cur as [kps|]; [|done].
    destruct (len kps =? 0) eqn:Hk; [done|].
    unfold bind at 1, gets at 1.
    destruct idxs_ref as [ir|]; [|by rewrite initialize_tracks_run].
    destruct idxs_cur as [ic|]; [|by rewrite initialize_tracks_run].
    destruct (len (ref_track_ids (set_current_frame frame_id s)) =? 0) eqn:Hr;
      [by rewrite initialize_tracks_run|].
    destruct ((len ir =? 0) || (len ic =? 0)); [by rewrite initialize_tracks_run|].
    intros Hrun.
    destruct (reconcile_run _ _ _ _ _ _ _ HI0 Hrun)
      as [(e' & [= <-] & Hm & Hag)|([=] & _)].
    exists ir, ic, kps. split_and!; try done.
    - intros ->. done.
    - intros Hnil. simpl in Hr. rewrite Hnil in Hr. done. }
  split.
  - split.
    + intros (e & s' & Hupd).
      destruct (Hwhy e s' Hupd) as (ir & ic & kps & -> & -> & -> & Hk & Hr & Hm & _).
      exists ir, ic, kps. split_and!; try done.
      destruct (match_loop_outcome _ _ _ _ _ _ _ (length_replicate _ _) Hm)
        as [[_ Hex]|[[arr1 [=]] _]].
      apply (Exists_impl _ _ _ Hex). intros pc Hpc.
      by apply pair_effect_raises in Hpc.
    + intros (ir & ic & kps & -> & -> & -> & Hk & Hr & Hex).
      assert (¬ bootstrap_case (Some ir) (Some ic) s) as Hnb.
      { intros [Hb|[Hb|Hb]]; [done | | done].
        simpl in Hb. injection Hb as Hb. rewrite Hb in Hex.
        by apply Exists_nil in Hex. }
      destruct (update_reconcile _ _ kps frame_id s Hk Hnb)
        as (ir' & ic' & [= <-] & [= <-] & ->).
      unfold reconcile, bind at 1.
      destruct (match_loop kps frame_id (zip ir ic) (replicate (length kps) (-1))
                  (set_current_frame frame_id s)) as [o s1] eqn:Hm.
      destruct (match_loop_outcome _ _ _ _ _ _ _ (length_replicate _ _) Hm)
        as [[-> _]|[_ Hall]]; [by eexists _, _|].
      exfalso. apply Exists_exists in Hex as (pc & Hin & Hpc).
      rewrite Forall_forall in Hall. apply (Hall pc Hin).
      by apply pair_effect_raises.
  - intros e s' Hupd.
    destruct (Hwhy e s' Hupd) as (ir & ic & kps & _ & _ & _ & _ & _ & Hm & Hag).
    destruct (match_loop_outcome _ _ _ _ _ _ _ (length_replicate _ _) Hm)
      as [[[= ->] _]|[[arr1 [=]] _]].
    split; [done|]. split; [by rewrite (aged_frame _ _ Hag)|].
    split; [by rewrite (aged_next _ _ Hag)|].
    split; [by rewrite (aged_ref _ _ Hag)|].
    split; [by rewrite (aged_active _ _ Hag)|].
    apply (aged_keys _ _ Hag).
Qed.

(** ** Index arrays of different lengths *)

Lemma zip_take_min {A B : Type} (l : list A) (k : list B) :
  zip (take (length l `min` length k) l) (take (length l `min` length k) k)
  = zip l k.
Proof.
  revert k. induction l as [|x l IH]; intros [|y k]; simpl; try done.
  by rewrite IH.
Qed.

(** X11: index arrays of different lengths are not an error: [update]
    pairs them up to the shorter length and behaves exactly as if both
    had been cut to it. *)
Theorem update_truncates_indices (idxs_ref idxs_cur : list Z)
    (kps_cur : option (list keypoint)) (frame_id : Z) (s : TrackManager) :
  let n := (length idxs_ref `min` length idxs_cur)%nat in
  update (Some idxs_ref) (Some idxs_cur) kps_cur frame_id s
  = update (Some (take n idxs_ref)) (Some (take n idxs_cur)) kps_cur frame_id s.
Proof.
  intros n. unfold update, bind, modify, gets. cbn beta iota.
  destruct kps_cur as [kps|]; [|done].
  destruct (len kps =? 0); [done|].
  destruct (len (ref_track_ids (set_current_frame frame_id s)) =? 0); [done|].
  destruct idxs_ref as [|p ir]; [done|]. destruct idxs_cur as [|c ic]; [done|].
  assert (n = S (length ir `min` length ic)) as -> by done.
  cbn [take]. unfold len. cbn [length orb Z.eqb Z.of_nat].
  unfold reconcile. cbn [zip zip_with].
  by rewrite (zip_take_min ir ic).
Qed.

(** ** Tracks left behind by a bootstrap *)

(** X12: a call that takes the bootstrap path with a non-empty
    detections sequence writes to no track stored before it, and takes
    all of them out of both id lists; no later call of [update] writes
    to them or lists them again.  A track that was active before such a
    call keeps its [is_active] flag on for good. *)
Theorem bootstrap_orphans_tracks (cs cs' : list call) (c : call)
    (kps : list keypoint) (tid : Z) (t : Track) :
  c_kps_cur c = Some kps → kps ≠ [] →
  bootstrap_case (c_idxs_ref c) (c_idxs_cur c) (replay cs __init__) →
  dict_get tid (tracks (replay cs __init__)) = Some t →
  let s' := replay cs' (replay (cs ++ [c]) __init__) in
  dict_get tid (tracks s') = Some t
  ∧ (tid ∉ ref_track_ids s')
  ∧ (tid ∉ active_track_ids s').
Proof.
  intros Hkps Hne Hboot Hget s'.
  pose proof (Inv_history cs) as HI. pose proof (inv_numbered _ HI) as Hw.
  assert (tid < next_track_id (replay cs __init__)) as Hlt.
  { apply (well_numbered_lookup _ _ Hw). by exists t. }
  pose proof (Inv_history (cs ++ [c])) as HI1.
  assert ((tid ∉ ref_track_ids (replay (cs ++ [c]) __init__))
          ∧ next_track_id (replay cs __init__)
            ≤ next_track_id (replay (cs ++ [c]) __init__)
          ∧ dict_get tid (tracks (replay (cs ++ [c]) __init__)) = Some t)
    as (Hout & Hnext & Hsame).
  { rewrite replay_snoc. unfold do_call. rewrite Hkps.
    rewrite (update_bootstrap _ _ _ _ _ Hne Hboot).
    rewrite initialize_tracks_run by done.
    cbn [snd ref_track_ids next_track_id tracks set_current_frame].
    pose proof (len_nonneg kps). split_and!.
    - rewrite elem_of_seqZ. lia.
    - lia.
    - rewrite <- Hget.
      apply (allocate_get_old (c_frame_id c) kps (replay cs __init__) tid Hw Hlt). }
  destruct (absent_forever tid cs' _ HI1 Hout ltac:(lia)) as [Hout' Hget'].
  fold s' in Hout', Hget'. split_and!.
  - by rewrite Hget'.
  - done.
  - rewrite (Inv_active_ref s'); [done|]. by apply Inv_replay.
Qed.

Lemma bootstrap_orphans_tracks_witness :
  let s' := replay [Call (Some [0]) (Some [0]) (Some [kpD]) 2]
              (replay ([Call None None (Some [kpA; kpB]) 0]
                       ++ [Call None None (Some [kpC]) 1]) __init__) in
  dict_get 0 (tracks s') = Some (new_track 0 kpA)
  ∧ (0 ∉ ref_track_ids s')
  ∧ (0 ∉ active_track_ids s').
Proof.
  apply (bootstrap_orphans_tracks
           [Call None None (Some [kpA; kpB]) 0]
           [Call (Some [0]) (Some [0]) (Some [kpD]) 2]
           (Call None None (Some [kpC]) 1) [kpC] 0 (new_track 0 kpA)).
  - reflexivity.
  - discriminate.
  - by left.
  - reflexivity.
Defined.

(** ** Detections without a correspondence *)

(** The loop that creates tracks, in closed form. *)
Lemma assign_loop_fill kps frame_id rest :
  ∀ pre s,
    well_numbered s → length (pre ++ rest) = length kps →
    assign_loop kps frame_id (seq (length pre) (length rest)) (pre ++ rest) s
    = (Ok (pre ++ fill_new (next_track_id s) rest),
       allocate frame_id (unmatched (drop (length pre) kps) rest) s).
Proof.
  induction rest as [|x rest IH]; intros pre s Hw Hlen.
  - cbn [length seq assign_loop fill_new unmatched].
    by rewrite allocate_nil.
  - cbn [length seq assign_loop].
    rewrite list_lookup_middle by done.
    rewrite length_app in Hlen. simpl in Hlen.
    destruct (kps !! length pre) as [kp|] eqn:Hkp;
      [|apply lookup_ge_None in Hkp; lia].
    rewrite (drop_S _ _ _ Hkp). cbn [fill_new unmatched].
    destruct (x =? -1) eqn:Hx.
    + unfold bind at 1, getitem.
      rewrite py_index_in_range by (apply lookup_lt_Some in Hkp; lia).
      rewrite Nat2Z.id. simpl. rewrite Hkp. simpl.
      unfold bind at 1. rewrite (create_track_run _ _ _ Hw).
      set (s1 := mkTrackManager _ _ _ _ _).
      rewrite allocate_cons. fold s1.
      replace (<[length pre:=next_track_id s]> (pre ++ x :: rest))
        with ((pre ++ [next_track_id s]) ++ rest).
      2:{ rewrite insert_app_r_alt by lia. rewrite Nat.sub_diag. simpl.
          by rewrite <- app_assoc. }
      replace (S (length pre)) with (length (pre ++ [next_track_id s]))
        by (rewrite length_app; simpl; lia).
      rewrite (IH (pre ++ [next_track_id s]) s1).
      * by rewrite <- app_assoc.
      * by apply well_numbered_push.
      * rewrite !length_app. simpl. lia.
    + replace (pre ++ x :: rest) with ((pre ++ [x]) ++ rest)
        by (by rewrite <- app_assoc).
      replace (S (length pre)) with (length (pre ++ [x]))
        by (rewrite length_app; simpl; lia).
      rewrite (IH (pre ++ [x]) s Hw).
      * by rewrite <- !app_assoc.
      * rewrite !length_app. simpl. lia.
Qed.

Lemma holes_cons x arr :
  holes (x :: arr) = (if x =? -1 then 1 else 0) + holes arr.
Proof.
  unfold holes. destruct (x =? -1) eqn:Hx.
  - rewrite filter_cons_True by lia. rewrite len_cons. lia.
  - rewrite filter_cons_False by lia. lia.
Qed.

Lemma holes_nonneg arr : 0 ≤ holes arr.
Proof. apply len_nonneg. Qed.

Lemma fill_new_lookup arr :
  ∀ n j,
    fill_new n arr !! j
    = (fun x => if x =? -1 then n + holes (take j arr) else x) <$> arr !! j.
Proof.
  induction arr as [|x arr IH]; intros n j; [done|].
  cbn [fill_new]. destruct j as [|j].
  - destruct (x =? -1) eqn:Hx; simpl; rewrite Hx; [|done].
    unfold holes. simpl. f_equal. unfold len. simpl. lia.
  - cbn [take]. rewrite holes_cons.
    destruct (x =? -1) eqn:Hx; simpl; rewrite IH;
      destruct (arr !! j) as [y|]; simpl; try done;
      destruct (y =? -1); try done; f_equal; lia.
Qed.

Lemma unmatched_lookup arr :
  ∀ (kps : list keypoint) j (kp : keypoint),
    arr !! j = Some (-1) → kps !! j = Some kp →
    unmatched kps arr !! Z.to_nat (holes (take j arr)) = Some kp.
Proof.
  induction arr as [|x arr IH]; intros kps j kp Ha Hk; [done|].
  destruct kps as [|kp0 kps]; [done|]. destruct j as [|j].
  - simpl in Ha, Hk. injection Ha as ->. injection Hk as ->. done.
  - simpl in Ha, Hk. cbn [take unmatched]. rewrite holes_cons.
    pose proof (holes_nonneg (take j arr)).
    destruct (x =? -1).
    + replace (Z.to_nat (1 + holes (take j arr)))
        with (S (Z.to_nat (holes (take j arr)))) by lia.
      by apply IH.
    + rewrite Z.add_0_l. by apply IH.
Qed.

Lemma unmatched_len arr :
  ∀ kps : list keypoint, length kps = length arr → len (unmatched kps arr) = holes arr.
Proof.
  induction arr as [|x arr IH]; intros kps Hl; [done|].
  destruct kps as [|kp kps]; [done|]. injection Hl as Hl.
  cbn [unmatched]. rewrite holes_cons. destruct (x =? -1).
  - rewrite len_cons. by rewrite IH.
  - by rewrite IH.
Qed.

(** The reference list and the new tracks after a reconciliation that
    returns. *)
Lemma reconcile_allocates ir ic kps frame_id s s' :
  Inv s →
  reconcile ir ic kps frame_id s = (Ok tt, s') →
  let arr := foldl (place (ref_track_ids s) kps)
                   (replicate (length kps) (-1)) (zip ir ic) in
  ref_track_ids s' = fill_new (next_track_id s) arr
  ∧ next_track_id s' = next_track_id s + holes arr
  ∧ ∀ j (kp : keypoint),
      arr !! j = Some (-1) → kps !! j = Some kp →
      dict_get (next_track_id s + holes (take j arr)) (tracks s')
      = Some (new_track frame_id kp).
Proof.
  intros HI Hrun arr.
  destruct (reconcile_run _ _ _ _ _ _ _ HI Hrun)
    as [(e & [=] & _)
       |(_ & s1 & arr1 & arr2 & news & s3 & Hm & Hag & Has & Hl & _ & _
           & _ & _ & Hret & ->)].
  destruct (match_loop_effect _ _ _ _ _ _ _ (length_replicate _ _) Hm) as [Harr _].
  fold arr in Harr. subst arr1.
  assert (well_numbered s1) as Hw1.
  { apply (well_numbered_same s); [apply Hag | apply Hag | apply HI]. }
  assert (length arr = length kps) as Hlen.
  { destruct (match_loop_aged _ _ _ _ _ _ _ (length_replicate _ _) Hm) as [_ Ha].
    destruct (Ha arr eq_refl) as [Hl1 _]. by rewrite length_replicate in Hl1. }
  pose proof (assign_loop_fill kps frame_id arr [] s1 Hw1 Hlen) as Hfill.
  cbn [length app] in Hfill. rewrite drop_0 in Hfill. rewrite Hfill in Has.
  pose proof (f_equal snd Has) as Hal. pose proof (f_equal fst Has) as Harr2.
  cbn [fst snd] in Hal, Harr2. injection Harr2 as <-.
  rewrite <- Hal in Hret. clear Has Hal news.
  pose proof (aged_next _ _ Hag) as Hn1. rewrite Hn1 in *.
  cbn [set_active_track_ids set_ref_track_ids next_track_id ref_track_ids tracks].
  split; [done|]. split.
  - rewrite (retired_next _ _ _ Hret). cbn [allocate next_track_id].
    rewrite Hn1. by rewrite unmatched_len.
  - intros j kp Hj Hkp.
    rewrite (retired_get _ _ _ Hret). rewrite decide_False.
    2:{ intros [Hin _]. apply lost_track_ids_spec in Hin as [Hin _].
        apply (Inv_ref_range _ _ HI) in Hin.
        pose proof (holes_nonneg (take j arr)). lia. }
    cbn [allocate tracks]. rewrite dict_get_app.
    assert (dict_get (next_track_id s + holes (take j arr)) (tracks s1) = None) as ->.
    { apply eq_None_not_Some. rewrite (well_numbered_lookup _ _ Hw1), Hn1.
      pose proof (holes_nonneg (take j arr)). lia. }
    cbn [from_option option_union union]. rewrite Hn1.
    rewrite <- (Z2Nat.id (holes (take j arr))) at 1 by apply holes_nonneg.
    rewrite fresh_tracks_get, (unmatched_lookup _ _ _ _ Hj Hkp). done.
Qed.

(** X13: when a call on the reconciliation path returns, the
    detections that no pair continued become new tracks numbered from
    [next_track_id] on in the order of their slots: the [k]-th such
    detection from the left, in slot [j], gets the id
    [next_track_id + k], which is written in slot [j] of the reference
    list and names a new track of this frame at that detection; and
    [next_track_id] grows by the number of such detections. *)
Theorem unmatched_detections_numbered (cs : list call) (ir ic : list Z)
    (kps : list keypoint) (frame_id : Z) (s' : TrackManager) :
  let s := replay cs __init__ in
  kps ≠ [] → ¬ bootstrap_case (Some ir) (Some ic) s →
  update (Some ir) (Some ic) (Some kps) frame_id s = (Ok tt, s') →
  let arr := foldl (place (ref_track_ids s) kps)
                   (replicate (length kps) (-1)) (zip ir ic) in
  next_track_id s' = next_track_id s + holes arr
  ∧ ∀ j (kp : keypoint),
      arr !! j = Some (-1) → kps !! j = Some kp →
      ref_track_ids s' !! j = Some (next_track_id s + holes (take j arr))
      ∧ dict_get (next_track_id s + holes (take j arr)) (tracks s')
        = Some (new_track frame_id kp).
Proof.
  intros s Hne Hnb Hrun arr.
  pose proof (Inv_history cs) as HI. fold s in HI.
  destruct (update_reconcile _ _ _ frame_id _ Hne Hnb)
    as (ir' & ic' & [= <-] & [= <-] & Hup).
  rewrite Hup in Hrun. clear Hup.
  destruct (reconcile_allocates _ _ _ _ _ _
              (Inv_set_current_frame frame_id s HI) Hrun) as (Href & Hnext & Hnew).
  cbn [set_current_frame ref_track_ids next_track_id] in Href, Hnext, Hnew.
  fold arr in Href, Hnext, Hnew.
  split; [done|]. intros j kp Hj Hkp. split; [|by apply Hnew].
  by rewrite Href, fill_new_lookup, Hj.
Qed.

Lemma unmatched_detections_numbered_witness :
  let s := replay [Call None None (Some [kpA; kpB]) 0] __init__ in
  let s' := (update (Some [0]) (Some [1]) (Some [kpC; kpD; kpE]) 1 s).2 in
  let arr := foldl (place (ref_track_ids s) [kpC; kpD; kpE])
                   (replicate 3 (-1)) (zip [0] [1]) in
  next_track_id s' = next_track_id s + holes arr
  ∧ ∀ j (kp : keypoint),
      arr !! j = Some (-1) → [kpC; kpD; kpE] !! j = Some kp →
      ref_track_ids s' !! j = Some (next_track_id s + holes (take j arr))
      ∧ dict_get (next_track_id s + holes (take j arr)) (tracks s')
        = Some (new_track 1 kp).
Proof.
  apply (unmatched_detections_numbered
           [Call None None (Some [kpA; kpB]) 0] [0] [1] [kpC; kpD; kpE] 1).
  - discriminate.
  - intros [H|[H|H]]; discriminate H.
  - vm_compute. reflexivity.
Defined.

(** ** One-to-one correspondences *)

Lemma pair_effect_reads ref kps idx_ref idx_cur tid slot (kp : keypoint) :
  0 ≤ idx_ref →
  pair_effect_of ref kps (idx_ref, idx_cur) = Continues tid slot kp →
  ref !! Z.to_nat idx_ref = Some tid.
Proof.
  intros Hp. unfold pair_effect_of. cbn [fst snd].
  destruct ((idx_ref <? len ref) && (idx_cur <? len kps)) eqn:Hb; [|done].
  apply andb_true_iff in Hb as [Hb _]. unfold len in Hb.
  rewrite py_index_in_range by lia. simpl.
  destruct (ref !! Z.to_nat idx_ref) as [tid'|]; [|done].
  destruct (py_index (length kps) idx_cur) as [slot'|]; [|done].
  destruct (kps !! slot') as [kp'|]; [|done]. by intros [= <- _ _].
Qed.

Lemma place_loop_distinct ref kps pairs :
  NoDup ref → NoDup pairs.*1 → Forall (fun i => 0 ≤ i) pairs.*1 →
  ∀ arr,
    (∀ i j x, arr !! i = Some x → arr !! j = Some x → x ≠ -1 → i = j) →
    (∀ j x, arr !! j = Some x → x ≠ -1 →
            ∃ i, ref !! i = Some x ∧ Z.of_nat i ∉ pairs.*1) →
    (∀ i j x, foldl (place ref kps) arr pairs !! i = Some x →
              foldl (place ref kps) arr pairs !! j = Some x → x ≠ -1 → i = j)
    ∧ (∀ j x, foldl (place ref kps) arr pairs !! j = Some x → x ≠ -1 → x ∈ ref).
Proof.
  intros Href. induction pairs as [|[p c] pairs IH]; intros Hnd Hpos arr Hd Hsrc.
  - simpl. split; [done|]. intros j x Hj Hx.
    destruct (Hsrc j x Hj Hx) as (i & Hi & _). by eapply list_elem_of_lookup_2.
  - cbn [fmap list_fmap fst] in Hnd, Hpos.
    apply NoDup_cons in Hnd as [Hp Hnd]. apply Forall_cons in Hpos as [Hp0 Hpos].
    cbn [foldl]. apply (IH Hnd Hpos).
    + unfold place. destruct (pair_effect_of ref kps (p, c)) as [| |tid slot kp] eqn:He;
        [done|done|].
      pose proof (pair_effect_reads _ _ _ _ _ _ _ Hp0 He) as Hread.
      assert (∀ i x, arr !! i = Some x → x ≠ -1 → x ≠ tid) as Hfresh.
      { intros i x Hi Hx ->. destruct (Hsrc i tid Hi Hx) as (k & Hk & Hout).
        apply Hout. cbn [fmap list_fmap fst].
        rewrite (NoDup_lookup _ _ _ _ Href Hk Hread). rewrite Z2Nat.id by done.
        apply elem_of_cons. by left. }
      intros i j x Hi Hj Hx.
      apply list_lookup_insert_Some in Hi as [(-> & <- & _)|[Hi1 Hi]];
        apply list_lookup_insert_Some in Hj as [(-> & Hj & _)|[Hj1 Hj]]; try done.
      * by destruct (Hfresh j tid Hj Hx).
      * subst x. by destruct (Hfresh i tid Hi Hx).
      * by apply (Hd i j x).
    + unfold place. destruct (pair_effect_of ref kps (p, c)) as [| |tid slot kp] eqn:He.
      * intros j x Hj Hx. destruct (Hsrc j x Hj Hx) as (i & Hi & Hout).
        exists i. split; [done|]. intros Hin. apply Hout.
        cbn [fmap list_fmap fst]. apply elem_of_cons. by right.
      * intros j x Hj Hx. destruct (Hsrc j x Hj Hx) as (i & Hi & Hout).
        exists i. split; [done|]. intros Hin. apply Hout.
        cbn [fmap list_fmap fst]. apply elem_of_cons. by right.
      * pose proof (pair_effect_reads _ _ _ _ _ _ _ Hp0 He) as Hread.
        intros j x Hj Hx.
        apply list_lookup_insert_Some in Hj as [(_ & <- & _)|[_ Hj]].
        -- exists (Z.to_nat p). split; [done|]. by rewrite Z2Nat.id.
        -- destruct (Hsrc j x Hj Hx) as (i & Hi & Hout).
           exists i. split; [done|]. intros Hin. apply Hout.
           cbn [fmap list_fmap fst]. apply elem_of_cons. by right.
Qed.

Lemma holes_take_lt arr :
  ∀ i j, (i < j)%nat → arr !! i = Some (-1) →
         holes (take i arr) < holes (take j arr).
Proof.
  induction arr as [|x arr IH]; intros i j Hij Hi; [done|].
  destruct j as [|j]; [lia|]. cbn [take]. rewrite holes_cons.
  destruct i as [|i].
  - simpl in Hi. injection Hi as ->. simpl.
    pose proof (holes_nonneg (take j arr)). unfold holes at 1. simpl.
    unfold len. simpl. lia.
  - simpl in Hi. cbn [take]. rewrite holes_cons.
    assert (i < j)%nat as Hij' by lia. specialize (IH i j Hij' Hi). lia.
Qed.

Lemma fill_new_NoDup n arr :
  (∀ i j x, arr !! i = Some x → arr !! j = Some x → x ≠ -1 → i = j) →
  (∀ j x, arr !! j = Some x → x ≠ -1 → x < n) →
  NoDup (fill_new n arr).
Proof.
  intros Hd Hlt. apply NoDup_alt. intros i j x.
  rewrite !fill_new_lookup.
  destruct (arr !! i) as [y|] eqn:Hi; [|done].
  destruct (arr !! j) as [z|] eqn:Hj; [|done]. simpl.
  pose proof (holes_nonneg (take i arr)). pose proof (holes_nonneg (take j arr)).
  destruct (y =? -1) eqn:Hy, (z =? -1) eqn:Hz; intros [= <-] [= Heq].
  - assert (y = -1) as -> by lia. assert (z = -1) as -> by lia.
    destruct (Nat.lt_trichotomy i j) as [Hlt'|[->|Hlt']]; [|done|].
    + pose proof (holes_take_lt arr i j Hlt' Hi). lia.
    + pose proof (holes_take_lt arr j i Hlt' Hj). lia.
  - assert (z ≠ -1) as Hz' by lia. pose proof (Hlt j z Hj Hz'). lia.
  - assert (y ≠ -1) as Hy' by lia. pose proof (Hlt i y Hi Hy'). lia.
  - subst z. apply (Hd i j y Hi Hj). lia.
Qed.

Lemma zip_fst_NoDup {A B : Type} (l : list A) (k : list B) :
  NoDup l → NoDup (zip l k).*1.
Proof.
  intros Hl. revert k. induction Hl as [|x l Hx Hl IH]; intros [|y k];
    simpl; try constructor.
  - intros Hin. apply Hx. apply list_elem_of_fmap in Hin as ([a b] & -> & Hin).
    simpl. by eapply elem_of_zip_l.
  - apply IH.
Qed.

Lemma zip_fst_Forall {A B : Type} (P : A → Prop) (l : list A) (k : list B) :
  Forall P l → Forall P (zip l k).*1.
Proof.
  intros Hl. revert k. induction Hl as [|x l Hx Hl IH]; intros [|y k];
    simpl; constructor; auto.
Qed.

Lemma do_call_distinct s c :
  Inv s → one_to_one c → NoDup (ref_track_ids s) →
  NoDup (ref_track_ids (do_call s c)).
Proof.
  intros HI Hc Hnd. unfold do_call.
  destruct c as [idxs_ref idxs_cur [kps|] frame_id]; [|done].
  cbn [c_idxs_ref c_idxs_cur c_kps_cur c_frame_id].
  destruct (decide (kps = [])) as [->|Hne]; [done|].
  destruct (bootstrap_case_or_not idxs_ref idxs_cur s) as [Hb|Hnb].
  { rewrite (update_bootstrap _ _ _ _ _ Hne Hb).
    rewrite initialize_tracks_run by apply (inv_numbered _ HI).
    simpl. apply NoDup_seqZ. }
  destruct (update_reconcile _ _ kps frame_id s Hne Hnb)
    as (ir & ic & -> & -> & Heq).
  rewrite Heq. clear Heq.
  unfold one_to_one in Hc. cbn [c_idxs_ref] in Hc. destruct Hc as [Hir Hpos].
  pose proof (Inv_set_current_frame frame_id s HI) as HI0.
  destruct (reconcile ir ic kps frame_id (set_current_frame frame_id s))
    as [o s'] eqn:Hrun.
  destruct (reconcile_run _ _ _ _ _ _ _ HI0 Hrun)
    as [(e & _ & _ & Hag)
       |(_ & s1 & arr1 & arr2 & news & s3 & Hm & Hag & Has & Hl & _ & _
           & _ & _ & Hret & ->)].
  { cbn [snd]. by rewrite (aged_ref _ _ Hag). }
  cbn [snd set_active_track_ids set_ref_track_ids ref_track_ids].
  destruct (match_loop_effect _ _ _ _ _ _ _ (length_replicate _ _) Hm) as [Harr _].
  cbn [set_current_frame ref_track_ids] in Harr.
  assert (well_numbered s1) as Hw1.
  { apply (well_numbered_same (set_current_frame frame_id s));
      [apply Hag | apply Hag | apply HI0]. }
  assert (length arr1 = length kps) as Hlen.
  { destruct (match_loop_aged _ _ _ _ _ _ _ (length_replicate _ _) Hm) as [_ Ha].
    destruct (Ha arr1 eq_refl) as [Hl1 _]. by rewrite length_replicate in Hl1. }
  pose proof (assign_loop_fill kps frame_id arr1 [] s1 Hw1 Hlen) as Hfill.
  cbn [length app] in Hfill. rewrite Hfill in Has.
  pose proof (f_equal fst Has) as Harr2. cbn [fst] in Harr2. injection Harr2 as <-.
  destruct (place_loop_distinct (ref_track_ids s) kps (zip ir ic) Hnd
              (zip_fst_NoDup ir ic Hir) (zip_fst_Forall _ ir ic Hpos)
              (replicate (length kps) (-1))) as [Hd Hsrc].
  { intros i j x Hi _ Hx. apply lookup_replicate in Hi as [-> _]. done. }
  { intros j x Hj Hx. apply lookup_replicate in Hj as [-> _]. done. }
  rewrite <- Harr in Hd, Hsrc.
  apply fill_new_NoDup; [done|].
  intros j x Hj Hx. rewrite (aged_next _ _ Hag).
  cbn [set_current_frame next_track_id].
  by apply (Inv_ref_range s x HI), (Hsrc j).
Qed.

Lemma replay_distinct cs :
  Forall one_to_one cs → NoDup (ref_track_ids (replay cs __init__)).
Proof.
  intros Hcs. induction cs as [|c cs IH] using rev_ind; [constructor|].
  apply Forall_app in Hcs as [Hcs Hc]. apply Forall_cons in Hc as [Hc _].
  rewrite replay_snoc. apply do_call_distinct; [apply Inv_history|done|by apply IH].
Qed.

(** X14: when in every call of a history the reference indices are
    non-negative and pairwise different, no track id occurs twice in
    [ref_track_ids], nor in [active_track_ids]. *)
Theorem reference_ids_distinct (cs : list call) :
  Forall one_to_one cs →
  NoDup (ref_track_ids (replay cs __init__))
  ∧ NoDup (active_track_ids (replay cs __init__)).
Proof.
  intros Hcs. split; [by apply replay_distinct|].
  rewrite (Inv_active_ref _ (Inv_history cs)). by apply replay_distinct.
Qed.

Lemma reference_ids_distinct_witness :
  NoDup (ref_track_ids
           (replay [Call None None (Some [kpA; kpB]) 0;
                    Call (Some [1; 0]) (Some [0; 2]) (Some [kpC; kpD; kpE]) 1] __init__))
  ∧ NoDup (active_track_ids
             (replay [Call None None (Some [kpA; kpB]) 0;
                      Call (Some [1; 0]) (Some [0; 2]) (Some [kpC; kpD; kpE]) 1] __init__)).
Proof.
  apply (reference_ids_distinct
           [Call None None (Some [kpA; kpB]) 0;
            Call (Some [1; 0]) (Some [0; 2]) (Some [kpC; kpD; kpE]) 1]).
  repeat constructor; simpl; try lia.
  - rewrite list_elem_of_singleton. lia.
  - apply not_elem_of_nil.
Defined.

(** ** Age and frame span *)

Lemma observations_absent ref kps pairs tid :
  Forall (fun i => 0 ≤ i) pairs.*1 →
  (∀ i, ref !! i = Some tid → Z.of_nat i ∉ pairs.*1) →
  observations ref kps pairs tid = [].
Proof.
  induction pairs as [|[p c] pairs IH]; intros Hpos Hout; [done|].
  cbn [fmap list_fmap fst] in Hpos, Hout.
  apply Forall_cons in Hpos as [Hp Hpos].
  rewrite observations_cons.
  assert (observations ref kps pairs tid = []) as Hrest.
  { apply IH; [done|]. intros i Hi Hin. apply (Hout i Hi), elem_of_cons. by right. }
  destruct (pair_effect_of ref kps (p, c)) as [| |tid' slot kp] eqn:He; try done.
  destruct (decide (tid' = tid)) as [->|Hne]; [|done].
  pose proof (pair_effect_reads _ _ _ _ _ _ _ Hp He) as Hread.
  destruct (Hout _ Hread). rewrite Z2Nat.id by done. apply elem_of_cons. by left.
Qed.

Lemma observations_once ref kps pairs tid :
  NoDup ref → NoDup pairs.*1 → Forall (fun i => 0 ≤ i) pairs.*1 →
  (length (observations ref kps pairs tid) ≤ 1)%nat.
Proof.
  intros Href. induction pairs as [|[p c] pairs IH]; intros Hnd Hpos; [simpl; lia|].
  cbn [fmap list_fmap fst] in Hnd, Hpos.
  apply NoDup_cons in Hnd as [Hp Hnd]. apply Forall_cons in Hpos as [Hp0 Hpos].
  rewrite observations_cons. specialize (IH Hnd Hpos).
  destruct (pair_effect_of ref kps (p, c)) as [| |tid' slot kp] eqn:He; try done.
  destruct (decide (tid' = tid)) as [->|Hne]; [|done].
  pose proof (pair_effect_reads _ _ _ _ _ _ _ Hp0 He) as Hread.
  rewrite observations_absent; [simpl; lia | done |].
  intros i Hi. rewrite (NoDup_lookup _ _ _ _ Href Hi Hread).
  by rewrite Z2Nat.id.
Qed.

Lemma match_loop_prefix kps frame_id pairs :
  ∀ arr s o s1,
    length arr = length kps →
    match_loop kps frame_id pairs arr s = (o, s1) →
    ∃ pre, pre `prefix_of` pairs
      ∧ ∀ tid,
          dict_get tid (tracks s1)
          = (fun t => observe frame_id t (observations (ref_track_ids s) kps pre tid))
              <$> dict_get tid (tracks s).
Proof.
  induction pairs as [|[idx_ref idx_cur] pairs IH]; intros arr s o s1 Hlen.
  - simpl. unfold ret. intros [= <- <-]. exists []. split; [done|].
    intros tid. by destruct (dict_get tid (tracks s)).
  - cbn [match_loop]. unfold bind at 1.
    rewrite (match_body_effect _ _ _ _ _ _ Hlen).
    destruct (pair_effect_of (ref_track_ids s) kps (idx_ref, idx_cur))
      as [| |tid0 slot kp] eqn:Heff.
    + intros Hrest. destruct (IH _ _ _ _ Hlen Hrest) as (pre & Hpre & Hget).
      exists ((idx_ref, idx_cur) :: pre). split; [by apply prefix_cons|].
      intros tid. by rewrite observations_cons, Heff.
    + intros [= <- <-]. exists []. split; [apply prefix_nil|].
      intros tid. by destruct (dict_get tid (tracks s)).
    + intros Hrest.
      destruct (IH _ _ _ _ (eq_trans (length_insert _ _ _) Hlen) Hrest)
        as (pre & Hpre & Hget).
      assert (ref_track_ids
                match dict_get tid0 (tracks s) with
                | Some t => set_tracks
                    (dict_set tid0 (continue_track frame_id kp t) (tracks s)) s
                | None => s
                end = ref_track_ids s) as Href
        by (by destruct (dict_get tid0 (tracks s))).
      rewrite Href in Hget.
      exists ((idx_ref, idx_cur) :: pre). split; [by apply prefix_cons|].
      intros tid. rewrite Hget, observations_cons, Heff.
      destruct (decide (tid0 = tid)) as [<-|Hne].
      * destruct (dict_get tid0 (tracks s)) as [t|] eqn:Ht; simpl.
        -- by rewrite dict_get_set_eq.
        -- by rewrite Ht.
      * destruct (dict_get tid0 (tracks s)) as [t|] eqn:Ht; simpl; [|done].
        by rewrite dict_get_set_ne.
Qed.

Lemma update_observes_once idxs_ref idxs_cur kps_cur frame_id s :
  Inv s → NoDup (ref_track_ids s) →
  one_to_one (Call idxs_ref idxs_cur kps_cur frame_id) →
  ∀ tid t, dict_get tid (tracks s) = Some t →
    ∃ obs (b : bool),
      (length obs ≤ 1)%nat
      ∧ dict_get tid (tracks (update idxs_ref idxs_cur kps_cur frame_id s).2)
        = Some (if b then deactivate (observe frame_id t obs)
                else observe frame_id t obs).
Proof.
  intros HI Hnd Hc tid t Ht.
  destruct kps_cur as [kps|]; [|exists [], false; split; [simpl; lia|done]].
  destruct (decide (kps = [])) as [->|Hne];
    [exists [], false; split; [simpl; lia|done]|].
  destruct (bootstrap_case_or_not idxs_ref idxs_cur s) as [Hb|Hnb].
  { rewrite (update_bootstrap _ _ _ _ _ Hne Hb).
    rewrite initialize_tracks_run by apply (inv_numbered _ HI).
    exists [], false. simpl. split; [lia|]. by rewrite dict_get_app, Ht. }
  destruct (update_reconcile _ _ kps frame_id s Hne Hnb)
    as (ir & ic & -> & -> & Heq).
  rewrite Heq. clear Heq.
  unfold one_to_one in Hc. cbn [c_idxs_ref] in Hc. destruct Hc as [Hir Hpos].
  pose proof (Inv_set_current_frame frame_id s HI) as HI0.
  pose proof (zip_fst_NoDup ir ic Hir) as Hnd1.
  pose proof (zip_fst_Forall _ ir ic Hpos) as Hpos1.
  destruct (reconcile ir ic kps frame_id (set_current_frame frame_id s))
    as [o s'] eqn:Hrun.
  destruct (reconcile_run _ _ _ _ _ _ _ HI0 Hrun)
    as [(e & _ & Hm & _)|(-> & _)].
  - destruct (match_loop_prefix _ _ _ _ _ _ _ (length_replicate _ _) Hm)
      as (pre & [rest Hpre] & Hget).
    cbn [set_current_frame tracks ref_track_ids] in Hget.
    rewrite Hpre, fmap_app in Hnd1, Hpos1.
    apply NoDup_app in Hnd1 as (Hnd1 & _ & _). apply Forall_app in Hpos1 as [Hpos1 _].
    eexists _, false. split; [|cbn [snd]; rewrite Hget; by rewrite Ht].
    by apply observations_once.
  - destruct (reconcile_effect _ _ _ _ _ _ HI0 Hrun) as (_ & _ & _ & _ & Hold).
    cbn [snd]. rewrite (Hold tid t Ht). cbn zeta.
    eexists _, (bool_decide (tid ∈ ref_track_ids (set_current_frame frame_id s)
                             ∧ tid ∉ ref_track_ids s')).
    split; [by apply (observations_once (ref_track_ids s) kps (zip ir ic) tid)|].
    by destruct (decide _) as [Hd|Hd];
      [rewrite bool_decide_eq_true_2 | rewrite bool_decide_eq_false_2].
Qed.

Lemma frames_increasing_snoc cs c :
  frames_increasing (cs ++ [c]) →
  frames_increasing cs ∧ ∀ c0, c0 ∈ cs → c_frame_id c0 < c_frame_id c.
Proof.
  intros Hord. split.
  - intros i j ci cj Hij Hi Hj.
    apply (Hord i j ci cj Hij); by apply lookup_app_l_Some.
  - intros c0 Hin. apply list_elem_of_lookup in Hin as [i Hi].
    apply (Hord i (length cs) c0 c).
    + by apply lookup_lt_Some in Hi.
    + by apply lookup_app_l_Some.
    + by rewrite lookup_app_r, Nat.sub_diag.
Qed.

Lemma frames_increasing_ordered cs : frames_increasing cs → frames_ordered cs.
Proof.
  intros Hinc i j ci cj Hij Hi Hj.
  destruct (decide (i = j)) as [->|Hne]; [|].
  - rewrite Hi in Hj. injection Hj as ->. lia.
  - assert (i < j)%nat as Hlt by lia. pose proof (Hinc i j ci cj Hlt Hi Hj). lia.
Qed.

(** X15: when the frame ids of a history strictly increase and the
    reference indices of every call are non-negative and pairwise
    different, a track is observed at most once per frame, so its [age]
    is at most the number of frames it spans:
    [age <= last_frame - first_frame + 1]. *)
Theorem track_age_within_span (cs : list call) (tid : Z) (t : Track) :
  frames_increasing cs → Forall one_to_one cs →
  dict_get tid (tracks (replay cs __init__)) = Some t →
  age t ≤ last_frame t - first_frame t + 1.
Proof.
  revert tid t. induction cs as [|c cs IH] using rev_ind;
    intros tid t' Hinc Hcs Ht'; [done|].
  pose proof (frames_increasing_snoc _ _ Hinc) as [Hinc0 Hlt].
  apply Forall_app in Hcs as [Hcs Hc]. apply Forall_cons in Hc as [Hc _].
  rewrite replay_snoc in Ht'.
  pose proof (Inv_history cs) as HI.
  destruct (frames_ordered_history cs (frames_increasing_ordered _ Hinc0))
    as (_ & Hempty & Htr).
  pose proof (replay_distinct cs Hcs) as Hnd.
  set (s := replay cs __init__) in *.
  pose proof (update_fate (c_idxs_ref c) (c_idxs_cur c) (c_kps_cur c)
                (c_frame_id c) s HI) as Hfate.
  fold (do_call s c) in Hfate.
  destruct (dict_get tid (tracks s)) as [t|] eqn:Ht.
  - assert (current_frame s < c_frame_id c) as Hmono.
    { destruct cs as [|c1 cs1] using rev_ind.
      - rewrite Hempty in Ht; done.
      - clear IHcs1. subst s. rewrite replay_snoc.
        rewrite current_frame_do_call by apply Inv_history.
        apply Hlt. apply elem_of_app. right. by apply list_elem_of_singleton. }
    specialize (Htr tid t Ht). specialize (IH tid t Hinc0 Hcs Ht).
    destruct c as [idxs_ref idxs_cur kps_cur frame_id].
    destruct (update_observes_once idxs_ref idxs_cur kps_cur frame_id s HI Hnd Hc tid t Ht)
      as (obs & b & Hlen & Hget).
    unfold do_call in Ht'. cbn [c_idxs_ref c_idxs_cur c_kps_cur c_frame_id] in *.
    rewrite Hget in Ht'. injection Ht' as <-.
    assert (age (observe frame_id t obs)
            ≤ last_frame (observe frame_id t obs)
              - first_frame (observe frame_id t obs) + 1) as Hobs.
    { rewrite observe_age, observe_first_frame, observe_last_frame.
      destruct obs as [|kp [|kp' obs]]; unfold len; simpl in *; lia. }
    by destruct b.
  - destruct (fate_new _ _ _ Hfate tid t' Ht Ht') as [kp ->]. simpl. lia.
Qed.

Lemma track_age_within_span_witness :
  let t := {| age := 2; first_frame := 3; last_frame := 5;
              positions := [(10.5%float, 20%float); (12%float, 21.5%float)];
              is_active := true |} in
  age t ≤ last_frame t - first_frame t + 1.
Proof.
  intros t.
  apply (track_age_within_span
           [Call None None (Some [kpA; kpB]) 3;
            Call (Some [0]) (Some [0]) (Some [kpC]) 5] 0 t).
  - intros i j ci cj Hij Hi Hj.
    destruct i as [|[|i]], j as [|[|j]]; simpl in Hi, Hj;
      try discriminate; try lia;
      injection Hi as <-; injection Hj as <-; simpl; lia.
  - repeat constructor; simpl; try lia. apply not_elem_of_nil.
  - vm_compute. reflexivity.
Defined.

(** ** The slots of the reference list *)

Lemma observations_mono ref kps pc pairs tid (kp : keypoint) :
  kp ∈ observations ref kps pairs tid → kp ∈ observations ref kps (pc :: pairs) tid.
Proof.
  intros Hin. rewrite observations_cons.
  destruct (pair_effect_of ref kps pc) as [| |tid' slot kp']; try done.
  destruct (decide (tid' = tid)); [|done]. apply elem_of_cons. by right.
Qed.

Lemma place_loop_lookup ref kps pairs :
  ∀ arr j x,
    foldl (place ref kps) arr pairs !! j = Some x →
    arr !! j = Some x
    ∨ ∃ kp : keypoint,
        kps !! j = Some kp ∧ x ∈ ref ∧ kp ∈ observations ref kps pairs x.
Proof.
  induction pairs as [|pc pairs IH]; intros arr j x Hj; [by left|].
  cbn [foldl] in Hj. destruct (IH _ _ _ Hj) as [Hplace|(kp & Hkp & Hx & Hin)].
  2:{ right. exists kp. split_and!; try done. by apply observations_mono. }
  rewrite place_effect in Hplace.
  destruct (pair_effect_of ref kps pc) as [| |tid slot kp] eqn:He;
    [by left | by left |].
  apply list_lookup_insert_Some in Hplace as [(<- & <- & _)|[_ Hold]]; [|by left].
  right. exists kp. destruct (pair_effect_continues _ _ _ _ _ _ He) as [Hin Hkp].
  split_and!; try done. rewrite observations_cons, He.
  rewrite decide_True by done. apply elem_of_cons. by left.
Qed.

(** X16: when a call with a non-empty detections sequence returns,
    slot [j] of the reference list names a stored track that is active,
    has [last_frame = frame_id] and has the position of detection [j]
    among its positions, whichever path the call took; when the
    reference indices of this call and of the calls before it are
    non-negative and pairwise different, that position is the last one
    of the track. *)
Theorem reference_slots_observed (cs : list call)
    (idxs_ref idxs_cur : option (list Z)) (kps : list keypoint) (frame_id : Z)
    (s' : TrackManager) :
  let s := replay cs __init__ in
  kps ≠ [] →
  update idxs_ref idxs_cur (Some kps) frame_id s = (Ok tt, s') →
  ∀ (j : nat) tid (kp : keypoint),
    ref_track_ids s' !! j = Some tid → kps !! j = Some kp →
    ∃ t, dict_get tid (tracks s') = Some t
      ∧ is_active t = true
      ∧ last_frame t = frame_id
      ∧ ((kp.1, kp.2) ∈ positions t)
      ∧ (Forall one_to_one (cs ++ [Call idxs_ref idxs_cur (Some kps) frame_id]) →
         last (positions t) = Some (kp.1, kp.2)).
Proof.
  intros s Hne Hrun j tid kp Hj Hkp.
  pose proof (Inv_history cs) as HI. fold s in HI.
  assert (Inv s') as HI'.
  { pose proof (update_stepped idxs_ref idxs_cur (Some kps) frame_id s HI) as Hs.
    rewrite Hrun in Hs. apply Hs. }
  assert (∃ t, dict_get tid (tracks s') = Some t
            ∧ last_frame t = frame_id
            ∧ ((kp.1, kp.2) ∈ positions t)
            ∧ (Forall one_to_one (cs ++ [Call idxs_ref idxs_cur (Some kps) frame_id]) →
               last (positions t) = Some (kp.1, kp.2)))
    as (t & Ht & Hlast & Hpos & Hone).
  2:{ exists t. split_and!; try done.
      by apply (Inv_ref_active s' tid t HI'); [eapply list_elem_of_lookup_2|]. }
  destruct (bootstrap_case_or_not idxs_ref idxs_cur s) as [Hb|Hnb].
  { rewrite (update_bootstrap _ _ _ _ _ Hne Hb) in Hrun.
    pose proof (inv_numbered _ HI) as Hw.
    rewrite initialize_tracks_run in Hrun by done.
    injection Hrun as <-. cbn [ref_track_ids tracks set_current_frame next_track_id] in *.
    apply lookup_seqZ in Hj as [-> Hjlt].
    exists (new_track frame_id kp). split_and!.
    - rewrite dict_get_app.
      assert (dict_get (next_track_id s + Z.of_nat j) (tracks s) = None) as ->.
      { apply eq_None_not_Some. rewrite (well_numbered_lookup _ _ Hw). lia. }
      cbn [from_option option_union union]. by rewrite fresh_tracks_get, Hkp.
    - done.
    - simpl. apply elem_of_cons. by left.
    - done. }
  destruct (update_reconcile _ _ kps frame_id s Hne Hnb)
    as (ir & ic & -> & -> & Heq).
  rewrite Heq in Hrun. clear Heq.
  pose proof (Inv_set_current_frame frame_id s HI) as HI0.
  destruct (reconcile_allocates _ _ _ _ _ _ HI0 Hrun) as (Href & _ & Hnew).
  destruct (reconcile_effect _ _ _ _ _ _ HI0 Hrun) as (_ & _ & _ & _ & Hold).
  cbn [set_current_frame ref_track_ids next_track_id tracks] in Href, Hnew, Hold.
  set (arr := foldl (place (ref_track_ids s) kps)
                (replicate (length kps) (-1)) (zip ir ic)) in *.
  rewrite Href, fill_new_lookup in Hj.
  destruct (arr !! j) as [x|] eqn:Hx; [|done]. simpl in Hj.
  destruct (x =? -1) eqn:Hsent.
  { assert (x = -1) as -> by lia. injection Hj as <-.
    exists (new_track frame_id kp). split_and!;
      [by apply Hnew | done | simpl; apply elem_of_cons; by left | done]. }
  injection Hj as ->.
  destruct (place_loop_lookup _ _ _ _ _ _ Hx) as [Hrep|(kp' & Hkp' & Hin & Hobs)].
  { apply lookup_replicate in Hrep as [-> _]. done. }
  rewrite Hkp in Hkp'. injection Hkp' as <-.
  pose proof (inv_ref _ HI) as Hr. rewrite Forall_forall in Hr.
  destruct (Hr tid Hin) as (t & Ht & _).
  specialize (Hold tid t Ht). cbn zeta in Hold.
  set (obs := observations (ref_track_ids s) kps (zip ir ic) tid) in *.
  rewrite decide_False in Hold.
  2:{ intros [_ Hout]. apply Hout. rewrite Href.
      apply (list_elem_of_lookup_2 _ j). by rewrite fill_new_lookup, Hx; simpl; rewrite Hsent. }
  exists (observe frame_id t obs). split_and!.
  - done.
  - rewrite observe_last_frame. destruct obs; [by apply elem_of_nil in Hobs|done].
  - rewrite observe_positions. apply elem_of_app. right.
    apply (list_elem_of_fmap_2 (fun kp : keypoint => (kp.1, kp.2)) _ _ Hobs).
  - intros Hcs. apply Forall_app in Hcs as [Hcs Hc]. apply Forall_cons in Hc as [Hc _].
    unfold one_to_one in Hc. cbn [c_idxs_ref] in Hc. destruct Hc as [Hir Hnn].
    pose proof (observations_once (ref_track_ids s) kps (zip ir ic) tid
                  (replay_distinct cs Hcs) (zip_fst_NoDup ir ic Hir)
                  (zip_fst_Forall _ ir ic Hnn)) as Hlen.
    fold obs in Hlen. rewrite observe_positions.
    destruct obs as [|kp0 [|kp1 obs]]; [by apply elem_of_nil in Hobs| |simpl in Hlen; lia].
    apply list_elem_of_singleton in Hobs as ->. simpl. by rewrite last_snoc.
Qed.

Lemma reference_slots_observed_witness :
  let s := replay [Call None None (Some [kpA; kpB]) 0] __init__ in
  let s' := (update (Some [0]) (Some [1]) (Some [kpC; kpD; kpE]) 1 s).2 in
  ∃ t, dict_get 0 (tracks s') = Some t
    ∧ is_active t = true
    ∧ last_frame t = 1
    ∧ ((kpD.1, kpD.2) ∈ positions t)
    ∧ (Forall one_to_one
         ([Call None None (Some [kpA; kpB]) 0]
          ++ [Call (Some [0]) (Some [1]) (Some [kpC; kpD; kpE]) 1]) →
       last (positions t) = Some (kpD.1, kpD.2)).
Proof.
  intros s s'.
  apply (reference_slots_observed
           [Call None None (Some [kpA; kpB]) 0]
           (Some [0]) (Some [1]) [kpC; kpD; kpE] 1 s') with (j := 1%nat).
  - discriminate.
  - vm_compute. reflexivity.
  - vm_compute. reflexivity.
  - reflexivity.
Defined.

(** ** What a raising call leaves behind *)

(** The matching loop that raises has run the pairs before the first
    one that raises. *)
Lemma match_loop_raises kps frame_id pairs :
  ∀ arr s e s1,
    length arr = length kps →
    match_loop kps frame_id pairs arr s = (Raise e, s1) →
    ∃ pre pc rest,
      pairs = pre ++ pc :: rest
      ∧ Forall (fun pc => pair_effect_of (ref_track_ids s) kps pc ≠ Raises) pre
      ∧ pair_effect_of (ref_track_ids s) kps pc = Raises
      ∧ ∀ tid,
          dict_get tid (tracks s1)
          = (fun t => observe frame_id t (observations (ref_track_ids s) kps pre tid))
              <$> dict_get tid (tracks s).
Proof.
  induction pairs as [|[idx_ref idx_cur] pairs IH]; intros arr s e s1 Hlen; [done|].
  cbn [match_loop]. unfold bind at 1.
  rewrite (match_body_effect _ _ _ _ _ _ Hlen).
  destruct (pair_effect_of (ref_track_ids s) kps (idx_ref, idx_cur))
    as [| |tid0 slot kp] eqn:Heff.
  - intros Hrest.
    destruct (IH _ _ _ _ Hlen Hrest) as (pre & pc & rest & -> & Hpre & Hpc & Hget).
    exists ((idx_ref, idx_cur) :: pre), pc, rest. split_and!; try done.
    + constructor; [by rewrite Heff | done].
    + intros tid. by rewrite observations_cons, Heff.
  - intros [= <- <-]. exists [], (idx_ref, idx_cur), pairs. split_and!; try done.
    intros tid. by destruct (dict_get tid (tracks s)).
  - intros Hrest.
    destruct (IH _ _ _ _ (eq_trans (length_insert _ _ _) Hlen) Hrest)
      as (pre & pc & rest & -> & Hpre & Hpc & Hget).
    assert (ref_track_ids
              match dict_get tid0 (tracks s) with
              | Some t => set_tracks
                  (dict_set tid0 (continue_track frame_id kp t) (tracks s)) s
              | None => s
              end = ref_track_ids s) as Href
      by (by destruct (dict_get tid0 (tracks s))).
    rewrite Href in Hpre, Hpc, Hget.
    exists ((idx_ref, idx_cur) :: pre), pc, rest. split_and!; try done.
    + constructor; [by rewrite Heff | done].
    + intros tid. rewrite Hget, observations_cons, Heff.
      destruct (decide (tid0 = tid)) as [<-|Hne].
      * destruct (dict_get tid0 (tracks s)) as [t|] eqn:Ht; simpl.
        -- by rewrite dict_get_set_eq.
        -- by rewrite Ht.
      * destruct (dict_get tid0 (tracks s)) as [t|] eqn:Ht; simpl; [|done].
        by rewrite dict_get_set_ne.
Qed.

(** X17: a call of [update] that raises is not rolled back: the pairs
    before the first offending pair have had their effect.  Every stored
    track has gained the observations of those pairs, with [age] and
    [last_frame] updated accordingly, and no track was added or
    removed. *)
Theorem update_raise_not_rolled_back (cs : list call) (ir ic : list Z)
    (kps : list keypoint) (frame_id : Z) (e : exn) (s' : TrackManager) :
  let s := replay cs __init__ in
  update (Some ir) (Some ic) (Some kps) frame_id s = (Raise e, s') →
  ∃ pre pc rest,
    zip ir ic = pre ++ pc :: rest
    ∧ Forall (fun pc => pair_effect_of (ref_track_ids s) kps pc ≠ Raises) pre
    ∧ pair_effect_of (ref_track_ids s) kps pc = Raises
    ∧ dict_keys (tracks s') = dict_keys (tracks s)
    ∧ ∀ tid t,
        dict_get tid (tracks s) = Some t →
        dict_get tid (tracks s')
        = Some (observe frame_id t (observations (ref_track_ids s) kps pre tid)).
Proof.
  intros s. pose proof (Inv_history cs) as HI. fold s in HI.
  pose proof (Inv_set_current_frame frame_id s HI) as HI0.
  unfold update, bind at 1, modify at 1.
  destruct (len kps =? 0) eqn:Hk; [done|].
  unfold bind at 1, gets at 1.
  destruct (len (ref_track_ids (set_current_frame frame_id s)) =? 0) eqn:Hr;
    [by rewrite initialize_tracks_run by apply HI0|].
  destruct ((len ir =? 0) || (len ic =? 0));
    [by rewrite initialize_tracks_run by apply HI0|].
  intros Hrun.
  destruct (reconcile_run _ _ _ _ _ _ _ HI0 Hrun)
    as [(e' & [= <-] & Hm & Hag)|([=] & _)].
  destruct (match_loop_raises _ _ _ _ _ _ _ (length_replicate _ _) Hm)
    as (pre & pc & rest & Hzip & Hpre & Hpc & Hget).
  exists pre, pc, rest. split_and!; try done.
  - apply (aged_keys _ _ Hag).
  - intros tid t Ht. rewrite Hget. cbn [set_current_frame tracks]. by rewrite Ht.
Qed.

Lemma update_raise_not_rolled_back_witness :
  let s := replay [Call None None (Some [kpA; kpB]) 0] __init__ in
  let s' := (update (Some [0; -5]) (Some [0; 0]) (Some [kpC]) 1 s).2 in
  ∃ pre pc rest,
    zip [0; -5] [0; 0] = pre ++ pc :: rest
    ∧ Forall (fun pc => pair_effect_of (ref_track_ids s) [kpC] pc ≠ Raises) pre
    ∧ pair_effect_of (ref_track_ids s) [kpC] pc = Raises
    ∧ dict_keys (tracks s') = dict_keys (tracks s)
    ∧ ∀ tid t,
        dict_get tid (tracks s) = Some t →
        dict_get tid (tracks s')
        = Some (observe 1 t (observations (ref_track_ids s) [kpC] pre tid)).
Proof.
  apply (update_raise_not_rolled_back
           [Call None None (Some [kpA; kpB]) 0] [0; -5] [0; 0] [kpC] 1 IndexError).
  vm_compute. reflexivity.
Defined.
